(** * TrieMap: a compressed trie over key windows

    Shallow embedding of [src/trie-map.ts].

    - A JavaScript string is a [list ascii] (type [str]); keys and search
      texts are taken over the ASCII range, where [toLowerCase] is the
      map A..Z to a..z.
    - Node objects live in an arena ([nodes]); an object reference is the
      index of the object in the arena, so that [parent] back-references
      and [children] arrays alias exactly as in the source.  A node is
      allocated by appending to the arena.
    - A key window is mutated in place by the source; every operation that
      receives one returns the window as it is left behind.
    - The outer [option] of an operation is [None] when the source would
      not return normally (a [TypeError] on an out-of-range character) or
      when the model runs out of fuel or meets a dangling reference; the
      theorems below show that this never happens on a trie built by
      [set] and a well-formed window. *)

From Stdlib Require Import ZArith Ascii String Lia.
From stdpp Require Import base option list strings.

Local Open Scope nat_scope.

(** ** Strings *)

Abbreviation str := (list ascii).

Definition js (s : string) : str := list_ascii_of_string s.

Definition isUpper (c : ascii) : bool :=
  (65 <=? nat_of_ascii c) && (nat_of_ascii c <=? 90).

Definition isLetter (c : ascii) : bool :=
  isUpper c || ((97 <=? nat_of_ascii c) && (nat_of_ascii c <=? 122)).

Definition toLowerCaseChar (c : ascii) : ascii :=
  if isUpper c then ascii_of_nat (nat_of_ascii c + 32) else c.

Definition toLowerCase (s : str) : str := map toLowerCaseChar s.

Definition wildcard : ascii := "*"%char.

(** [s.slice(0, -n)]: for [n = 0] JavaScript reads [-0] as [0] and the
    result is empty. *)
Definition sliceDropEnd (s : str) (n : nat) : str :=
  if n =? 0 then [] else take (length s - n) s.

(** [s[i]] for a numeric index; [None] is [undefined]. *)
Definition charAt (s : str) (i : Z) : option ascii :=
  if (i <? 0)%Z then None else s !! Z.to_nat i.

(** ** Data model *)

Record TrieMapKeyPointer := mkPointer
  { data : str; pos : Z; posMax : Z }.

Inductive TrieMapKey :=
| KeyPointer (keyPointer : TrieMapKeyPointer)
| KeyString (s : str).

Inductive TrieMapMatchType :=
| full
| none
| TrieMapPrefixMatch (index : nat).

Definition isPrefixMatch (x : TrieMapMatchType) : bool :=
  match x with TrieMapPrefixMatch _ => true | _ => false end.

Inductive Order := bfs | dfs.

(** [/[A-Z]/i.test(src[pos])]; [undefined] is tested as the text
    "undefined", which contains a letter. *)
Definition isNonBoundary (src : str) (p : Z) : bool :=
  match charAt src p with
  | Some c => isLetter c
  | None => true
  end.

Definition keyAsPointer (k : TrieMapKey) : TrieMapKeyPointer :=
  match k with
  | KeyString s => mkPointer s 0 (Z.of_nat (length s))
  | KeyPointer kp => kp
  end.

(** [data.slice(pos, posMax)] *)
Definition slice (s : str) (from to : Z) : str :=
  let n := Z.of_nat (length s) in
  let norm z := (if z <? 0 then Z.max (n + z) 0 else Z.min z n)%Z in
  let a := norm from in
  let b := norm to in
  take (Z.to_nat (b - a)) (drop (Z.to_nat a) s).

Definition keyAsString (k : TrieMapKey) : str :=
  match k with
  | KeyString s => s
  | KeyPointer kp => slice (data kp) (pos kp) (posMax kp)
  end.

(** The caller's key object after a call that left the window as [kp]. *)
Definition keyAfter (k : TrieMapKey) (kp : TrieMapKeyPointer) : TrieMapKey :=
  match k with
  | KeyString s => KeyString s
  | KeyPointer _ => KeyPointer kp
  end.

Definition advance (kp : TrieMapKeyPointer) (n : nat) : TrieMapKeyPointer :=
  mkPointer (data kp) (pos kp + Z.of_nat n) (posMax kp).

Definition restore (kp : TrieMapKeyPointer) (p : Z) : TrieMapKeyPointer :=
  mkPointer (data kp) p (posMax kp).

Definition narrow (kp : TrieMapKeyPointer) (pm : Z) : TrieMapKeyPointer :=
  mkPointer (data kp) (pos kp) pm.

(** The test of [findByLongestPrefix] that rejects a candidate of length
    [keyLen]: the position after it lies before the end of the window
    and holds a letter. *)
Definition rejects (kp : TrieMapKeyPointer) (keyLen : nat) : bool :=
  (pos kp + Z.of_nat keyLen <? posMax kp)%Z
  && isNonBoundary (data kp) (pos kp + Z.of_nat keyLen).

Section TrieMap.

Context {T : Type}.

(** JavaScript truthiness of a stored value. *)
Variable truthy : T -> bool.

Record TrieMapNode := mkNode
  { key : str; value : option T; parent : option nat; children : list nat }.

Record TrieMap := mkTrie
  { root : option nat; caseSensitive : bool; nodes : list TrieMapNode }.

Record TrieMapClosestMatchingNode := mkClosest
  { node : nat; match_ : TrieMapMatchType; fullKey : str; sumIndex : nat }.

Definition empty (options : bool) : TrieMap := mkTrie None options [].

(** [node?.value] and [node.value ? .. : ..] *)
Definition truthyValue (v : option T) : bool :=
  match v with Some x => truthy x | None => false end.

(** ** charsEqual *)

(** [a] comes from the stored segment, [b] from the window; [b] is
    [None] when the window reads past the end of [data], and then
    [b.toLowerCase()] throws. *)
Definition charsEqual (cs : bool) (a : ascii) (b : option ascii) : option bool :=
  if Ascii.eqb a wildcard then Some true
  else match b with
       | Some b' => Some (Ascii.eqb a (if cs then b' else toLowerCaseChar b'))
       | None => if cs then Some false else None
       end.

(** ** matchPrefix *)

Definition matchStop (prefix : str) (index : nat) : TrieMapMatchType :=
  if (0 <? index) || (length prefix =? 0) then TrieMapPrefixMatch index else none.

(** [n] is the number of iterations the loop guard
    [keyPointer.pos + index < keyPointer.posMax] still admits. *)
Fixpoint matchPrefixFrom (cs : bool) (prefix : str) (kp : TrieMapKeyPointer)
    (n index : nat) : option TrieMapMatchType :=
  match n with
  | 0 =>
      Some (if (pos kp + Z.of_nat index =? posMax kp)%Z && (index =? length prefix)
            then full else TrieMapPrefixMatch index)
  | S n' =>
      match prefix !! index with
      | None => Some (matchStop prefix index)
      | Some a =>
          eq ← charsEqual cs a (charAt (data kp) (pos kp + Z.of_nat index));
          if eq : bool then matchPrefixFrom cs prefix kp n' (S index)
          else Some (matchStop prefix index)
      end
  end.

Definition matchPrefix (cs : bool) (prefix : str) (kp : TrieMapKeyPointer)
    : option TrieMapMatchType :=
  matchPrefixFrom cs prefix kp (Z.to_nat (posMax kp - pos kp)) 0.

(** ** findClosestMatchingNode *)

(** Outcome of the [for (const child of candidateNode.children)] loop. *)
Inductive ChildScan :=
| ScanFull (child : nat) (childKey : str)
| ScanPrefix (child : nat) (childKey : str) (index : nat)
| ScanNothing.

Fixpoint scanChildren (t : TrieMap) (cs : list nat) (kp : TrieMapKeyPointer)
    : option ChildScan :=
  match cs with
  | [] => Some ScanNothing
  | child :: rest =>
      c ← nodes t !! child;
      m ← matchPrefix (caseSensitive t) (key c) kp;
      match m with
      | full => Some (ScanFull child (key c))
      | TrieMapPrefixMatch i => Some (ScanPrefix child (key c) i)
      | none => scanChildren t rest kp
      end
  end.

(** The [while] loop.  On entry [traverseNode] is [candidateNode] and
    [traverseMatch] is [candidateMatch]; the loop ends as soon as the scan
    of the children leaves [traverseNode] at [null]. *)
Fixpoint closestLoop (fuel : nat) (t : TrieMap) (originalKeyPointerPos : Z)
    (candidateNode candidateMatch sumIndex : nat) (fullKey : str)
    (kp : TrieMapKeyPointer)
    : option (option TrieMapClosestMatchingNode * TrieMapKeyPointer) :=
  match fuel with
  | 0 => None
  | S fuel' =>
      cn ← nodes t !! candidateNode;
      if candidateMatch =? length (key cn) then
        sc ← scanChildren t (children cn) kp;
        match sc with
        | ScanFull child ck =>
            Some (Some (mkClosest child full (fullKey ++ ck) 0), kp)
        | ScanPrefix child ck i =>
            closestLoop fuel' t originalKeyPointerPos child i (sumIndex + i)
              (fullKey ++ ck) (advance kp i)
        | ScanNothing =>
            Some (Some (mkClosest candidateNode (TrieMapPrefixMatch candidateMatch)
                          fullKey sumIndex),
                  restore kp originalKeyPointerPos)
        end
      else
        Some (Some (mkClosest candidateNode (TrieMapPrefixMatch candidateMatch)
                      fullKey sumIndex),
              restore kp originalKeyPointerPos)
  end.

Definition findClosestMatchingNode (t : TrieMap) (kp : TrieMapKeyPointer)
    : option (option TrieMapClosestMatchingNode * TrieMapKeyPointer) :=
  match root t with
  | None => Some (None, kp)
  | Some r =>
      rn ← nodes t !! r;
      rootMatch ← matchPrefix (caseSensitive t) (key rn) kp;
      match rootMatch with
      | none => Some (None, kp)
      | full => Some (Some (mkClosest r full (key rn) 0), kp)
      | TrieMapPrefixMatch i =>
          closestLoop (S (length (nodes t))) t (pos kp) r i i (key rn) (advance kp i)
      end
  end.

(** ** get *)

Definition getAt (t : TrieMap) (kp : TrieMapKeyPointer)
    : option (option T * TrieMapKeyPointer) :=
  '(result, kp') ← findClosestMatchingNode t kp;
  match result with
  | Some r =>
      match match_ r with
      | full => n ← nodes t !! node r; Some (value n, kp')
      | _ => Some (None, kp')
      end
  | None => Some (None, kp')
  end.

Definition get (t : TrieMap) (k : TrieMapKey) : option (option T * TrieMapKey) :=
  '(v, kp') ← getAt t (keyAsPointer k);
  Some (v, keyAfter k kp').

(** ** findByLongestPrefix *)

(** The upward walk
    [while (node) { fullKey = fullKey.slice(0, -node.key.length);
                    node = node.parent; if (node?.value) break; }]. *)
Fixpoint walkUp (fuel : nat) (t : TrieMap) (n : nat) (fullKey : str)
    : option (option nat * str) :=
  match fuel with
  | 0 => None
  | S fuel' =>
      nd ← nodes t !! n;
      let fullKey' := sliceDropEnd fullKey (length (key nd)) in
      match parent nd with
      | None => Some (None, fullKey')
      | Some p =>
          pn ← nodes t !! p;
          if truthyValue (value pn) then Some (Some p, fullKey')
          else walkUp fuel' t p fullKey'
      end
  end.

(** One pass of the search up to the boundary test: the traversal and the
    fallback walk.  The result is the node and full key held by [result]
    when the boundary test is reached, or [None] where the source returns
    [null] before it. *)
Definition longestPrefixCandidate (t : TrieMap) (kp : TrieMapKeyPointer)
    : option (option (nat * str) * TrieMapKeyPointer) :=
  '(result, kp') ← findClosestMatchingNode t kp;
  match result with
  | None => Some (None, kp')
  | Some r =>
      nd ← nodes t !! node r;
      match match_ r, value nd with
      | none, _ => Some (None, kp')
      | _, None => Some (None, kp')
      | full, Some _ => Some (Some (node r, fullKey r), kp')
      | TrieMapPrefixMatch i, Some _ =>
          if i =? length (key nd) then Some (Some (node r, fullKey r), kp')
          else
            '(up, fk) ← walkUp (S (length (nodes t))) t (node r) (fullKey r);
            match up with
            | None => Some (None, kp')
            | Some n => Some (Some (n, fk), kp')
            end
      end
  end.

Fixpoint findByLongestPrefixLoop (fuel : nat) (t : TrieMap)
    (kp : TrieMapKeyPointer) (wordBoundaryOnly : bool)
    : option (option (str * T) * TrieMapKeyPointer) :=
  match fuel with
  | 0 => None
  | S fuel' =>
      '(cand, kp') ← longestPrefixCandidate t kp;
      match cand with
      | None => Some (None, kp')
      | Some (n, fk) =>
          let keyLen := Z.of_nat (length fk) in
          if wordBoundaryOnly
             && (pos kp' + keyLen <? posMax kp')%Z
             && isNonBoundary (data kp') (pos kp' + keyLen)
          then findByLongestPrefixLoop fuel' t (narrow kp' (pos kp' + keyLen - 1)) true
          else
            nd ← nodes t !! n;
            match value nd with
            | Some v => Some (if truthy v then Some (fk, v) else None, kp')
            | None => Some (None, kp')
            end
      end
  end.

(** Every retry narrows [posMax] below [pos + keyLen], so the window
    length bounds the number of retries. *)
Definition retryFuel (kp : TrieMapKeyPointer) : nat :=
  S (S (Z.to_nat (posMax kp - pos kp))).

Definition findByLongestPrefixAt (t : TrieMap) (kp : TrieMapKeyPointer)
    (wordBoundaryOnly : bool) : option (option (str * T) * TrieMapKeyPointer) :=
  findByLongestPrefixLoop (retryFuel kp) t kp wordBoundaryOnly.

Definition findByLongestPrefix (t : TrieMap) (search : TrieMapKey)
    (wordBoundaryOnly : bool) : option (option (str * T) * TrieMapKey) :=
  '(r, kp') ← findByLongestPrefixAt t (keyAsPointer search) wordBoundaryOnly;
  Some (r, keyAfter search kp').

(** ** iterate *)

(** [node.children.map(child => [child, fullKey + child.key])] *)
Fixpoint childEntries (t : TrieMap) (cs : list nat) (fullKey : str)
    : option (list (nat * str)) :=
  match cs with
  | [] => Some []
  | child :: rest =>
      c ← nodes t !! child;
      es ← childEntries t rest fullKey;
      Some ((child, fullKey ++ key c) :: es)
  end.

(** [q.shift()] for [bfs], [q.pop()] for [dfs]. *)
Definition takeNext {A} (order : Order) (q : list A) : option (A * list A) :=
  match order with
  | bfs => match q with [] => None | x :: q' => Some (x, q') end
  | dfs => match reverse q with [] => None | x :: q' => Some (x, reverse q') end
  end.

Fixpoint iterateLoop (fuel : nat) (t : TrieMap) (order : Order)
    (q : list (nat * str)) : option (list (str * T)) :=
  match takeNext order q with
  | None => Some []
  | Some ((n, fk), q') =>
      match fuel with
      | 0 => None
      | S fuel' =>
          nd ← nodes t !! n;
          es ← childEntries t (children nd) fk;
          rest ← iterateLoop fuel' t order (q' ++ es);
          Some (match value nd with
                | Some v => if truthy v then (fk, v) :: rest else rest
                | None => rest
                end)
      end
  end.

(** [prefix ? .. : ..]: an empty string is falsy, every other key is
    searched for. *)
Definition prefixGiven (prefix : option TrieMapKey) : option TrieMapKey :=
  match prefix with
  | Some (KeyString []) => None
  | p => p
  end.

Definition iterate (t : TrieMap) (prefix : option TrieMapKey) (order : Order)
    : option (list (str * T)) :=
  match root t with
  | None => Some []
  | Some r =>
      start ←
        match prefixGiven prefix with
        | Some p =>
            '(result, _) ← findClosestMatchingNode t (keyAsPointer p);
            Some (match result with
                  | Some res => Some (node res, fullKey res)
                  | None => None
                  end)
        | None => rn ← nodes t !! r; Some (Some (r, key rn))
        end;
      match start with
      | None => Some []
      | Some s => iterateLoop (S (length (nodes t))) t order [s]
      end
  end.

(** ** set *)

Definition setParent (p : option nat) (nd : TrieMapNode) : TrieMapNode :=
  mkNode (key nd) (value nd) p (children nd).

Definition setChildren (cs : list nat) (nd : TrieMapNode) : TrieMapNode :=
  mkNode (key nd) (value nd) (parent nd) cs.

Definition setValue (v : option T) (nd : TrieMapNode) : TrieMapNode :=
  mkNode (key nd) v (parent nd) (children nd).

Definition setKey (k : str) (nd : TrieMapNode) : TrieMapNode :=
  mkNode k (value nd) (parent nd) (children nd).

(** [children.indexOf(node)] followed by [children[nodeIndex] = newNode];
    an index of [-1] leaves the array elements as they are. *)
Fixpoint replaceFirst (old new : nat) (cs : list nat) : list nat :=
  match cs with
  | [] => []
  | c :: rest => if c =? old then new :: rest else c :: replaceFirst old new rest
  end.

(** [for (const child of newNode.children) child.parent = newNode] *)
Definition reparent (cs : list nat) (p : nat) (h : list TrieMapNode)
    : list TrieMapNode :=
  foldl (fun h c => alter (setParent (Some p)) c h) h cs.

(** The first branch of [set] after the traversal: [!result?.match]. *)
Definition splitRoot (t : TrieMap) (r : nat) (keyString : str) (v : T) : TrieMap :=
  let h := nodes t in
  let n := length h in
  let h1 := h ++ [mkNode [] None None [r]] in
  let h2 := alter (setParent (Some n)) r h1 in
  let h3 := h2 ++ [mkNode keyString (Some v) (Some n) []] in
  let h4 := alter (setChildren [r; S n]) n h3 in
  mkTrie (Some n) (caseSensitive t) h4.

(** "insert a parent node" *)
Definition insertParent (t : TrieMap) (n : nat) (nd : TrieMapNode) (index : nat)
    (v : T) : option TrieMap :=
  let h := nodes t in
  let new := length h in
  let h1 := h ++ [mkNode (take index (key nd)) (Some v) (parent nd) [n]] in
  let h2 := alter (setKey (drop index (key nd))) n h1 in
  if decide (Some n = root t) then
    Some (mkTrie (Some new) (caseSensitive t) (alter (setParent (Some new)) n h2))
  else
    p ← parent nd;
    pn ← h2 !! p;
    let h3 := alter (setChildren (replaceFirst n new (children pn))) p h2 in
    Some (mkTrie (root t) (caseSensitive t) (alter (setParent (Some new)) n h3)).

(** "split a parent node with a smaller key" *)
Definition splitNode (t : TrieMap) (n : nat) (nd : TrieMapNode) (index sumIndex : nat)
    (keyString : str) (v : T) : TrieMap :=
  let h := nodes t in
  let new := length h in
  let h1 := h ++ [mkNode (drop index (key nd)) (value nd) (Some n) (children nd)] in
  let isExactMatch := sumIndex =? length keyString in
  let h2 := alter (setKey (take index (key nd))) n h1 in
  let h3 := alter (setValue (if isExactMatch then Some v else None)) n h2 in
  let h4 := alter (setChildren [new]) n h3 in
  let h5 := reparent (children nd) new h4 in
  if isExactMatch then mkTrie (root t) (caseSensitive t) h5
  else
    let leaf := length h5 in
    let h6 := h5 ++ [mkNode (drop sumIndex keyString) (Some v) (Some n) []] in
    mkTrie (root t) (caseSensitive t) (alter (setChildren [new; leaf]) n h6).

(** "add the new node to children" *)
Definition addChild (t : TrieMap) (n : nat) (nd : TrieMapNode) (sumIndex : nat)
    (keyString : str) (v : T) : TrieMap :=
  let h := nodes t in
  let leaf := length h in
  let h1 := h ++ [mkNode (drop sumIndex keyString) (Some v) (Some n) []] in
  mkTrie (root t) (caseSensitive t) (alter (setChildren (children nd ++ [leaf])) n h1).

(** "update existing node value" *)
Definition updateValue (t : TrieMap) (n : nat) (v : T) : TrieMap :=
  mkTrie (root t) (caseSensitive t) (alter (setValue (Some v)) n (nodes t)).

(** The branches of [set] on a non-empty trie, selected by the result
    of the traversal; [keyPointer] is the window as the traversal left
    it. *)
Definition setAt (t : TrieMap) (r : nat) (keyString : str) (v : T)
    (result : option TrieMapClosestMatchingNode) (keyPointer : TrieMapKeyPointer)
    : option TrieMap :=
  match result with
  | None => Some (splitRoot t r keyString v)
  | Some res =>
      let n := node res in
      nd ← nodes t !! n;
      match match_ res with
      | TrieMapPrefixMatch index =>
          if (Z.of_nat index =? posMax keyPointer - pos keyPointer)%Z then
            insertParent t n nd index v
          else if index <? length (key nd) then
            Some (splitNode t n nd index (sumIndex res) keyString v)
          else
            Some (addChild t n nd (sumIndex res) keyString v)
      | _ => Some (updateValue t n v)
      end
  end.

(** The key as [set] stores it: lower-cased unless the trie is case
    sensitive. *)
Definition storedKey (cs : bool) (k : TrieMapKey) : str :=
  if cs then keyAsString k else toLowerCase (keyAsString k).

Definition set (t : TrieMap) (k : TrieMapKey) (v : T) : option TrieMap :=
  let keyString := storedKey (caseSensitive t) k in
  match root t with
  | None =>
      Some (mkTrie (Some (length (nodes t))) (caseSensitive t)
              (nodes t ++ [mkNode keyString (Some v) None []]))
  | Some r =>
      '(result, keyPointer) ← findClosestMatchingNode t (keyAsPointer (KeyString keyString));
      setAt t r keyString v result keyPointer
  end.

(** The constructor: [for (const [key, value] of iterable) this.set(key, value)]. *)
Fixpoint setAll (t : TrieMap) (entries : list (TrieMapKey * T)) : option TrieMap :=
  match entries with
  | [] => Some t
  | (k, v) :: rest => t' ← set t k v; setAll t' rest
  end.

Definition construct (entries : list (TrieMapKey * T)) (options : bool)
    : option TrieMap :=
  setAll (empty options) entries.

(** ** Tries built by [set] *)

Definition reachable (t : TrieMap) : Prop :=
  ∃ entries, construct entries (caseSensitive t) = Some t.

(** The concatenation of [key] along the [parent] chain, from the root
    down to the node [i]. *)
Fixpoint keyPath (fuel : nat) (h : list TrieMapNode) (i : nat) : option str :=
  match fuel with
  | 0 => None
  | S fuel' =>
      nd ← h !! i;
      match parent nd with
      | None => Some (key nd)
      | Some p => pre ← keyPath fuel' h p; Some (pre ++ key nd)
      end
  end.

Definition pathKey (t : TrieMap) (i : nat) : option str :=
  keyPath (length (nodes t)) (nodes t) i.

(** What [iterate] yields at a node whose full key is [fk]. *)
Definition yieldOf (fk : str) (v : option T) : list (str * T) :=
  match v with
  | Some x => if truthy x then [(fk, x)] else []
  | None => []
  end.

(** The pair of every node of the arena whose value [iterate] accepts,
    each node once, in the order of allocation. *)
Definition nodeYield (t : TrieMap) (i : nat) : list (str * T) :=
  match nodes t !! i, pathKey t i with
  | Some nd, Some fk => yieldOf fk (value nd)
  | _, _ => []
  end.

Definition allYields (t : TrieMap) : list (str * T) :=
  flat_map (nodeYield t) (seq 0 (length (nodes t))).

(** * The trie as a tree

    The arena of a trie built by [set] is the image of a tree whose
    nodes carry their arena index.  The operations below act on that
    tree and on the content of a window; they are shown further down to
    compute what the operations on the arena compute. *)

#[warnings="-register-all"]
Inductive ltree := LNode (i : nat) (k : str) (v : option T) (kids : list ltree).

Definition lid (t : ltree) : nat := match t with LNode i _ _ _ => i end.
Definition lkey (t : ltree) : str := match t with LNode _ k _ _ => k end.
Definition lval (t : ltree) : option T := match t with LNode _ _ v _ => v end.
Definition lkids (t : ltree) : list ltree := match t with LNode _ _ _ c => c end.

(** The arena cells of a tree hanging below [p]. *)
Fixpoint cells (p : option nat) (t : ltree) : list (nat * TrieMapNode) :=
  match t with
  | LNode i k v kids =>
      (i, mkNode k v p (map lid kids)) :: flat_map (cells (Some i)) kids
  end.

Fixpoint ids (t : ltree) : list nat :=
  match t with
  | LNode i _ _ kids => i :: flat_map ids kids
  end.

Definition represents (h : list TrieMapNode) (p : option nat) (t : ltree) : Prop :=
  ∀ i nd, (i, nd) ∈ cells p t → h !! i = Some nd.

(** [shape t lt]: the trie [t] is the tree [lt], and every node of the
    arena is a node of the tree. *)
Definition shape (t : TrieMap) (lt : option ltree) : Prop :=
  match lt with
  | None => root t = None ∧ nodes t = []
  | Some l =>
      root t = Some (lid l) ∧ represents (nodes t) None l
      ∧ NoDup (ids l) ∧ length (nodes t) = length (ids l)
  end.

(** ** Windows as lists *)

Definition wellFormed (kp : TrieMapKeyPointer) : Prop :=
  (0 ≤ pos kp ∧ pos kp ≤ posMax kp ∧ posMax kp ≤ Z.of_nat (length (data kp)))%Z.

Definition wellFormedKey (k : TrieMapKey) : Prop := wellFormed (keyAsPointer k).

Definition content (kp : TrieMapKeyPointer) : str :=
  take (Z.to_nat (posMax kp - pos kp)) (drop (Z.to_nat (pos kp)) (data kp)).

(** [charsEqual] on a character that is there. *)
Definition charEq (cs : bool) (a b : ascii) : bool :=
  Ascii.eqb a wildcard || Ascii.eqb a (if cs then b else toLowerCaseChar b).

Fixpoint common (cs : bool) (p w : str) : nat :=
  match p, w with
  | a :: p', b :: w' => if charEq cs a b then S (common cs p' w') else 0
  | _, _ => 0
  end.

Definition matchList (cs : bool) (p w : str) : TrieMapMatchType :=
  let i := common cs p w in
  if i =? length w then (if i =? length p then full else TrieMapPrefixMatch i)
  else matchStop p i.

(** ** The traversal on the tree *)

Fixpoint scanWith {R} (cs : bool) (w : str) (onFull : ltree → R)
    (onPrefix : ltree → nat → R) (onNothing : R) (l : list ltree) : R :=
  match l with
  | [] => onNothing
  | c :: l' =>
      match matchList cs (lkey c) w with
      | full => onFull c
      | TrieMapPrefixMatch j => onPrefix c j
      | none => scanWith cs w onFull onPrefix onNothing l'
      end
  end.

(** What the traversal returns: the node reached, and by how much [pos]
    is left advanced. *)
Record Reached := mkReached
  { rnode : ltree; rmatch : TrieMapMatchType; rfullKey : str; rsum : nat;
    radvance : nat }.

Fixpoint closestFrom (cs : bool) (t : ltree) (i sum : nat) (fk : str) (adv : nat)
    (w : str) {struct t} : Reached :=
  match t with
  | LNode _ k _ kids =>
      if i =? length k then
        scanWith cs w
          (fun c => mkReached c full (fk ++ lkey c) 0 adv)
          (fun c j => closestFrom cs c j (sum + j) (fk ++ lkey c) (adv + j) (drop j w))
          (mkReached t (TrieMapPrefixMatch i) fk sum 0)
          kids
      else mkReached t (TrieMapPrefixMatch i) fk sum 0
  end.

Definition closest (cs : bool) (t : ltree) (w : str) : option Reached :=
  match matchList cs (lkey t) w with
  | none => None
  | full => Some (mkReached t full (lkey t) 0 0)
  | TrieMapPrefixMatch i => Some (closestFrom cs t i i (lkey t) i (drop i w))
  end.

Definition treeGet (cs : bool) (lt : option ltree) (w : str) : option T :=
  t ← lt;
  r ← closest cs t w;
  match rmatch r with full => lval (rnode r) | _ => None end.

(** ** Insertion on the tree *)

Definition withValue (v : T) (t : ltree) : ltree :=
  LNode (lid t) (lkey t) (Some v) (lkids t).

(** The three edits of a partial match at the node [t], with [f] and
    [S f] the next free arena indices. *)
Definition editNode (f : nat) (v : T) (keyString : str) (t : ltree) (i sum : nat)
    : ltree :=
  match t with
  | LNode id k val kids =>
      if i =? length keyString then
        LNode f (take i k) (Some v) [LNode id (drop i k) val kids]
      else if i <? length k then
        if sum =? length keyString then
          LNode id (take i k) (Some v) [LNode f (drop i k) val kids]
        else
          LNode id (take i k) None
            [LNode f (drop i k) val kids;
             LNode (S f) (drop sum keyString) (Some v) []]
      else
        LNode id k val (kids ++ [LNode f (drop sum keyString) (Some v) []])
  end.

Fixpoint replaceScan (cs : bool) (w : str) (onFull : ltree → ltree)
    (onPrefix : ltree → nat → ltree) (l : list ltree) : option (list ltree) :=
  match l with
  | [] => None
  | c :: l' =>
      match matchList cs (lkey c) w with
      | full => Some (onFull c :: l')
      | TrieMapPrefixMatch j => Some (onPrefix c j :: l')
      | none => cons c <$> replaceScan cs w onFull onPrefix l'
      end
  end.

Fixpoint insertFrom (cs : bool) (f : nat) (v : T) (keyString : str) (t : ltree)
    (i sum : nat) (w : str) {struct t} : ltree :=
  match t with
  | LNode id k val kids =>
      if i =? length k then
        match replaceScan cs w (withValue v)
                (fun c j => insertFrom cs f v keyString c j (sum + j) (drop j w))
                kids with
        | Some kids' => LNode id k val kids'
        | None => editNode f v keyString t i sum
        end
      else editNode f v keyString t i sum
  end.

Definition treeSet (cs : bool) (lt : option ltree) (f : nat) (keyString : str)
    (v : T) : ltree :=
  match lt with
  | None => LNode f keyString (Some v) []
  | Some t =>
      match matchList cs (lkey t) keyString with
      | none => LNode f [] None [t; LNode (S f) keyString (Some v) []]
      | full => withValue v t
      | TrieMapPrefixMatch i => insertFrom cs f v keyString t i i (drop i keyString)
      end
  end.

Definition treeSize (lt : option ltree) : nat :=
  match lt with None => 0 | Some l => length (ids l) end.

Fixpoint treeSetAll (cs : bool) (lt : option ltree) (entries : list (TrieMapKey * T))
    : option ltree :=
  match entries with
  | [] => lt
  | (k, v) :: rest =>
      treeSetAll cs (Some (treeSet cs lt (treeSize lt) (storedKey cs k) v)) rest
  end.

(** Every node below the root has a non-empty key. *)
#[warnings="-register-all"]
Inductive properKeys : ltree → Prop :=
| properKeys_node i k v kids :
    Forall (fun c => lkey c ≠ [] ∧ properKeys c) kids →
    properKeys (LNode i k v kids).

(** The full key of every node of a tree whose root has the full key
    [fk]. *)
Fixpoint fullKeys (t : ltree) (fk : str) : list (nat * str) :=
  match t with
  | LNode i _ _ kids => (i, fk) :: flat_map (fun c => fullKeys c (fk ++ lkey c)) kids
  end.

(** ** Iteration on the tree *)

(** Depth first, as the stack of [iterate] pops it: the last child
    first. *)
Fixpoint lastChildFirst (t : ltree) (fk : str) : list (str * T) :=
  match t with
  | LNode _ _ v kids =>
      yieldOf fk v
      ++ concat (reverse (map (fun c => lastChildFirst c (fk ++ lkey c)) kids))
  end.

Definition kidEntries (e : ltree * str) : list (ltree * str) :=
  map (fun c => (c, e.2 ++ lkey c)) (lkids e.1).

(** Breadth first: one level after the other, every level in the order
    of the children lists. *)
Fixpoint levelOrder (depth : nat) (q : list (ltree * str)) : list (str * T) :=
  match depth with
  | 0 => []
  | S d =>
      flat_map (fun e => yieldOf e.2 (lval e.1)) q
      ++ levelOrder d (flat_map kidEntries q)
  end.

Definition treeIterate (l : ltree) (order : Order) : list (str * T) :=
  match order with
  | bfs => levelOrder (length (ids l)) [(l, lkey l)]
  | dfs => lastChildFirst l (lkey l)
  end.

(** ** Notions used in the proofs *)

(** The value found below the node [t], whose own key matched the first
    [i] characters: [get] after the root. *)
Fixpoint findFrom (cs : bool) (t : ltree) (i : nat) (w : str) {struct t} : option T :=
  match t with
  | LNode _ k _ kids =>
      if i =? length k then
        scanWith cs w lval (fun c j => findFrom cs c j (drop j w)) None kids
      else None
  end.

Definition findAt (cs : bool) (c : ltree) (w : str) : option T :=
  match matchList cs (lkey c) w with
  | full => lval c
  | TrieMapPrefixMatch j => findFrom cs c j (drop j w)
  | none => None
  end.

Fixpoint findFirst (cs : bool) (kids : list ltree) (w : str) : option T :=
  match kids with
  | [] => None
  | c :: rest =>
      match matchList cs (lkey c) w with
      | none => findFirst cs rest w
      | _ => findAt cs c w
      end
  end.

(** The search text as [charsEqual] reads it. *)
Definition norm (cs : bool) (w : str) : str := if cs then w else toLowerCase w.

(** [matchPrefix] as a function of the length of the common prefix and
    of the two lengths. *)
Definition matchOf (c lp lw : nat) : TrieMapMatchType :=
  if c =? lw then (if c =? lp then full else TrieMapPrefixMatch c)
  else if (0 <? c) || (lp =? 0) then TrieMapPrefixMatch c else none.

Fixpoint allKeys (t : ltree) : list str :=
  match t with
  | LNode _ k _ kids => k :: flat_map allKeys kids
  end.

(** No stored key segment holds the wildcard character. *)
Definition noWildcard (t : ltree) : Prop :=
  Forall (fun k => wildcard ∉ k) (allKeys t).

(** The value most recently set for the stored key [w]. *)
Fixpoint lastValue (cs : bool) (entries : list (TrieMapKey * T)) (w : str)
    : option T :=
  match entries with
  | [] => None
  | (k, v) :: rest =>
      match lastValue cs rest w with
      | Some v' => Some v'
      | None => if decide (storedKey cs k = w) then Some v else None
      end
  end.


Definition scanOutcome (cs : bool) (w : str) (kids : list (ltree)) : ChildScan :=
  scanWith cs w (fun c => ScanFull (lid c) (lkey c))
    (fun c j => ScanPrefix (lid c) (lkey c) j) ScanNothing kids.

Definition reachedResult (r : Reached) : TrieMapClosestMatchingNode :=
  mkClosest (lid (rnode r)) (rmatch r) (rfullKey r) (rsum r).

Definition pointerAfter (kp : TrieMapKeyPointer) (orig : Z) (r : Reached)
    : TrieMapKeyPointer :=
  restore kp (orig + Z.of_nat (radvance r)).

(** The subtree [s] hangs below [p] in the arena [h] of a trie with
    root [r]. *)
Record Hanging (h : list (TrieMapNode)) (r p : option nat) (s : ltree) : Prop :=
  { hang_rep : represents h p s;
    hang_nodup : NoDup (ids s);
    hang_parent :
      match p with
      | None => r = Some (lid s)
      | Some q => r ≠ Some (lid s) ∧ (q ∉ ids s) ∧ is_Some (h !! q)
      end;
    hang_below : ∀ j, j ∈ flat_map ids (lkids s) → r ≠ Some j }.

(** The trie [t'] is the trie [(r, h)] with the subtree [s] replaced by
    [s']. *)
Record Edited (cs : bool) (h : list (TrieMapNode)) (r p : option nat)
    (s : ltree) (t' : TrieMap) (s' : ltree) : Prop :=
  { ed_rep : represents (nodes t') p s';
    ed_frame : ∀ j, j ∉ ids s → p ≠ Some j → j < length h → nodes t' !! j = h !! j;
    ed_link :
      (lid s' = lid s ∧ root t' = r ∧ ∀ q, p = Some q → nodes t' !! q = h !! q)
      ∨ (lid s' = length h ∧
         match p with
         | None => root t' = Some (length h)
         | Some q =>
             root t' = r ∧ ∃ qn, h !! q = Some qn ∧
               nodes t' !! q
               = Some (setChildren (replaceFirst (lid s) (length h) (children qn)) qn)
         end);
    ed_ids : ∃ n, ids s' ≡ₚ ids s ++ seq (length h) n
                  ∧ length (nodes t') = length h + n;
    ed_cs : caseSensitive t' = cs }.

Definition unmatched (cs : bool) (w : str) (c : ltree) : Prop :=
  matchList cs (lkey c) w = none.

(** The work list of [iterate] as a list of subtrees with their full
    keys. *)
Definition entry (e : ltree * str) : nat * str := (lid e.1, e.2).

Definition held (h : list (TrieMapNode)) (e : ltree * str) : Prop :=
  ∃ p, represents h p e.1.

Definition forestSize (q : list (ltree * str)) : nat :=
  length (flat_map (fun e => ids e.1) q).

(** Depth first, the first child first: the order of [ids]. *)
Fixpoint firstChildFirst (t : ltree) (fk : str) : list (str * T) :=
  match t with
  | LNode _ _ v kids =>
      yieldOf fk v ++ flat_map (fun c => firstChildFirst c (fk ++ lkey c)) kids
  end.

End TrieMap.

Arguments TrieMapNode T : clear implicits.
Arguments TrieMap T : clear implicits.
Arguments ltree T : clear implicits.
Arguments Reached T : clear implicits.
Arguments Hanging {T} h r p s.
Arguments Edited {T} cs h r p s t' s'.

(** * Concrete values

    The tries of the examples hold JavaScript numbers, strings and
    booleans. *)

Inductive JsValue :=
| JsNumber (n : Z)
| JsString (s : str)
| JsBoolean (b : bool).

(** [ToBoolean]: [0], the empty string and [false] are falsy. *)
Definition js_truthy (v : JsValue) : bool :=
  match v with
  | JsNumber n => negb (n =? 0)%Z
  | JsString s => negb (length s =? 0)
  | JsBoolean b => b
  end.

Definition entriesOf (l : list (string * JsValue)) : list (TrieMapKey * JsValue) :=
  map (fun e => (KeyString (js e.1), e.2)) l.

(** [new TrieMap(l, { caseSensitive })] *)
Definition trieOf (l : list (string * JsValue)) (options : bool)
    : option (TrieMap JsValue) :=
  construct (entriesOf l) options.

(** The window [{ data, pos, posMax }]. *)
Definition window (s : string) (p pm : Z) : TrieMapKey :=
  KeyPointer (mkPointer (js s) p pm).

(** The four keys of the repository's tests, in the order of the tests. *)
Definition sharedPrefixes : list (string * JsValue) :=
  [("ABCDEF"%string, JsString (js "abcdef"));
   ("ABCGHIJKL"%string, JsString (js "abcghijkl"));
   ("ABCGHI"%string, JsString (js "abcghi"));
   ("ABC"%string, JsString (js "abc"))].

Definition sharedPrefixTrie : TrieMap JsValue :=
  default (empty true) (trieOf sharedPrefixes true).

(** * toJSON and the default iterator *)

(** The stored characters [p] match the characters [w] of a window one
    by one, as [charsEqual] compares them. *)
Definition matchesText (cs : bool) (p w : str) : Prop :=
  Forall2 (fun a b => charEq cs a b = true) p w.

Section Serialisation.

Context {T : Type}.

Variable truthy : T -> bool.

(** The object [{ key, value, children }] built by [nodeToJson]. *)
#[warnings="-register-all"]
Inductive TrieMapJson :=
| JsonNode (jsonKey : str) (jsonValue : option T) (jsonChildren : list TrieMapJson).

(** [nodeToJson]: the recursion follows the [children] arrays, and
    [fuel] bounds its depth. *)
Fixpoint nodeToJson (fuel : nat) (t : TrieMap T) (n : nat) : option TrieMapJson :=
  match fuel with
  | 0 => None
  | S fuel' =>
      nd ← nodes t !! n;
      cs ← mapM (nodeToJson fuel' t) (children nd);
      Some (JsonNode (key nd) (value nd) cs)
  end.

(** [this.root && this.nodeToJson(this.root)] *)
Definition toJSON (t : TrieMap T) : option (option TrieMapJson) :=
  match root t with
  | None => Some None
  | Some r => j ← nodeToJson (S (length (nodes t))) t r; Some (Some j)
  end.

(** [[Symbol.iterator]()]: [this.iterate()], breadth first from the
    root. *)
Definition symbolIterator (t : TrieMap T) : option (list (str * T)) :=
  iterate truthy t None bfs.

(** ** Notions used in the proofs *)

(** A tree without its arena indices. *)
Fixpoint treeJson (l : ltree T) : TrieMapJson :=
  match l with
  | LNode _ k v kids => JsonNode k v (map treeJson kids)
  end.

(** The keys and values an object returned by [toJSON] holds: for every
    node with a value, the concatenation of the keys from the root down
    to it, after [pre], and the value. *)
Fixpoint jsonEntries (j : TrieMapJson) (pre : str) : list (str * T) :=
  match j with
  | JsonNode k v kids =>
      match v with Some x => [(pre ++ k, x)] | None => [] end
      ++ flat_map (fun c => jsonEntries c (pre ++ k)) kids
  end.

(** The subtrees of a tree whose root has the full key [fk], each with
    its full key. *)
Fixpoint subtrees (t : ltree T) (fk : str) : list (ltree T * str) :=
  match t with
  | LNode _ _ _ kids =>
      (t, fk) :: flat_map (fun c => subtrees c (fk ++ lkey c)) kids
  end.

(** The characters of the window matched by the traversal: the full key
    of the node reached less the part of its own key that was not
    matched. *)
Definition matchedLength (r : Reached T) : nat :=
  length (rfullKey r) - length (lkey (rnode r))
  + match rmatch r with
    | full => length (lkey (rnode r))
    | TrieMapPrefixMatch i => i
    | none => 0
    end.

(** The keys of the children of every node start with different
    characters. *)
#[warnings="-register-all"]
Inductive distinctHeads : ltree T → Prop :=
| distinctHeads_node i k v kids :
    NoDup (map (fun c => head (lkey c)) kids) →
    Forall distinctHeads kids →
    distinctHeads (LNode i k v kids).

(** Every key segment of a tree satisfies [P]. *)
Definition keysAre (P : str → Prop) (t : ltree T) : Prop :=
  Forall P (allKeys t).

(** The pairs of full key and value of the nodes of a tree that hold a
    value. *)
Fixpoint valued (t : ltree T) (fk : str) : list (str * T) :=
  match t with
  | LNode _ _ v kids =>
      match v with Some x => [(fk, x)] | None => [] end
      ++ flat_map (fun c => valued c (fk ++ lkey c)) kids
  end.

End Serialisation.

Arguments TrieMapJson T : clear implicits.

(** ** Two keys, one a prefix of the other *)

(** AB and ABC, and the case-sensitive tries built from them in the two
    orders: the same tree in different cells of the arena. *)
Definition nestedPrefixes : list (string * JsValue) :=
  [("AB"%string, JsNumber 1); ("ABC"%string, JsNumber 2)].

Definition nestedTrie : TrieMap JsValue :=
  default (empty true) (trieOf nestedPrefixes true).

Definition nestedTrieReversed : TrieMap JsValue :=
  default (empty true) (trieOf (reverse nestedPrefixes) true).

(** * Proofs *)

Section Traversal.

Context {T : Type}.
Variable truthy : T → bool.

(** ** Characters *)

Lemma toLowerCaseChar_idemp c : toLowerCaseChar (toLowerCaseChar c) = toLowerCaseChar c.
Proof. destruct c as [[] [] [] [] [] [] [] []]; vm_compute; reflexivity. Qed.

Lemma toLowerCase_idemp s : toLowerCase (toLowerCase s) = toLowerCase s.
Proof.
  unfold toLowerCase. rewrite <- list_fmap_compose.
  apply list_fmap_ext. intros ? c _. apply toLowerCaseChar_idemp.
Qed.

Lemma toLowerCase_length s : length (toLowerCase s) = length s.
Proof. apply length_map. Qed.

Lemma charsEqual_Some cs a b : charsEqual cs a (Some b) = Some (charEq cs a b).
Proof. unfold charsEqual, charEq. destruct (Ascii.eqb a wildcard); reflexivity. Qed.

(** ** Windows *)

Lemma content_length kp : wellFormed kp → length (content kp) = Z.to_nat (posMax kp - pos kp).
Proof.
  intros (H0 & H1 & H2). unfold content.
  rewrite length_take, length_drop. lia.
Qed.

Lemma content_lookup kp i :
  wellFormed kp → i < length (content kp) →
  charAt (data kp) (pos kp + Z.of_nat i) = content kp !! i.
Proof.
  intros Hwf Hi. pose proof (content_length kp Hwf) as Hl.
  destruct Hwf as (H0 & H1 & H2).
  unfold charAt, content.
  destruct (Z.ltb_spec (pos kp + Z.of_nat i) 0); [lia|].
  rewrite lookup_take_lt by lia. rewrite lookup_drop.
  f_equal. lia.
Qed.

Lemma content_advance kp n :
  wellFormed kp → n ≤ length (content kp) →
  wellFormed (advance kp n) ∧ content (advance kp n) = drop n (content kp).
Proof.
  intros Hwf Hn. pose proof (content_length kp Hwf) as Hl.
  destruct Hwf as (H0 & H1 & H2). split.
  - unfold wellFormed, advance; simpl. lia.
  - unfold content, advance; simpl.
    rewrite skipn_firstn_comm. rewrite drop_drop.
    f_equal; [lia|]. f_equal. lia.
Qed.

Lemma content_keyString (s : str) : content (keyAsPointer (KeyString s)) = s.
Proof.
  unfold content; simpl. rewrite drop_0.
  rewrite Z.sub_0_r, Nat2Z.id. apply firstn_all.
Qed.

Lemma wellFormed_keyString (s : str) : wellFormed (keyAsPointer (KeyString s)).
Proof. unfold wellFormed; simpl. lia. Qed.

(** ** matchPrefix on the content of the window *)

Lemma common_le cs p w : common cs p w ≤ length p ∧ common cs p w ≤ length w.
Proof.
  revert w; induction p as [|a p IH]; intros [|b w]; simpl; try lia.
  destruct (charEq cs a b); simpl; [|lia]. specialize (IH w). lia.
Qed.

Lemma matchPrefixFrom_spec cs p kp n index :
  wellFormed kp →
  index + n = length (content kp) →
  common cs p (content kp) = index + common cs (drop index p) (drop index (content kp)) →
  matchPrefixFrom cs p kp n index = Some (matchList cs p (content kp)).
Proof.
  intros Hwf. revert index. induction n as [|n IH]; intros index Hn Hc; simpl.
  - rewrite (drop_ge (content kp)) in Hc by lia.
    assert (common cs (drop index p) [] = 0) as E by (destruct (drop index p); reflexivity).
    rewrite E in Hc. unfold matchList. rewrite Hc.
    replace (index + 0) with index by lia.
    pose proof (content_length kp Hwf) as Hl. destruct Hwf as (H0 & H1 & H2).
    replace (index =? length (content kp)) with true by (symmetry; apply Nat.eqb_eq; lia).
    replace (pos kp + Z.of_nat index =? posMax kp)%Z with true
      by (symmetry; apply Z.eqb_eq; lia).
    reflexivity.
  - destruct (lookup_lt_is_Some_2 (content kp) index) as [b Hb]; [lia|].
    rewrite (drop_S _ _ _ Hb) in Hc.
    destruct (p !! index) as [a|] eqn:Ha.
    + rewrite (drop_S _ _ _ Ha) in Hc. simpl in Hc.
      rewrite content_lookup by (auto; lia). rewrite Hb, charsEqual_Some. simpl.
      destruct (charEq cs a b).
      * apply IH; lia.
      * unfold matchList. rewrite Hc.
        replace (index + 0 =? length (content kp)) with false
          by (symmetry; apply Nat.eqb_neq; lia).
        f_equal. f_equal. lia.
    + apply lookup_ge_None in Ha. rewrite drop_ge in Hc by lia. simpl in Hc.
      unfold matchList. rewrite Hc.
      replace (index + 0 =? length (content kp)) with false
        by (symmetry; apply Nat.eqb_neq; lia).
      f_equal. f_equal. lia.
Qed.

Lemma matchPrefix_spec cs p kp :
  wellFormed kp → matchPrefix cs p kp = Some (matchList cs p (content kp)).
Proof.
  intros Hwf. unfold matchPrefix. apply matchPrefixFrom_spec; auto.
  rewrite content_length; auto.
Qed.

Lemma matchList_prefix_le cs p w j :
  matchList cs p w = TrieMapPrefixMatch j → j ≤ length w ∧ j ≤ length p.
Proof.
  unfold matchList, matchStop. pose proof (common_le cs p w).
  repeat case_match; intros; simplify_eq; lia.
Qed.

(** ** Trees and arenas *)

Lemma ltree_ind' (P : ltree T → Prop) :
  (∀ i k v kids, Forall P kids → P (LNode i k v kids)) → ∀ t, P t.
Proof.
  intros H. fix IH 1. intros [i k v kids]. apply H.
  revert kids. fix IHk 1. intros [|c kids]; constructor.
  - apply IH.
  - apply IHk.
Qed.

Lemma elem_of_flat_map {A B} (f : A → list B) (l : list A) (y : B) :
  y ∈ flat_map f l ↔ ∃ x, x ∈ l ∧ y ∈ f x.
Proof.
  rewrite list_elem_of_In, in_flat_map.
  split; intros (x & Hx & Hy); exists x; split;
    first [by apply list_elem_of_In | by apply list_elem_of_In in Hx
          | by apply list_elem_of_In in Hy].
Qed.

Lemma represents_node h p i k (v : option T) kids :
  represents h p (LNode i k v kids) ↔
  h !! i = Some (mkNode k v p (map lid kids)) ∧ Forall (represents h (Some i)) kids.
Proof.
  unfold represents; simpl. split.
  - intros H; split.
    + apply H. left.
    + apply Forall_forall. intros c Hc j nd Hj. apply H. right.
      apply elem_of_flat_map. eauto.
  - intros [H1 H2] j nd Hj. apply elem_of_cons in Hj as [Hj | Hj].
    + congruence.
    + apply elem_of_flat_map in Hj as (c & Hc & Hj).
      rewrite Forall_forall in H2. eapply H2; eauto.
Qed.

Lemma represents_root h p (t : ltree T) :
  represents h p t →
  h !! lid t = Some (mkNode (lkey t) (lval t) p (map lid (lkids t))).
Proof. destruct t. rewrite represents_node. simpl. tauto. Qed.

Lemma represents_kids h p (t : ltree T) :
  represents h p t → Forall (represents h (Some (lid t))) (lkids t).
Proof. destruct t. rewrite represents_node. simpl. tauto. Qed.

Lemma ids_cells p (t : ltree T) : ids t = (cells p t).*1.
Proof.
  revert p. induction t as [i k v kids IH] using ltree_ind'; intros p; simpl.
  f_equal. induction IH as [|c kids Hc _ IHk]; simpl; [done|].
  rewrite fmap_app. f_equal; auto.
Qed.

Lemma ids_length_pos (t : ltree T) : 0 < length (ids t).
Proof. destruct t; simpl; lia. Qed.

Lemma ids_kid_length (c : ltree T) kids :
  c ∈ kids → length (ids c) ≤ length (flat_map ids kids).
Proof.
  induction 1 as [c kids | c d kids _ IH]; simpl; rewrite length_app; lia.
Qed.

(** ** The traversal on the arena is the traversal on the tree *)

Lemma scanChildren_spec r cs h i (kids : list (ltree T)) kp :
  Forall (represents h (Some i)) kids → wellFormed kp →
  scanChildren (mkTrie r cs h) (map lid kids) kp
  = Some (scanOutcome cs (content kp) kids).
Proof.
  intros Hk Hwf. induction Hk as [|c kids Hc _ IH]; simpl; [done|].
  rewrite (represents_root _ _ _ Hc). simpl.
  rewrite matchPrefix_spec by done. simpl.
  unfold scanOutcome; simpl.
  destruct (matchList cs (lkey c) (content kp)); auto.
Qed.

Lemma closestLoop_spec r cs h (s : ltree T) :
  ∀ p fuel orig i sum fk adv kp,
    represents h p s → length (ids s) ≤ fuel → wellFormed kp →
    pos kp = (orig + Z.of_nat adv)%Z →
    closestLoop fuel (mkTrie r cs h) orig (lid s) i sum fk kp
    = Some (Some (reachedResult (closestFrom cs s i sum fk adv (content kp))),
            pointerAfter kp orig (closestFrom cs s i sum fk adv (content kp))).
Proof.
  induction s as [id k v kids IH] using ltree_ind'.
  intros p fuel orig i sum fk adv kp Hrep Hfuel Hwf Hpos.
  destruct fuel as [|fuel]; [simpl in Hfuel; lia|].
  apply represents_node in Hrep as [Hid Hkids].
  simpl closestLoop. simpl nodes. rewrite Hid. simpl.
  destruct (i =? length k); [|unfold pointerAfter; simpl; do 3 f_equal; lia].
  rewrite (scanChildren_spec _ _ _ id) by done. simpl.
  clear Hid. simpl in Hfuel.
  assert (length (flat_map ids kids) ≤ fuel) as Hf by lia. clear Hfuel.
  set (N := mkReached (LNode id k v kids) (TrieMapPrefixMatch i) fk sum 0).
  assert (Some (Some (mkClosest id (TrieMapPrefixMatch i) fk sum), restore kp orig)
          = Some (Some (reachedResult N), pointerAfter kp orig N)) as ->.
  { unfold pointerAfter, reachedResult; simpl. do 3 f_equal. lia. }
  clearbody N.
  induction kids as [|c kids IHk]; simpl; [done|].
  apply Forall_cons in IH as [IHc IH]. apply Forall_cons in Hkids as [Hc Hkids].
  simpl in Hf. rewrite length_app in Hf.
  unfold scanOutcome; simpl.
  destruct (matchList cs (lkey c) (content kp)) as [| |j] eqn:Hm.
  - unfold pointerAfter, reachedResult; simpl. do 2 f_equal.
    destruct kp; unfold restore; simpl in *. f_equal. lia.
  - apply IHk; auto. lia.
  - apply matchList_prefix_le in Hm as [Hj _].
    destruct (content_advance kp j Hwf Hj) as [Hwf' Hc'].
    rewrite (IHc (Some id) fuel orig j (sum + j) (fk ++ lkey c) (adv + j) (advance kp j));
      auto.
    + rewrite Hc'. reflexivity.
    + lia.
    + simpl. lia.
Qed.

Lemma findClosestMatchingNode_spec cs h (t : ltree T) kp :
  represents h None t → length (ids t) ≤ length h → wellFormed kp →
  findClosestMatchingNode (mkTrie (Some (lid t)) cs h) kp
  = Some (match closest cs t (content kp) with
          | Some r => (Some (reachedResult r), pointerAfter kp (pos kp) r)
          | None => (None, kp)
          end).
Proof.
  intros Hrep Hlen Hwf. unfold findClosestMatchingNode. cbn -[closestLoop].
  rewrite (represents_root _ _ _ Hrep). cbn -[closestLoop].
  rewrite matchPrefix_spec by done. cbn -[closestLoop]. unfold closest.
  destruct (matchList cs (lkey t) (content kp)) as [| |i] eqn:Hm; auto.
  - unfold pointerAfter, reachedResult; simpl. do 2 f_equal.
    destruct kp; unfold restore; simpl. f_equal. lia.
  - apply matchList_prefix_le in Hm as [Hi _].
    destruct (content_advance kp i Hwf Hi) as [Hwf' Hc'].
    rewrite (closestLoop_spec _ _ _ t None _ (pos kp) i i (lkey t) i (advance kp i));
      auto.
    rewrite Hc'. reflexivity.
Qed.

End Traversal.

Section Arena.

Context {T : Type}.

(** ** Arena updates *)

Lemma lookup_snoc {A} (h : list A) x : (h ++ [x]) !! length h = Some x.
Proof. rewrite lookup_app_r by lia. by rewrite Nat.sub_diag. Qed.

Lemma lookup_snoc_lt {A} (h : list A) x j : j < length h → (h ++ [x]) !! j = h !! j.
Proof. intros. by rewrite lookup_app_l. Qed.

Lemma represents_lt h p (s : ltree T) j : represents h p s → j ∈ ids s → j < length h.
Proof.
  intros Hrep Hj. rewrite (ids_cells p) in Hj.
  apply list_elem_of_fmap in Hj as ([j' nd] & -> & Hin).
  apply Hrep in Hin. by apply lookup_lt_Some in Hin.
Qed.

Lemma represents_frame h h' p (s : ltree T) :
  represents h p s → (∀ j, j ∈ ids s → h' !! j = h !! j) → represents h' p s.
Proof.
  intros Hrep Hf j nd Hj. rewrite Hf; [by apply Hrep|].
  rewrite (ids_cells p). apply list_elem_of_fmap. by exists (j, nd).
Qed.

Lemma lid_in_ids (s : ltree T) : lid s ∈ ids s.
Proof. destruct s; simpl. left. Qed.

Lemma kid_ids_in (c : ltree T) kids j : c ∈ kids → j ∈ ids c → j ∈ flat_map ids kids.
Proof. intros. apply elem_of_flat_map. eauto. Qed.

(** Moving a subtree below another parent touches its root cell only. *)
Lemma represents_reparent h h' p p' (s : ltree T) :
  represents h p s → NoDup (ids s) →
  h' !! lid s = setParent p' <$> h !! lid s →
  (∀ j, j ∈ flat_map ids (lkids s) → h' !! j = h !! j) →
  represents h' p' s.
Proof.
  destruct s as [i k v kids]; simpl. intros Hrep Hnd Hroot Hrest.
  apply represents_node in Hrep as [Hi Hk]. apply represents_node. split.
  - rewrite Hroot, Hi. reflexivity.
  - apply Forall_forall. intros c Hc. rewrite Forall_forall in Hk.
    apply (represents_frame h); [by apply Hk|].
    intros j Hj. apply Hrest. by eapply kid_ids_in.
Qed.

Lemma reparent_lookup cs p (h : list (TrieMapNode T)) j :
  reparent cs p h !! j
  = if decide (j ∈ cs) then setParent (Some p) <$> h !! j else h !! j.
Proof.
  unfold reparent. revert h. induction cs as [|c cs IH]; intros h; simpl.
  - reflexivity.
  - rewrite IH, list_lookup_alter.
    destruct (decide (j ∈ cs)) as [Hin|Hin], (decide (c = j)) as [->|Hne];
      destruct (decide (j ∈ _ :: cs)) as [Hin'|Hin']; try done.
    all: try (exfalso; apply Hin'; first [by right | left]).
    + destruct (h !! j) as [[]|]; done.
    + apply elem_of_cons in Hin' as [->|]; done.
Qed.

Lemma reparent_length cs p (h : list (TrieMapNode T)) :
  length (reparent cs p h) = length h.
Proof.
  unfold reparent. revert h. induction cs as [|c cs IH]; intros h; simpl; [done|].
  rewrite IH. apply length_alter.
Qed.

Lemma replaceFirst_middle old new pre post :
  old ∉ pre → replaceFirst old new (pre ++ old :: post) = pre ++ new :: post.
Proof.
  induction pre as [|c pre IH]; simpl; intros Hn.
  - by rewrite Nat.eqb_refl.
  - apply not_elem_of_cons in Hn as [Hc Hn].
    destruct (Nat.eqb_spec c old); [congruence|]. by rewrite IH.
Qed.

End Arena.

Section Edits.

Context {T : Type}.

(** ** One edit of [set] seen on a subtree *)

Lemma hanging_kid h r p (s c : ltree T) :
  Hanging h r p s → c ∈ lkids s → Hanging h r (Some (lid s)) c.
Proof.
  intros [Hrep Hnd Hp Hb] Hc. destruct s as [i k v kids]; simpl in *.
  apply represents_node in Hrep as [Hi Hk].
  apply NoDup_cons in Hnd as [Hi' Hnd].
  split.
  - rewrite Forall_forall in Hk. by apply Hk.
  - clear -Hnd Hc. induction Hc as [c kids|c d kids _ IH]; simpl in Hnd;
      apply NoDup_app in Hnd as (? & ? & ?); auto.
  - split; [|split].
    + apply Hb. eapply kid_ids_in; [done|]. apply lid_in_ids.
    + intros Hin. apply Hi'. by eapply kid_ids_in.
    + by rewrite Hi.
  - intros j Hj. apply Hb. eapply kid_ids_in; [done|].
    destruct c as [ci ck cv ckids]; simpl in *. by right.
Qed.

Lemma hanging_lt h r p (s : ltree T) j : Hanging h r p s → j ∈ ids s → j < length h.
Proof. intros [Hrep _ _ _] ?. by eapply represents_lt. Qed.

Lemma hanging_root_iff h r p (s : ltree T) :
  Hanging h r p s → (Some (lid s) = r ↔ p = None).
Proof.
  intros [_ _ Hp _]. destruct p; split; intros; try done.
  destruct Hp as [Hp _]. congruence.
Qed.

(** *** "update existing node value" *)

Lemma updateValue_edited cs h r p (s : ltree T) v :
  Hanging h r p s →
  Edited cs h r p s (updateValue (mkTrie r cs h) (lid s) v) (withValue v s).
Proof.
  intros Hh. pose proof Hh as [Hrep Hnd Hp Hb].
  destruct s as [i k val kids]; simpl in *.
  apply represents_node in Hrep as [Hi Hk]. apply NoDup_cons in Hnd as [Hi' Hnd].
  split; simpl.
  - unfold withValue; simpl. apply represents_node. split.
    + rewrite list_lookup_alter, decide_True by done. by rewrite Hi.
    + apply Forall_forall. intros c Hc. rewrite Forall_forall in Hk.
      apply (represents_frame h); [by apply Hk|].
      intros j Hj. rewrite list_lookup_alter_ne; [done|].
      intros ->. apply Hi'. by eapply kid_ids_in.
  - intros j Hj _ _. rewrite list_lookup_alter_ne; [done|].
    intros ->. apply Hj. left.
  - left. repeat split; auto. intros q ->. destruct Hp as (_ & Hq & _).
    rewrite list_lookup_alter_ne; [done|]. intros ->. apply Hq. left.
  - exists 0. simpl. rewrite app_nil_r, length_alter. split; [done|lia].
  - done.
Qed.

Lemma lid_in_flat (kids : list (ltree T)) j :
  j ∈ map lid kids → j ∈ flat_map ids kids.
Proof.
  intros Hj. apply list_elem_of_fmap in Hj as (c & -> & Hc).
  eapply kid_ids_in; [done|]. apply lid_in_ids.
Qed.

Lemma nodup_kid_lid (kids : list (ltree T)) c j :
  NoDup (flat_map ids kids) → c ∈ kids → j ∈ ids c → j ∈ map lid kids → j = lid c.
Proof.
  induction kids as [|d kids IH]; simpl; intros Hnd Hc Hj Hl.
  - by apply elem_of_nil in Hc.
  - apply NoDup_app in Hnd as (Hd & Hdis & Hrest).
    apply elem_of_cons in Hc as [->|Hc], Hl as [->|Hl]; auto.
    + exfalso. eapply Hdis; [done|]. by apply lid_in_flat.
    + exfalso. eapply Hdis; [apply lid_in_ids|]. by eapply kid_ids_in.
Qed.

Lemma kids_frame h h' i (kids : list (ltree T)) :
  Forall (represents h (Some i)) kids →
  (∀ j, j ∈ flat_map ids kids → h' !! j = h !! j) →
  Forall (represents h' (Some i)) kids.
Proof.
  intros Hk Hf. apply Forall_forall. intros c Hc. rewrite Forall_forall in Hk.
  apply (represents_frame h); [by apply Hk|].
  intros j Hj. apply Hf. by eapply kid_ids_in.
Qed.

Ltac lengths :=
  repeat first [rewrite length_alter | rewrite reparent_length | rewrite length_app];
  simpl; try lia.

(** *** "add the new node to children" *)

Lemma addChild_edited cs h r p i k val (kids : list (ltree T)) sum keyString v :
  let s := LNode i k val kids in
  Hanging h r p s →
  Edited cs h r p s
    (addChild (mkTrie r cs h) i (mkNode k val p (map lid kids)) sum keyString v)
    (LNode i k val (kids ++ [LNode (length h) (drop sum keyString) (Some v) []])).
Proof.
  intros s Hh. pose proof Hh as [Hrep Hnd Hp Hb].
  pose proof (hanging_lt _ _ _ _ i Hh (lid_in_ids s)) as Hlt.
  apply represents_node in Hrep as [Hi Hk]. simpl in Hnd.
  apply NoDup_cons in Hnd as [Hi' Hnd].
  assert (∀ j, j ≠ i → j < length h →
            nodes (addChild (mkTrie r cs h) i (mkNode k val p (map lid kids))
                     sum keyString v) !! j = h !! j) as Hframe.
  { intros j Hj Hjl. simpl. rewrite list_lookup_alter_ne by done.
    by rewrite lookup_snoc_lt. }
  split.
  - apply represents_node. split.
    + simpl. rewrite list_lookup_alter, decide_True by done.
      rewrite lookup_snoc_lt, Hi by done. simpl.
      unfold setChildren; simpl. by rewrite map_app.
    + apply Forall_app. split.
      * apply (kids_frame h); [done|]. intros j Hj. apply Hframe.
        -- intros ->. done.
        -- eapply (hanging_lt _ _ _ s); [done|]. simpl. by right.
      * apply Forall_singleton. apply represents_node. split; [|constructor].
        simpl. rewrite list_lookup_alter_ne by lia. apply lookup_snoc.
  - intros j Hj _ Hjl. apply Hframe; [|done]. intros ->. apply Hj. left.
  - left. repeat split; auto. intros q ->. destruct Hp as (_ & Hq & Hs).
    apply Hframe.
    + intros ->. apply Hq. left.
    + by apply lookup_lt_is_Some.
  - exists 1. simpl. split.
    + rewrite flat_map_app. simpl. done.
    + lengths.
  - done.
Qed.

(** *** "split a parent node with a smaller key" *)

Lemma kids_reparented h h' i f (kids : list (ltree T)) :
  Forall (represents h (Some i)) kids → NoDup (flat_map ids kids) →
  (∀ j, j ∈ map lid kids → h' !! j = setParent (Some f) <$> h !! j) →
  (∀ j, j ∈ flat_map ids kids → j ∉ map lid kids → h' !! j = h !! j) →
  Forall (represents h' (Some f)) kids.
Proof.
  intros Hk Hnd Hroot Hrest. apply Forall_forall. intros c Hc.
  rewrite Forall_forall in Hk. apply (represents_reparent h _ (Some i)).
  - by apply Hk.
  - clear -Hnd Hc. induction Hc as [c kids|c d kids _ IH]; simpl in Hnd;
      apply NoDup_app in Hnd as (? & ? & ?); auto.
  - apply Hroot. apply list_elem_of_fmap. eauto.
  - intros j Hj. assert (j ∈ ids c) as Hjc by (destruct c; simpl in *; by right).
    apply Hrest; [by eapply kid_ids_in|].
    intros Hl. pose proof (nodup_kid_lid _ _ _ Hnd Hc Hjc Hl) as ->.
    assert (NoDup (ids c)) as Hndc.
    { clear -Hnd Hc. induction Hc as [c kids|c d kids _ IH]; simpl in Hnd;
        apply NoDup_app in Hnd as (? & ? & ?); auto. }
    destruct c; simpl in *. apply NoDup_cons in Hndc as [Hn _]. done.
Qed.

Lemma splitNode_edited cs h r p i k val (kids : list (ltree T)) index sum keyString v :
  let s := LNode i k val kids in
  Hanging h r p s →
  Edited cs h r p s
    (splitNode (mkTrie r cs h) i (mkNode k val p (map lid kids)) index sum keyString v)
    (if sum =? length keyString then
       LNode i (take index k) (Some v) [LNode (length h) (drop index k) val kids]
     else
       LNode i (take index k) None
         [LNode (length h) (drop index k) val kids;
          LNode (S (length h)) (drop sum keyString) (Some v) []]).
Proof.
  intros s Hh. pose proof Hh as [Hrep Hnd Hp Hb].
  pose proof (hanging_lt _ _ _ _ i Hh (lid_in_ids s)) as Hlt.
  apply represents_node in Hrep as [Hi Hk]. simpl in Hnd.
  apply NoDup_cons in Hnd as [Hi' Hnd].
  assert (∀ j, j ∈ flat_map ids kids → j < length h) as Hklt.
  { intros j Hj. eapply (hanging_lt _ _ _ s); [done|]. simpl. by right. }
  assert (i ∉ map lid kids) as Hil by (intros Hx; by apply Hi', lid_in_flat).
  assert (length h ∉ map lid kids) as Hfl.
  { intros Hx. apply lid_in_flat, Hklt in Hx. lia. }
  set (val' := if sum =? length keyString then Some v else None).
  set (nn := mkNode (drop index k) val (Some i) (map lid kids)).
  set (h5 := reparent (map lid kids) (length h)
               (alter (setChildren [length h]) i
                  (alter (setValue val') i
                     (alter (setKey (take index k)) i (h ++ [nn]))))).
  assert (length h5 = S (length h)) as Hl5 by (unfold h5; lengths).
  assert (h5 !! i = Some (mkNode (take index k) val' p [length h])) as F1.
  { unfold h5. rewrite reparent_lookup, decide_False by done.
    rewrite !list_lookup_alter, !decide_True by done.
    rewrite lookup_snoc_lt, Hi by done. done. }
  assert (h5 !! length h = Some nn) as F2.
  { unfold h5. rewrite reparent_lookup, decide_False by done.
    rewrite !list_lookup_alter_ne by lia. apply lookup_snoc. }
  assert (∀ j, j ≠ i → j < length h → j ∉ map lid kids → h5 !! j = h !! j) as F3.
  { intros j Hj Hjl Hjk. unfold h5. rewrite reparent_lookup, decide_False by done.
    rewrite !list_lookup_alter_ne by done. by apply lookup_snoc_lt. }
  assert (∀ j, j ∈ map lid kids → h5 !! j = setParent (Some (length h)) <$> h !! j) as F4.
  { intros j Hj. unfold h5. rewrite reparent_lookup, decide_True by done.
    assert (j ≠ i) by (intros ->; done).
    rewrite !list_lookup_alter_ne by done. rewrite lookup_snoc_lt; [done|].
    by apply Hklt, lid_in_flat. }
  assert (Forall (represents h5 (Some (length h))) kids) as F5.
  { apply (kids_reparented h _ i); auto.
    intros j Hj Hjl. apply F3; auto. intros ->. done. }
  unfold splitNode. cbn [nodes root caseSensitive key value children].
  fold nn. fold val'. fold h5. rewrite Hl5.
  destruct (sum =? length keyString) eqn:E.
  - split; cbn [nodes root caseSensitive].
    + apply represents_node. split; [done|]. apply Forall_singleton.
      apply represents_node. split; done.
    + intros j Hj _ Hjl. apply F3; auto.
      * intros ->. apply Hj. left.
      * intros Hx. apply Hj. right. by apply lid_in_flat.
    + left. repeat split; auto. intros q ->. destruct Hp as (_ & Hq & Hs).
      apply F3.
      * intros ->. apply Hq. left.
      * by apply lookup_lt_is_Some.
      * intros Hx. apply Hq. right. by apply lid_in_flat.
    + exists 1. split; [|lia]. simpl. rewrite app_nil_r.
      apply Permutation_skip. symmetry.
      change (length h :: flat_map ids kids) with ([length h] ++ flat_map ids kids).
      apply Permutation_app_comm.
    + done.
  - set (leaf := mkNode (drop sum keyString) (Some v) (Some i) []).
    assert (∀ j, j ≠ i → j < S (length h) →
              alter (setChildren [length h; S (length h)]) i (h5 ++ [leaf]) !! j
              = h5 !! j) as G.
    { intros j Hj Hjl. rewrite list_lookup_alter_ne by done.
      apply lookup_snoc_lt. lia. }
    split; cbn [nodes root caseSensitive].
    + apply represents_node. split; [|repeat constructor].
      * rewrite list_lookup_alter, decide_True by done.
        rewrite lookup_snoc_lt, F1 by lia. done.
      * apply represents_node. split.
        -- rewrite G by lia. done.
        -- apply (kids_frame h5); [done|]. intros j Hj. apply G.
           ++ intros ->. done.
           ++ apply Hklt in Hj. lia.
      * apply represents_node. split; [|constructor].
        rewrite list_lookup_alter_ne by lia. rewrite <- Hl5. apply lookup_snoc.
    + intros j Hj _ Hjl.
      assert (j ≠ i) by (intros ->; apply Hj; left).
      rewrite G by (auto; lia). apply F3; auto.
      intros Hx. apply Hj. right. by apply lid_in_flat.
    + left. repeat split; auto. intros q ->. destruct Hp as (_ & Hq & Hs).
      assert (q ≠ i) by (intros ->; apply Hq; left).
      apply lookup_lt_is_Some in Hs.
      rewrite G by (auto; lia). apply F3; auto.
      intros Hx. apply Hq. right. by apply lid_in_flat.
    + exists 2. split; [|lengths]. simpl.
      apply Permutation_skip.
      apply Permutation_middle.
    + done.
Qed.

(** *** "insert a parent node" *)

Lemma insertParent_edited cs h r p i k val (kids : list (ltree T)) index v :
  let s := LNode i k val kids in
  Hanging h r p s →
  ∃ t', insertParent (mkTrie r cs h) i (mkNode k val p (map lid kids)) index v = Some t'
        ∧ Edited cs h r p s t'
            (LNode (length h) (take index k) (Some v) [LNode i (drop index k) val kids]).
Proof.
  intros s Hh. pose proof Hh as [Hrep Hnd Hp Hb].
  pose proof (hanging_lt _ _ _ _ i Hh (lid_in_ids s)) as Hlt.
  pose proof (hanging_root_iff _ _ _ _ Hh) as Hroot.
  apply represents_node in Hrep as [Hi Hk]. simpl in Hnd.
  apply NoDup_cons in Hnd as [Hi' Hnd].
  assert (∀ j, j ∈ flat_map ids kids → j < length h) as Hklt.
  { intros j Hj. eapply (hanging_lt _ _ _ s); [done|]. simpl. by right. }
  set (nn := mkNode (take index k) (Some v) p [i]).
  set (h2 := alter (setKey (drop index k)) i (h ++ [nn])).
  assert (∀ j, j ≠ i → j < length h → h2 !! j = h !! j) as F1.
  { intros j Hj Hjl. unfold h2. rewrite list_lookup_alter_ne by done.
    by apply lookup_snoc_lt. }
  assert (h2 !! i = Some (mkNode (drop index k) val p (map lid kids))) as F2.
  { unfold h2. rewrite list_lookup_alter, decide_True by done.
    rewrite lookup_snoc_lt, Hi by done. done. }
  assert (h2 !! length h = Some nn) as F3.
  { unfold h2. rewrite list_lookup_alter_ne by lia. apply lookup_snoc. }
  assert (ids (LNode (length h) (take index k) (Some v) [LNode i (drop index k) val kids])
          ≡ₚ ids s ++ seq (length h) 1) as Hids.
  { simpl. rewrite app_nil_r.
    change (length h :: i :: flat_map ids kids)
      with ([length h] ++ (i :: flat_map ids kids)).
    apply Permutation_app_comm. }
  unfold insertParent. cbn [nodes root caseSensitive key value children parent].
  fold nn. fold h2. simpl in Hroot.
  destruct p as [q|].
  - destruct Hp as (Hr & Hq & [qn Hqn]).
    assert (q ≠ i) as Hqi by (intros ->; apply Hq; left).
    assert (q < length h) as Hql by (by eapply lookup_lt_Some).
    rewrite decide_False by (intros Hx; apply Hroot in Hx; done).
    cbn [mbind option_bind]. rewrite (F1 q), Hqn by done. cbn [mbind option_bind].
    eexists; split; [reflexivity|].
    split; cbn [nodes root caseSensitive].
    + apply represents_node. split.
      * rewrite !list_lookup_alter_ne by lia. done.
      * apply Forall_singleton. apply represents_node. split.
        -- rewrite list_lookup_alter, decide_True by done.
           rewrite list_lookup_alter_ne, F2 by done. done.
        -- apply (kids_frame h); [done|]. intros j Hj.
           assert (j ≠ i) by (intros ->; done).
           assert (j ≠ q) by (intros ->; apply Hq; by right).
           rewrite !list_lookup_alter_ne by done. apply F1; auto.
    + intros j Hj Hjq Hjl.
      assert (j ≠ i) by (intros ->; apply Hj; left).
      assert (j ≠ q) by congruence.
      rewrite !list_lookup_alter_ne by done. apply F1; auto.
    + right. split; [done|]. split; [done|]. exists qn. split; [done|].
      rewrite list_lookup_alter_ne by done.
      rewrite list_lookup_alter, decide_True by done.
      rewrite F1, Hqn by done. done.
    + exists 1. split; [done|]. unfold h2. lengths.
    + done.
  - rewrite decide_True by (by apply Hroot).
    eexists; split; [reflexivity|].
    split; cbn [nodes root caseSensitive].
    + apply represents_node. split.
      * rewrite !list_lookup_alter_ne by lia. done.
      * apply Forall_singleton. apply represents_node. split.
        -- rewrite list_lookup_alter, decide_True by done. rewrite F2. done.
        -- apply (kids_frame h); [done|]. intros j Hj.
           assert (j ≠ i) by (intros ->; done).
           rewrite !list_lookup_alter_ne by done. apply F1; auto.
    + intros j Hj Hjq Hjl.
      assert (j ≠ i) by (intros ->; apply Hj; left).
      rewrite !list_lookup_alter_ne by done. apply F1; auto.
    + right. split; done.
    + exists 1. split; [done|]. unfold h2. lengths.
    + done.
Qed.

End Edits.

Section SetSimulation.

Context {T : Type}.

(** *** The edit of a partial match *)

Lemma editNode_edited cs h r r0 p (s : ltree T) index sum fk keyString v kp :
  Hanging h r p s →
  (posMax kp - pos kp = Z.of_nat (length keyString))%Z →
  ∃ t', setAt (mkTrie r cs h) r0 keyString v
          (Some (mkClosest (lid s) (TrieMapPrefixMatch index) fk sum)) kp = Some t'
        ∧ Edited cs h r p s t' (editNode (length h) v keyString s index sum).
Proof.
  intros Hh Hkp. destruct s as [i k val kids].
  pose proof (hang_rep _ _ _ _ Hh) as Hrep.
  apply represents_node in Hrep as [Hi Hk].
  unfold setAt. cbn [node match_ sumIndex nodes lid]. rewrite Hi. cbn [mbind option_bind].
  unfold editNode. rewrite Hkp.
  destruct (Nat.eqb_spec index (length keyString)) as [He|He].
  - replace (Z.of_nat index =? Z.of_nat (length keyString))%Z with true
      by (symmetry; apply Z.eqb_eq; lia).
    by apply insertParent_edited.
  - replace (Z.of_nat index =? Z.of_nat (length keyString))%Z with false
      by (symmetry; apply Z.eqb_neq; lia).
    cbn [key]. destruct (index <? length k).
    + eexists; split; [reflexivity|].
      pose proof (splitNode_edited cs h r p i k val kids index sum keyString v Hh) as H.
      simpl in H. destruct (sum =? length keyString); exact H.
    + eexists; split; [reflexivity|]. by apply addChild_edited.
Qed.

(** *** An edit below a child is an edit of the parent *)

Lemma edited_lift cs h r p id k val (pre post : list (ltree T)) c t' c' :
  Hanging h r p (LNode id k val (pre ++ c :: post)) →
  Edited cs h r (Some id) c t' c' →
  Edited cs h r p (LNode id k val (pre ++ c :: post)) t'
    (LNode id k val (pre ++ c' :: post)).
Proof.
  intros Hh [Erep Eframe Elink [n [Eids Elen]] Ecs].
  pose proof Hh as [Hrep Hnd Hp Hb].
  apply represents_node in Hrep as [Hi Hk]. simpl in Hnd.
  apply NoDup_cons in Hnd as [Hi' Hnd].
  rewrite flat_map_app in Hnd, Hi'. simpl in Hnd, Hi'.
  apply NoDup_app in Hnd as (Hpre & Hdis1 & Hnd).
  apply NoDup_app in Hnd as (Hc & Hdis2 & Hpost).
  apply Forall_app in Hk as [Hkpre Hk]. apply Forall_cons in Hk as [Hkc Hkpost].
  assert (∀ j, j ∈ flat_map ids pre ++ flat_map ids post →
            nodes t' !! j = h !! j) as Hside.
  { intros j Hj. apply Eframe.
    - intros Hjc. apply elem_of_app in Hj as [Hj|Hj].
      + eapply Hdis1; [done|]. apply elem_of_app. by left.
      + by eapply Hdis2.
    - intros [= ->]. apply Hi'. apply elem_of_app in Hj as [Hj|Hj].
      + apply elem_of_app. by left.
      + apply elem_of_app. right. apply elem_of_app. by right.
    - eapply (hanging_lt _ _ _ _ j Hh). simpl. right. rewrite flat_map_app. simpl.
      apply elem_of_app in Hj as [Hj|Hj]; apply elem_of_app; [by left|right].
      apply elem_of_app. by right. }
  assert (lid c ∉ map lid pre) as Hcpre.
  { intros Hx. apply lid_in_flat in Hx. eapply Hdis1; [done|].
    apply elem_of_app. left. apply lid_in_ids. }
  split.
  - apply represents_node. split.
    + rewrite map_app. simpl. destruct Elink as [(El & _ & Eq) | (El & _ & qn & Hqn & Eq)].
      * rewrite (Eq id) by done. rewrite Hi, El, map_app. done.
      * rewrite Eq. rewrite Hi in Hqn. injection Hqn as <-.
        unfold setChildren; cbn [key value parent children].
        rewrite map_app. simpl. rewrite replaceFirst_middle by done.
        by rewrite El.
    + apply Forall_app. split; [|apply Forall_cons; split]; [|done|].
      * apply (kids_frame h); [done|]. intros j Hj. apply Hside.
        apply elem_of_app. by left.
      * apply (kids_frame h); [done|]. intros j Hj. apply Hside.
        apply elem_of_app. by right.
  - intros j Hj Hjp Hjl. apply Eframe; auto.
    + intros Hjc. apply Hj. simpl. right. rewrite flat_map_app. simpl.
      apply elem_of_app. right. apply elem_of_app. by left.
    + intros [= ->]. apply Hj. left.
  - left. split; [done|]. split.
    + destruct Elink as [(_ & Er & _) | (_ & Er & _)]; done.
    + intros q ->. destruct Hp as (_ & Hq & Hs). apply Eframe.
      * intros Hqc. apply Hq. simpl. right. rewrite flat_map_app. simpl.
        apply elem_of_app. right. apply elem_of_app. by left.
      * intros [= ->]. apply Hq. left.
      * by apply lookup_lt_is_Some.
  - exists n. split; [|done]. simpl. rewrite !flat_map_app. simpl.
    rewrite Eids. apply Permutation_skip.
    rewrite <- !app_assoc. apply Permutation_app_head. apply Permutation_app_head.
    apply Permutation_app_comm.
  - done.
Qed.

(** *** The scan of the children *)

Lemma scan_cases cs w (kids : list (ltree T)) :
  Forall (unmatched cs w) kids
  ∨ ∃ pre c post, kids = pre ++ c :: post ∧ Forall (unmatched cs w) pre
                  ∧ matchList cs (lkey c) w ≠ none.
Proof.
  induction kids as [|c kids IH]; [by left|].
  destruct (matchList cs (lkey c) w) eqn:Hm.
  - right. exists [], c, kids. rewrite Hm. done.
  - destruct IH as [IH | (pre & d & post & -> & Hpre & Hd)].
    + left. by constructor.
    + right. exists (c :: pre), d, post. split; [done|]. split; [|done].
      by constructor.
  - right. exists [], c, kids. rewrite Hm. done.
Qed.

Lemma scanWith_unmatched {R} cs w (F : ltree T → R) P N kids :
  Forall (unmatched cs w) kids → scanWith cs w F P N kids = N.
Proof. induction 1 as [|c kids Hc _ IH]; simpl; [done|]. by rewrite Hc. Qed.

Lemma scanWith_hit {R} cs w (F : ltree T → R) P N pre c post :
  Forall (unmatched cs w) pre →
  scanWith cs w F P N (pre ++ c :: post) = scanWith cs w F P N (c :: post).
Proof. induction 1 as [|d pre Hd _ IH]; simpl; [done|]. by rewrite Hd. Qed.

Lemma replaceScan_unmatched cs w (F : ltree T → ltree T) P kids :
  Forall (unmatched cs w) kids → replaceScan cs w F P kids = None.
Proof. induction 1 as [|c kids Hc _ IH]; simpl; [done|]. by rewrite Hc, IH. Qed.

Lemma replaceScan_hit cs w (F : ltree T → ltree T) P pre c post :
  Forall (unmatched cs w) pre →
  replaceScan cs w F P (pre ++ c :: post)
  = app pre <$> replaceScan cs w F P (c :: post).
Proof.
  induction 1 as [|d pre Hd _ IH].
  - simpl app. by destruct (replaceScan cs w F P (c :: post)).
  - change (replaceScan cs w F P ((d :: pre) ++ c :: post))
      with (match matchList cs (lkey d) w with
            | full => Some (F d :: (pre ++ c :: post))
            | TrieMapPrefixMatch j => Some (P d j :: (pre ++ c :: post))
            | none => cons d <$> replaceScan cs w F P (pre ++ c :: post)
            end).
    rewrite Hd, IH. by destruct (replaceScan cs w F P (c :: post)).
Qed.

(** *** [set] below the root *)

Lemma insertFrom_edited cs h r r0 keyString v kp :
  (posMax kp - pos kp = Z.of_nat (length keyString))%Z →
  ∀ (s : ltree T) p i sum fk adv w,
    Hanging h r p s →
    ∃ t', setAt (mkTrie r cs h) r0 keyString v
            (Some (reachedResult (closestFrom cs s i sum fk adv w))) kp = Some t'
          ∧ Edited cs h r p s t' (insertFrom cs (length h) v keyString s i sum w).
Proof.
  intros Hkp. induction s as [id k val kids IH] using ltree_ind'.
  intros p i sum fk adv w Hh.
  pose proof (editNode_edited cs h r r0 p (LNode id k val kids) i sum fk keyString v kp
                Hh Hkp) as Here.
  cbn [closestFrom insertFrom]. destruct (i =? length k); [|exact Here].
  destruct (scan_cases cs w kids) as [Hno | (pre & c & post & -> & Hpre & Hc)].
  - rewrite scanWith_unmatched, replaceScan_unmatched by done. exact Here.
  - rewrite scanWith_hit, replaceScan_hit by done. cbn [scanWith replaceScan].
    assert (Hanging h r (Some id) c) as Hhc.
    { apply (hanging_kid _ _ _ _ _ Hh). simpl. apply elem_of_app. right. left. }
    destruct (matchList cs (lkey c) w) as [| |j] eqn:Hm; [|done|].
    + unfold reachedResult, setAt. cbn [rnode rmatch node match_ nodes].
      rewrite (represents_root _ _ _ (hang_rep _ _ _ _ Hhc)). cbn [mbind option_bind].
      eexists; split; [reflexivity|]. cbn [fmap option_fmap option_map].
      apply edited_lift; [done|]. by apply updateValue_edited.
    + apply Forall_app in IH as [_ IH]. apply Forall_cons in IH as [IHc _].
      destruct (IHc (Some id) j (sum + j) (fk ++ lkey c) (adv + j) (drop j w) Hhc)
        as (t' & Ht' & He).
      exists t'. split; [done|]. cbn [fmap option_fmap option_map].
      by apply edited_lift.
Qed.

(** *** [set] on the whole trie *)

Lemma closestFrom_advance cs (s : ltree T) :
  ∀ i sum fk adv w,
    rmatch (closestFrom cs s i sum fk adv w) = full
    ∨ radvance (closestFrom cs s i sum fk adv w) = 0.
Proof.
  induction s as [id k val kids IH] using ltree_ind'. intros i sum fk adv w.
  cbn [closestFrom]. destruct (i =? length k); [|by right].
  set (N := mkReached (LNode id k val kids) (TrieMapPrefixMatch i) fk sum 0).
  assert (rmatch N = full ∨ radvance N = 0) as HN by (by right). clearbody N.
  induction kids as [|c kids IHk]; simpl; [done|].
  apply Forall_cons in IH as [IHc IH].
  destruct (matchList cs (lkey c) w); [by left|by apply IHk|apply IHc].
Qed.

Lemma shape_hanging h (l : ltree T) :
  represents h None l → NoDup (ids l) → Hanging h (Some (lid l)) None l.
Proof.
  intros Hrep Hnd. split; auto.
  intros j Hj [= <-]. destruct l; simpl in *.
  apply NoDup_cons in Hnd as [Hn _]. done.
Qed.

Lemma edited_shape cs h (l : ltree T) t' l' :
  represents h None l → NoDup (ids l) → length h = length (ids l) →
  Edited cs h (Some (lid l)) None l t' l' →
  shape t' (Some l') ∧ caseSensitive t' = cs.
Proof.
  intros Hrep Hnd Hlen [Erep Eframe Elink [n [Eids Elen]] Ecs].
  split; [|done]. split; [|split; [done|split]].
  - destruct Elink as [(-> & -> & _) | (-> & ->)]; done.
  - rewrite Eids. apply NoDup_app. split; [done|]. split; [|apply NoDup_seq].
    intros j Hj Hs. apply elem_of_seq in Hs.
    eapply represents_lt in Hj; [|done]. lia.
  - rewrite Eids, length_app, length_seq. lia.
Qed.

Lemma splitRoot_shape cs h (l : ltree T) keyString v :
  represents h None l → NoDup (ids l) → length h = length (ids l) →
  shape (splitRoot (mkTrie (Some (lid l)) cs h) (lid l) keyString v)
    (Some (LNode (length h) [] None [l; LNode (S (length h)) keyString (Some v) []])).
Proof.
  intros Hrep Hnd Hlen.
  pose proof (fun j => represents_lt _ _ _ j Hrep) as Hlt.
  pose proof (Hlt _ (lid_in_ids l)) as Hl.
  unfold splitRoot. cbn [nodes root caseSensitive].
  set (h2 := alter (setParent (Some (length h))) (lid l) (h ++ [mkNode [] None None [lid l]])).
  assert (length h2 = S (length h)) as Hl2 by (unfold h2; rewrite length_alter, length_app; simpl; lia).
  split; [done|]. cbn [nodes]. split; [|split].
  - apply represents_node. split; [|repeat constructor].
    + rewrite list_lookup_alter, decide_True by done.
      rewrite lookup_snoc_lt by lia. unfold h2.
      rewrite list_lookup_alter_ne by lia. rewrite lookup_snoc. done.
    + apply (represents_reparent h _ None); auto.
      * rewrite list_lookup_alter_ne by lia. rewrite lookup_snoc_lt by lia.
        unfold h2. rewrite list_lookup_alter, decide_True by done.
        by rewrite lookup_snoc_lt.
      * intros j Hj.
        assert (j ∈ ids l) as Hjl by (destruct l; simpl in *; by right).
        assert (j ≠ lid l).
        { intros ->. destruct l; simpl in *. apply NoDup_cons in Hnd as [Hn _]. done. }
        apply Hlt in Hjl.
        rewrite list_lookup_alter_ne by lia. rewrite lookup_snoc_lt by lia.
        unfold h2. rewrite list_lookup_alter_ne by done. by rewrite lookup_snoc_lt.
    + apply represents_node. split; [|constructor].
      rewrite list_lookup_alter_ne by lia. rewrite <- Hl2. apply lookup_snoc.
  - simpl. apply NoDup_cons. split.
    + intros Hx. apply elem_of_app in Hx as [Hx|Hx].
      * apply Hlt in Hx. lia.
      * apply list_elem_of_singleton in Hx. lia.
    + apply NoDup_app. split; [done|]. split; [|apply NoDup_singleton].
      intros j Hj Hx. apply list_elem_of_singleton in Hx. apply Hlt in Hj. lia.
  - rewrite length_alter, length_app, Hl2. simpl. rewrite length_app. simpl. lia.
Qed.

Theorem set_shape (t : TrieMap T) lt k v :
  shape t lt →
  ∃ t', set t k v = Some t'
        ∧ shape t' (Some (treeSet (caseSensitive t) lt (length (nodes t))
                            (storedKey (caseSensitive t) k) v))
        ∧ caseSensitive t' = caseSensitive t.
Proof.
  destruct t as [r cs h]. unfold set. cbn [root nodes caseSensitive].
  set (keyString := storedKey cs k).
  destruct lt as [l|]; simpl shape.
  - intros (-> & Hrep & Hnd & Hlen).
    pose proof (shape_hanging _ _ Hrep Hnd) as Hh.
    rewrite findClosestMatchingNode_spec; [|done|lia|apply wellFormed_keyString].
    cbn [mbind option_bind]. rewrite content_keyString.
    unfold closest, treeSet.
    destruct (matchList cs (lkey l) keyString) as [| |i] eqn:Hm.
    + unfold setAt, reachedResult. cbn [rnode rmatch node match_ nodes].
      rewrite (represents_root _ _ _ Hrep). cbn [mbind option_bind].
      eexists; split; [reflexivity|].
      eapply edited_shape; eauto. by apply updateValue_edited.
    + cbn [setAt]. eexists; split; [reflexivity|]. split; [|done].
      by apply splitRoot_shape.
    + set (R := closestFrom cs l i i (lkey l) i (drop i keyString)).
      set (kp0 := keyAsPointer (KeyString keyString)).
      assert (setAt (mkTrie (Some (lid l)) cs h) (lid l) keyString v
                (Some (reachedResult R)) (pointerAfter kp0 (pos kp0) R)
              = setAt (mkTrie (Some (lid l)) cs h) (lid l) keyString v
                  (Some (reachedResult R)) kp0) as ->.
      { destruct (closestFrom_advance cs l i i (lkey l) i (drop i keyString)) as [Hf|Ha];
          fold R in Hf || fold R in Ha.
        - unfold setAt, reachedResult. cbn [node match_]. by rewrite Hf.
        - unfold pointerAfter. rewrite Ha. done. }
      destruct (insertFrom_edited cs h (Some (lid l)) (lid l) keyString v kp0)
        with (s := l) (p := @None nat) (i := i) (sum := i) (fk := lkey l) (adv := i)
             (w := drop i keyString) as (t' & Ht' & He); [simpl; lia|done|].
      exists t'. split; [done|]. eapply edited_shape; eauto.
  - intros [-> ->]. eexists; split; [reflexivity|]. split; [|done].
    simpl. split; [done|]. split; [|split]; simpl.
    + apply represents_node. split; [done|constructor].
    + apply NoDup_singleton.
    + done.
Qed.

End SetSimulation.

Section Reachable.

Context {T : Type}.

(** ** Every trie built by [set] is a tree *)

Lemma shape_size (t : TrieMap T) lt : shape t lt → length (nodes t) = treeSize lt.
Proof. destruct lt; simpl; [tauto|]. intros [_ ->]. done. Qed.

Lemma setAll_shape entries : ∀ (t : TrieMap T) lt,
  shape t lt →
  ∃ t', setAll t entries = Some t'
        ∧ shape t' (treeSetAll (caseSensitive t) lt entries)
        ∧ caseSensitive t' = caseSensitive t.
Proof.
  induction entries as [|[k v] entries IH]; intros t lt Hs; simpl.
  - eauto.
  - destruct (set_shape t lt k v Hs) as (t1 & -> & Hs1 & Hcs). simpl.
    rewrite (shape_size _ _ Hs) in Hs1.
    destruct (IH _ _ Hs1) as (t' & Ht' & Hs' & Hcs').
    rewrite Hcs in Hs'. exists t'. split; [done|]. split; [done|]. congruence.
Qed.

Lemma construct_shape entries cs :
  ∃ t : TrieMap T, construct entries cs = Some t
        ∧ shape t (treeSetAll cs None entries) ∧ caseSensitive t = cs.
Proof. apply (setAll_shape entries (empty cs) None). done. Qed.

Lemma reachable_shape (t : TrieMap T) :
  reachable t →
  ∃ entries, shape t (treeSetAll (caseSensitive t) None entries).
Proof.
  intros [entries He]. exists entries.
  destruct (construct_shape entries (caseSensitive t)) as (t' & Ht' & Hs & _).
  congruence.
Qed.

(** ** matchList *)

Lemma matchList_common cs p w j :
  matchList cs p w = TrieMapPrefixMatch j → j = common cs p w.
Proof.
  unfold matchList, matchStop. repeat case_match; intros; simplify_eq; done.
Qed.

Lemma matchList_none cs p w : matchList cs p w = none → p ≠ [] ∧ w ≠ [].
Proof.
  unfold matchList, matchStop. pose proof (common_le cs p w).
  destruct p, w; simpl in *; repeat case_match; intros; simplify_eq; done.
Qed.

Lemma matchList_prefix_whole cs p w j :
  matchList cs p w = TrieMapPrefixMatch j → j = length p → j < length w.
Proof.
  unfold matchList, matchStop. pose proof (common_le cs p w).
  repeat case_match; intros; simplify_eq;
    repeat match goal with
           | H : (_ =? _) = true |- _ => apply Nat.eqb_eq in H
           | H : (_ =? _) = false |- _ => apply Nat.eqb_neq in H
           end; lia.
Qed.

Lemma matchList_prefix_pos cs p w j :
  matchList cs p w = TrieMapPrefixMatch j → p ≠ [] → w ≠ [] → 0 < j.
Proof.
  intros H Hp Hw. destruct p as [|a p], w as [|b w]; try done.
  unfold matchList, matchStop in H. simpl in H.
  destruct (charEq cs a b); simpl in H.
  - repeat case_match; simplify_eq; lia.
  - done.
Qed.

(** ** Keys below the root are never empty *)

Lemma properKeys_inv i k (v : option T) kids :
  properKeys (LNode i k v kids) → Forall (fun c => lkey c ≠ [] ∧ properKeys c) kids.
Proof. by inversion 1. Qed.

Lemma editNode_proper f (v : T) ks (s : ltree T) i sum :
  properKeys s → sum ≤ length ks → i ≤ length (lkey s) → i ≤ sum →
  (i = length (lkey s) → sum < length ks) →
  properKeys (editNode f v ks s i sum)
  ∧ (lkey s ≠ [] → 0 < i → lkey (editNode f v ks s i sum) ≠ []).
Proof.
  destruct s as [id k val kids]; simpl. intros Hp Hsum Hi His Hw.
  apply properKeys_inv in Hp.
  assert (∀ n (l : str), n < length l → drop n l ≠ []) as Hdrop.
  { intros n l Hn E. apply (f_equal length) in E. rewrite length_drop in E.
    simpl in E. lia. }
  assert (∀ n (l : str), 0 < n → l ≠ [] → take n l ≠ []) as Htake.
  { intros n l Hn Hl E. destruct l, n; simpl in *; try done; lia. }
  destruct (Nat.eqb_spec i (length ks)) as [E1|E1]; [|destruct (Nat.ltb_spec i (length k))].
  - split; [|simpl; auto]. constructor. apply Forall_singleton. simpl. split.
    + apply Hdrop. lia.
    + by constructor.
  - destruct (Nat.eqb_spec sum (length ks)).
    + split; [|simpl; auto]. constructor. apply Forall_singleton. simpl. split.
      * by apply Hdrop.
      * by constructor.
    + split; [|simpl; auto]. constructor. repeat constructor; simpl.
      * by apply Hdrop.
      * done.
      * apply Hdrop. lia.
  - split; [|simpl; auto]. constructor. apply Forall_app. split; [done|].
    apply Forall_singleton. simpl. split.
    + apply Hdrop. lia.
    + constructor. constructor.
Qed.

Lemma insertFrom_proper cs f (v : T) ks (s : ltree T) :
  ∀ i sum w,
    properKeys s → sum + length w = length ks → i ≤ length (lkey s) → i ≤ sum →
    (i = length (lkey s) → w ≠ []) →
    properKeys (insertFrom cs f v ks s i sum w)
    ∧ (lkey s ≠ [] → 0 < i → lkey (insertFrom cs f v ks s i sum w) ≠ []).
Proof.
  induction s as [id k val kids IH] using ltree_ind'.
  intros i sum w Hp Hsum Hi His Hw.
  assert (properKeys (editNode f v ks (LNode id k val kids) i sum)
          ∧ (lkey (LNode id k val kids) ≠ [] → 0 < i →
             lkey (editNode f v ks (LNode id k val kids) i sum) ≠ [])) as Here.
  { apply editNode_proper; auto; [lia|]. intros E. apply Hw in E.
    destruct w; simpl in *; [done|lia]. }
  cbn [insertFrom]. destruct (Nat.eqb_spec i (length k)) as [->|]; [|exact Here].
  destruct (scan_cases cs w kids) as [Hno | (pre & c & post & -> & Hpre & Hc)].
  - rewrite replaceScan_unmatched by done. exact Here.
  - rewrite replaceScan_hit by done. cbn [replaceScan].
    apply properKeys_inv in Hp.
    apply Forall_app in Hp as [Hppre Hp]. apply Forall_cons in Hp as [[Hkc Hpc] Hppost].
    apply Forall_app in IH as [_ IH]. apply Forall_cons in IH as [IHc _].
    destruct (matchList cs (lkey c) w) as [| |j] eqn:Hm; [|done|];
      cbn [fmap option_fmap option_map]; (split; [|simpl; auto]); constructor;
      apply Forall_app; (split; [done|]); apply Forall_cons; (split; [|done]).
    + unfold withValue; simpl. split; [done|]. destruct c; simpl.
      inversion Hpc. by constructor.
    + pose proof (matchList_prefix_le _ _ _ _ Hm) as [Hjw Hjp].
      destruct (IHc j (sum + j) (drop j w)) as [H1 H2]; auto.
      * rewrite length_drop. lia.
      * lia.
      * intros E. pose proof (matchList_prefix_whole _ _ _ _ Hm E).
        intros E'. apply (f_equal length) in E'. rewrite length_drop in E'.
        simpl in E'. lia.
      * split; [|done]. apply H2; [done|].
        eapply matchList_prefix_pos; eauto.
Qed.

Lemma treeSet_proper cs (lt : option (ltree T)) f ks v :
  (∀ l, lt = Some l → properKeys l) → properKeys (treeSet cs lt f ks v).
Proof.
  intros Hp. destruct lt as [l|]; simpl; [|constructor; constructor].
  specialize (Hp l eq_refl).
  destruct (matchList cs (lkey l) ks) as [| |i] eqn:Hm.
  - unfold withValue. destruct l; simpl. inversion Hp. by constructor.
  - apply matchList_none in Hm as [Hk Hks]. constructor. repeat constructor; simpl; auto.
  - pose proof (matchList_prefix_le _ _ _ _ Hm) as [Hjw Hjp].
    apply insertFrom_proper; auto.
    + rewrite length_drop. lia.
    + intros E. pose proof (matchList_prefix_whole _ _ _ _ Hm E).
      intros E'. apply (f_equal length) in E'. rewrite length_drop in E'.
      simpl in E'. lia.
Qed.

Lemma treeSetAll_proper cs entries : ∀ lt : option (ltree T),
  (∀ l, lt = Some l → properKeys l) →
  ∀ l, treeSetAll cs lt entries = Some l → properKeys l.
Proof.
  induction entries as [|[k v] entries IH]; intros lt Hp l; simpl.
  - apply Hp.
  - apply IH. intros l' [= <-]. by apply treeSet_proper.
Qed.

End Reachable.

Section Paths.

Context {T : Type}.

(** ** Every node of the arena is a node of the tree *)

Lemma shape_ids (t : TrieMap T) l i :
  shape t (Some l) → i < length (nodes t) → i ∈ ids l.
Proof.
  intros (_ & Hrep & Hnd & Hlen) Hi.
  apply list_elem_of_In.
  apply (NoDup_length_incl (l := ids l) (l' := seq 0 (length (nodes t)))).
  - by apply NoDup_ListNoDup.
  - rewrite length_seq. lia.
  - intros j Hj. apply in_seq. apply list_elem_of_In in Hj.
    eapply represents_lt in Hj; [|done]. lia.
  - apply in_seq. lia.
Qed.

Lemma shape_cell (t : TrieMap T) l i nd :
  shape t (Some l) → nodes t !! i = Some nd → (i, nd) ∈ cells None l.
Proof.
  intros Hs Hi. pose proof Hs as (_ & Hrep & _).
  assert (i ∈ ids l) as Hin by (eapply shape_ids; [done|]; by eapply lookup_lt_Some).
  rewrite (ids_cells None) in Hin.
  apply list_elem_of_fmap in Hin as ([i' nd'] & -> & Hin). simpl in *.
  pose proof (Hrep _ _ Hin). by simplify_eq.
Qed.

Lemma shape_root (t : TrieMap T) lt : shape t lt → root t = lid <$> lt.
Proof. destruct lt; simpl; tauto. Qed.

(** ** Keys, parents and children in the arena *)

Lemma cells_proper_all p (l : ltree T) i nd :
  properKeys l → lkey l ≠ [] → (i, nd) ∈ cells p l → key nd ≠ [].
Proof.
  revert p. induction l as [id k v kids IH] using ltree_ind'.
  intros p Hp Hk Hin. simpl in *. apply properKeys_inv in Hp.
  apply elem_of_cons in Hin as [[= -> ->]|Hin]; [done|].
  apply elem_of_flat_map in Hin as (c & Hc & Hin).
  rewrite Forall_forall in IH, Hp. destruct (Hp _ Hc) as [Hkc Hpc].
  eapply IH; eauto.
Qed.

Lemma cells_proper p (l : ltree T) i nd :
  properKeys l → (i, nd) ∈ cells p l → i ≠ lid l → key nd ≠ [].
Proof.
  destruct l as [id k v kids]. intros Hp Hin Hi. simpl in *.
  apply properKeys_inv in Hp.
  apply elem_of_cons in Hin as [[= -> ->]|Hin]; [done|].
  apply elem_of_flat_map in Hin as (c & Hc & Hin).
  rewrite Forall_forall in Hp. destruct (Hp _ Hc) as [Hkc Hpc].
  by eapply cells_proper_all.
Qed.

Lemma nodup_kid (kids : list (ltree T)) c :
  NoDup (flat_map ids kids) → c ∈ kids → NoDup (ids c).
Proof.
  intros Hnd Hc. induction Hc as [c kids|c d kids _ IH]; simpl in Hnd;
    apply NoDup_app in Hnd as (? & ? & ?); auto.
Qed.

Lemma nodup_lids (kids : list (ltree T)) :
  NoDup (flat_map ids kids) → NoDup (map lid kids).
Proof.
  induction kids as [|c kids IH]; simpl; intros Hnd; [constructor|].
  apply NoDup_app in Hnd as (Hc & Hdis & Hrest). apply NoDup_cons. split; auto.
  intros Hin. apply lid_in_flat in Hin. eapply Hdis; [|done]. apply lid_in_ids.
Qed.

Lemma cells_root p (l : ltree T) :
  (lid l, mkNode (lkey l) (lval l) p (map lid (lkids l))) ∈ cells p l.
Proof. destruct l; simpl. left. Qed.

(** A node other than the root has its parent in the tree, and the
    parent lists it once. *)
Lemma tree_parent p (l : ltree T) i :
  NoDup (ids l) → i ∈ ids l → i ≠ lid l →
  ∃ nd q qn, (i, nd) ∈ cells p l ∧ parent nd = Some q ∧ (q, qn) ∈ cells p l
             ∧ i ∈ children qn ∧ NoDup (children qn).
Proof.
  revert p. induction l as [id k v kids IH] using ltree_ind'.
  intros p Hnd Hin Hi. simpl in *.
  apply NoDup_cons in Hnd as [_ Hnd].
  apply elem_of_cons in Hin as [->|Hin]; [done|].
  apply elem_of_flat_map in Hin as (c & Hc & Hin).
  rewrite Forall_forall in IH.
  destruct (decide (i = lid c)) as [->|Hne].
  - exists (mkNode (lkey c) (lval c) (Some id) (map lid (lkids c))), id,
      (mkNode k v p (map lid kids)). simpl. repeat split.
    + right. apply elem_of_flat_map. exists c. split; [done|]. apply cells_root.
    + left.
    + apply list_elem_of_fmap. eauto.
    + by apply nodup_lids.
  - destruct (IH _ Hc (Some id) (nodup_kid _ _ Hnd Hc) Hin Hne)
      as (nd & q & qn & Hnd' & Hq & Hqin & Hch & Hndq).
    exists nd, q, qn. repeat split; auto; right; apply elem_of_flat_map; eauto.
Qed.

(** Whatever a node lists as a child points back to it. *)
Lemma tree_child p (l : ltree T) q qn i :
  (q, qn) ∈ cells p l → i ∈ children qn →
  ∃ nd, (i, nd) ∈ cells p l ∧ parent nd = Some q.
Proof.
  revert p. induction l as [id k v kids IH] using ltree_ind'.
  intros p Hq Hi. simpl in *. rewrite Forall_forall in IH.
  apply elem_of_cons in Hq as [[= -> ->]|Hq].
  - simpl in Hi. apply list_elem_of_fmap in Hi as (c & -> & Hc).
    exists (mkNode (lkey c) (lval c) (Some id) (map lid (lkids c))). split; [|done].
    right. apply elem_of_flat_map. exists c. split; [done|]. apply cells_root.
  - apply elem_of_flat_map in Hq as (c & Hc & Hq).
    destruct (IH _ Hc (Some id) Hq Hi) as (nd & Hnd & Hp).
    exists nd. split; [|done]. right. apply elem_of_flat_map. eauto.
Qed.

(** ** The full key of a node is the concatenation along its path *)

Lemma keyPath_mono (h : list (TrieMapNode T)) i m : ∀ m' x,
  keyPath m h i = Some x → m ≤ m' → keyPath m' h i = Some x.
Proof.
  revert i. induction m as [|m IH]; intros i m' x Hk Hm; [done|].
  destruct m' as [|m']; [lia|]. cbn [keyPath] in *.
  destruct (h !! i) as [nd|]; cbn [mbind option_bind] in *; [|done].
  destruct (parent nd) as [q|]; [|done].
  destruct (keyPath m h q) as [pre|] eqn:E; cbn [mbind option_bind] in *; [|done].
  rewrite (IH q m' pre E) by lia. done.
Qed.

Lemma keyPath_S (h : list (TrieMapNode T)) fuel i :
  keyPath (S fuel) h i
  = nd ← h !! i;
    match parent nd with
    | None => Some (key nd)
    | Some p => pre ← keyPath fuel h p; Some (pre ++ key nd)
    end.
Proof. reflexivity. Qed.

Lemma fullKeys_keyPath h (s : ltree T) : ∀ p n fk0,
  represents h p s → keyPath (S n) h (lid s) = Some fk0 →
  ∀ i fk, (i, fk) ∈ fullKeys s fk0 →
    keyPath (n + length (ids s)) h i = Some fk.
Proof.
  induction s as [id k v kids IH] using ltree_ind'.
  intros p n fk0 Hrep Hroot i fk Hin. cbn [fullKeys lid] in *.
  apply represents_node in Hrep as [Hid Hk].
  apply elem_of_cons in Hin as [[= -> ->]|Hin].
  - eapply keyPath_mono; [done|simpl; lia].
  - apply elem_of_flat_map in Hin as (c & Hc & Hin).
    rewrite Forall_forall in IH, Hk.
    eapply keyPath_mono.
    + eapply (IH _ Hc (Some id) (S n)); [by apply Hk| |done].
      rewrite keyPath_S, (represents_root _ _ _ (Hk _ Hc)).
      cbn [mbind option_bind parent key]. by rewrite Hroot.
    + pose proof (ids_kid_length _ _ Hc). simpl. lia.
Qed.

Lemma closestFrom_fullKey cs (s : ltree T) : ∀ i sum fk adv w,
  (lid (rnode (closestFrom cs s i sum fk adv w)),
   rfullKey (closestFrom cs s i sum fk adv w)) ∈ fullKeys s fk.
Proof.
  induction s as [id k val kids IH] using ltree_ind'. intros i sum fk adv w.
  cbn [closestFrom]. destruct (i =? length k); [|left].
  destruct (scan_cases cs w kids) as [Hno | (pre & c & post & -> & Hpre & Hc)].
  - rewrite scanWith_unmatched by done. left.
  - rewrite scanWith_hit by done. cbn [scanWith].
    apply Forall_app in IH as [_ IH]. apply Forall_cons in IH as [IHc _].
    simpl. right. apply elem_of_flat_map. exists c.
    split; [apply elem_of_app; right; left|].
    destruct (matchList cs (lkey c) w) as [| |j]; [|done|].
    + simpl. destruct c; simpl. left.
    + apply IHc.
Qed.

Lemma shape_pathKey (t : TrieMap T) l i fk :
  shape t (Some l) → (i, fk) ∈ fullKeys l (lkey l) → pathKey t i = Some fk.
Proof.
  intros (Hr & Hrep & Hnd & Hlen) Hin. unfold pathKey. rewrite Hlen.
  apply (fullKeys_keyPath _ l None 0 (lkey l)); auto.
  simpl. by rewrite (represents_root _ _ _ Hrep).
Qed.

Lemma fullKeys_ids (s : ltree T) : ∀ fk, (fullKeys s fk).*1 = ids s.
Proof.
  induction s as [id k v kids IH] using ltree_ind'. intros fk. simpl. f_equal.
  induction IH as [|c kids Hc _ IHk]; simpl; [done|].
  rewrite fmap_app. f_equal; auto.
Qed.

Lemma shape_traversal_pathKey (t : TrieMap T) l kp res kp' :
  shape t (Some l) → wellFormed kp →
  findClosestMatchingNode t kp = Some (Some res, kp') →
  pathKey t (node res) = Some (fullKey res).
Proof.
  intros Hs Hwf. pose proof Hs as (Hr & Hrep & Hnd & Hlen).
  destruct t as [r cs h]. simpl in *. subst r.
  rewrite findClosestMatchingNode_spec; [|done|lia|done].
  unfold closest.
  destruct (matchList cs (lkey l) (content kp)) as [| |i] eqn:Hm; intros [= <- <-].
  - simpl. apply (shape_pathKey _ l); [done|]. destruct l; simpl. left.
  - apply (shape_pathKey _ l); [done|]. apply closestFrom_fullKey.
Qed.

End Paths.

Section WorkList.

Context {T : Type}.
Variable truthy : T → bool.

(** ** iterate *)

Lemma childEntries_spec r cs h p (kids : list (ltree T)) fk :
  Forall (represents h p) kids →
  childEntries (mkTrie r cs h) (map lid kids) fk
  = Some (map (fun c => (lid c, fk ++ lkey c)) kids).
Proof.
  induction 1 as [|c kids Hc _ IH]; simpl; [done|].
  rewrite (represents_root _ _ _ Hc). simpl. simpl in IH. rewrite IH. done.
Qed.

Lemma held_kids h (e : ltree T * str) : held h e → Forall (held h) (kidEntries e).
Proof.
  intros [p Hrep]. apply represents_kids in Hrep. unfold kidEntries.
  apply Forall_fmap. eapply Forall_impl; [done|]. intros c Hc. by eexists.
Qed.

Lemma entry_kids (e : ltree T * str) :
  map (fun c => (lid c, e.2 ++ lkey c)) (lkids e.1) = map entry (kidEntries e).
Proof. unfold kidEntries. rewrite map_map. done. Qed.

Lemma forestSize_app (a b : list (ltree T * str)) :
  forestSize (a ++ b) = forestSize a + forestSize b.
Proof. unfold forestSize. by rewrite flat_map_app, length_app. Qed.

Lemma forestSize_kids (e : ltree T * str) :
  S (forestSize (kidEntries e)) = forestSize [e].
Proof.
  unfold forestSize, kidEntries. destruct e as [[i k v kids] fk]; simpl.
  rewrite app_nil_r. f_equal. induction kids as [|c kids IH]; simpl; [done|].
  rewrite !length_app. lia.
Qed.

(** One step of the loop. *)
Lemma iterateLoop_step r cs h fuel order (e : ltree T * str) q :
  held h e →
  iterateLoop truthy (S fuel) (mkTrie r cs h) order q
  = match takeNext order q with
    | None => Some []
    | Some ((n, fk), q') =>
        nd ← h !! n;
        es ← childEntries (mkTrie r cs h) (children nd) fk;
        rest ← iterateLoop truthy fuel (mkTrie r cs h) order (q' ++ es);
        Some (match value nd with
              | Some v => if truthy v then (fk, v) :: rest else rest
              | None => rest
              end)
    end.
Proof. reflexivity. Qed.

Lemma iterateLoop_visit r cs h fuel order (e : ltree T * str) q q' :
  held h e → takeNext order q = Some (entry e, q') →
  iterateLoop truthy (S fuel) (mkTrie r cs h) order q
  = rest ← iterateLoop truthy fuel (mkTrie r cs h) order (q' ++ map entry (kidEntries e));
    Some (yieldOf truthy e.2 (lval e.1) ++ rest).
Proof.
  intros [p Hrep] Hq. cbn [iterateLoop]. rewrite Hq. unfold entry at 1.
  cbn [nodes]. rewrite (represents_root _ _ _ Hrep). cbn [mbind option_bind children].
  rewrite (childEntries_spec _ _ _ _ _ _ (represents_kids _ _ _ Hrep)).
  cbn [mbind option_bind]. rewrite entry_kids.
  destruct (iterateLoop truthy fuel _ order _) as [rest|]; [|done].
  cbn [mbind option_bind value]. unfold yieldOf.
  destruct (lval e.1) as [v|]; [|done]. by destruct (truthy v).
Qed.

(** *** Depth first *)

Lemma iterateLoop_dfs r cs h fuel : ∀ q : list (ltree T * str),
  Forall (held h) q → forestSize q ≤ fuel →
  iterateLoop truthy fuel (mkTrie r cs h) dfs (map entry q)
  = Some (concat (reverse (map (fun e => lastChildFirst truthy e.1 e.2) q))).
Proof.
  induction fuel as [|fuel IH]; intros q Hq Hf.
  - destruct q as [|e q]; [reflexivity|]. unfold forestSize in Hf. simpl in Hf.
    rewrite length_app in Hf. pose proof (ids_length_pos e.1). lia.
  - destruct q as [|e q _] using rev_ind; [reflexivity|].
    apply Forall_app in Hq as [Hq He]. apply Forall_inv in He.
    rewrite forestSize_app in Hf. pose proof (forestSize_kids e).
    rewrite (iterateLoop_visit _ _ _ _ _ e _ (map entry q)); [|done|].
    + rewrite <- map_app, IH.
      * cbn [mbind option_bind]. f_equal.
        rewrite !map_app, !reverse_app, !concat_app. simpl.
        rewrite app_nil_r. destruct e as [[i k v kids] fk]; simpl.
        rewrite <- app_assoc. f_equal. f_equal.
        unfold kidEntries. simpl. by rewrite map_map.
      * apply Forall_app. split; [done|]. by apply held_kids.
      * rewrite forestSize_app. lia.
    + unfold takeNext. rewrite map_app, reverse_app. simpl.
      by rewrite reverse_involutive.
Qed.

(** *** Breadth first *)

Lemma levelOrder_nil d : levelOrder truthy d ([] : list (ltree T * str)) = [].
Proof. induction d as [|d IH]; simpl; [done|]. exact IH. Qed.

Lemma forestSize_level (q : list (ltree T * str)) :
  forestSize (flat_map kidEntries q) + length q = forestSize q.
Proof.
  induction q as [|e q IH]; [done|].
  change (e :: q) with ([e] ++ q) at 3. simpl flat_map.
  rewrite !forestSize_app. pose proof (forestSize_kids e). simpl. lia.
Qed.

Lemma forestSize_nil (q : list (ltree T * str)) : forestSize q = 0 → q = [].
Proof.
  destruct q as [|e q]; [done|]. unfold forestSize. simpl. rewrite length_app.
  pose proof (ids_length_pos e.1). lia.
Qed.

Lemma iterateLoop_bfs r cs h fuel : ∀ (a b : list (ltree T * str)) d,
  Forall (held h) (a ++ flat_map kidEntries b) →
  forestSize (a ++ flat_map kidEntries b) ≤ fuel →
  forestSize (flat_map kidEntries (b ++ a)) ≤ d →
  iterateLoop truthy fuel (mkTrie r cs h) bfs (map entry (a ++ flat_map kidEntries b))
  = Some (flat_map (fun e => yieldOf truthy e.2 (lval e.1)) a
          ++ levelOrder truthy d (flat_map kidEntries (b ++ a))).
Proof.
  induction fuel as [|fuel IH]; intros a b d Hh Hf Hd.
  - assert (a ++ flat_map kidEntries b = []) as E by (apply forestSize_nil; lia).
    rewrite E. apply app_eq_nil in E as [-> E]. rewrite app_nil_r, E.
    by rewrite levelOrder_nil.
  - assert (∀ e a' b' d',
              Forall (held h) ((e :: a') ++ flat_map kidEntries b') →
              forestSize ((e :: a') ++ flat_map kidEntries b') ≤ S fuel →
              forestSize (flat_map kidEntries (b' ++ e :: a')) ≤ d' →
              iterateLoop truthy (S fuel) (mkTrie r cs h) bfs
                (map entry ((e :: a') ++ flat_map kidEntries b'))
              = Some (flat_map (fun e => yieldOf truthy e.2 (lval e.1)) (e :: a')
                      ++ levelOrder truthy d' (flat_map kidEntries (b' ++ e :: a'))))
      as Hstep.
    { intros e a' b' d' Hh' Hf' Hd'.
      pose proof (forestSize_kids e) as Hk.
      change ((e :: a') ++ flat_map kidEntries b')
        with ([e] ++ (a' ++ flat_map kidEntries b')) in Hf', Hh'.
      rewrite forestSize_app in Hf'.
      apply Forall_app in Hh' as [He Hh']. apply Forall_inv in He.
      rewrite (iterateLoop_visit _ _ _ _ _ e _
                 (map entry (a' ++ flat_map kidEntries b'))); [|done|done].
      rewrite <- map_app, <- app_assoc.
      replace (flat_map kidEntries b' ++ kidEntries e)
        with (flat_map kidEntries (b' ++ [e]))
        by (rewrite flat_map_app; simpl; by rewrite app_nil_r).
      rewrite (IH a' (b' ++ [e]) d').
      - cbn [mbind option_bind]. f_equal. simpl. rewrite <- !app_assoc. simpl. done.
      - rewrite flat_map_app. simpl. rewrite app_nil_r, app_assoc.
        apply Forall_app. split; [done|]. by apply held_kids.
      - rewrite flat_map_app. simpl. rewrite app_nil_r, app_assoc, forestSize_app. lia.
      - by rewrite <- app_assoc. }
    destruct a as [|e a]; [|by apply Hstep].
    simpl app in *. rewrite app_nil_r in *.
    destruct (flat_map kidEntries b) as [|e a] eqn:E.
    + by rewrite levelOrder_nil.
    + destruct d as [|d].
      { apply Nat.le_0_r, forestSize_nil in Hd. done. }
      pose proof (forestSize_level (e :: a)) as Hl. simpl length in Hl.
      pose proof (Hstep e a [] d) as H1.
      change ((e :: a) ++ flat_map kidEntries []) with ((e :: a) ++ []) in H1.
      rewrite app_nil_r in H1. change ([] ++ e :: a) with (e :: a) in H1.
      rewrite H1; [done|done|done|]. lia.
Qed.

Lemma levelOrder_more d : ∀ d' (q : list (ltree T * str)),
  forestSize q ≤ d → d ≤ d' → levelOrder truthy d' q = levelOrder truthy d q.
Proof.
  induction d as [|d IH]; intros d' q Hq Hd.
  - apply Nat.le_0_r, forestSize_nil in Hq as ->. by rewrite !levelOrder_nil.
  - destruct d' as [|d']; [lia|]. simpl. f_equal.
    destruct q as [|e q]; [by rewrite !levelOrder_nil|].
    apply IH; [|lia]. pose proof (forestSize_level (e :: q)). simpl in *. lia.
Qed.

(** *** Both orders visit every node once *)

Lemma concat_reverse_perm {A} (ls : list (list A)) : concat (reverse ls) ≡ₚ concat ls.
Proof. by rewrite reverse_Permutation. Qed.

Lemma lastChildFirst_perm (t : ltree T) : ∀ fk,
  lastChildFirst truthy t fk ≡ₚ firstChildFirst truthy t fk.
Proof.
  induction t as [i k v kids IH] using ltree_ind'. intros fk. simpl.
  apply Permutation_app_head. rewrite concat_reverse_perm.
  induction IH as [|c kids Hc _ IHk]; simpl; [done|].
  by rewrite Hc, IHk.
Qed.

Lemma flat_map_app_perm {A B} (f g : A → list B) (l : list A) :
  flat_map (fun x => f x ++ g x) l ≡ₚ flat_map f l ++ flat_map g l.
Proof.
  induction l as [|x l IH]; simpl; [done|]. rewrite IH.
  rewrite <- !app_assoc. apply Permutation_app_head.
  rewrite !app_assoc. apply Permutation_app_tail. apply Permutation_app_comm.
Qed.

Lemma flat_map_flat_map {A B C} (f : A → list B) (g : B → list C) (l : list A) :
  flat_map g (flat_map f l) = flat_map (fun x => flat_map g (f x)) l.
Proof.
  induction l as [|x l IH]; simpl; [done|]. by rewrite flat_map_app, IH.
Qed.

Lemma levelOrder_perm d : ∀ q : list (ltree T * str),
  forestSize q ≤ d →
  levelOrder truthy d q ≡ₚ flat_map (fun e => firstChildFirst truthy e.1 e.2) q.
Proof.
  induction d as [|d IH]; intros q Hq.
  - apply Nat.le_0_r, forestSize_nil in Hq as ->. done.
  - simpl. destruct q as [|e q]; [by rewrite levelOrder_nil|].
    rewrite IH by (pose proof (forestSize_level (e :: q)); simpl in *; lia).
    rewrite flat_map_flat_map, <- flat_map_app_perm.
    erewrite flat_map_ext; [done|]. intros [[i k v kids] fk]. simpl.
    f_equal. unfold kidEntries. simpl.
    rewrite flat_map_concat_map, map_map, <- flat_map_concat_map. done.
Qed.

End WorkList.

Section Iteration.

Context {T : Type}.
Variable truthy : T → bool.

Lemma iterate_spec (t : TrieMap T) l order :
  shape t (Some l) → iterate truthy t None order = Some (treeIterate truthy l order).
Proof.
  intros (Hr & Hrep & Hnd & Hlen). destruct t as [r cs h]. simpl in *. subst r.
  unfold iterate. cbn [root nodes prefixGiven].
  rewrite (represents_root _ _ _ Hrep). cbn [mbind option_bind key].
  assert (Forall (held h) [(l, lkey l)]) as Hheld.
  { apply Forall_singleton. by exists None. }
  assert (forestSize [(l, lkey l)] = length (ids l)) as Hsize.
  { unfold forestSize. simpl. by rewrite app_nil_r. }
  change [(lid l, lkey l)] with (map entry [(l, lkey l)]).
  destruct order; unfold treeIterate.
  - pose proof (forestSize_level [(l, lkey l)]) as Hl.
    cbn [length flat_map] in Hl. rewrite app_nil_r in Hl.
    rewrite <- Hlen.
    destruct (length h) as [|n] eqn:E; [pose proof (ids_length_pos l); lia|].
    pose proof (iterateLoop_bfs truthy (Some (lid l)) cs h (S (S n))
                  [(l, lkey l)] [] n) as H.
    cbn [flat_map app] in H. rewrite app_nil_r in H. rewrite H; [|done|lia|lia].
    cbn [levelOrder flat_map]. by rewrite !app_nil_r.
  - rewrite iterateLoop_dfs; [|done|lia]. simpl. by rewrite app_nil_r.
Qed.

Lemma iterate_empty (t : TrieMap T) p order :
  shape t None → iterate truthy t p order = Some [].
Proof. intros [Hr _]. unfold iterate. by rewrite Hr. Qed.

Lemma firstChildFirst_nodes (t : TrieMap T) (s : ltree T) : ∀ p fk,
  represents (nodes t) p s →
  (∀ i fk', (i, fk') ∈ fullKeys s fk → pathKey t i = Some fk') →
  firstChildFirst truthy s fk = flat_map (nodeYield truthy t) (ids s).
Proof.
  induction s as [id k v kids IH] using ltree_ind'. intros p fk Hrep Hpk.
  apply represents_node in Hrep as [Hid Hk]. simpl. f_equal.
  - unfold nodeYield. rewrite Hid, (Hpk id fk); [done|]. left.
  - assert (∀ c, c ∈ kids → ∀ i fk', (i, fk') ∈ fullKeys c (fk ++ lkey c) →
                pathKey t i = Some fk') as Hpk'.
    { intros c Hc i fk' Hin. apply Hpk. simpl. right. apply elem_of_flat_map. eauto. }
    clear Hpk Hid.
    induction kids as [|c kids IHk]; simpl; [done|].
    apply Forall_cons in IH as [IHc IH]. apply Forall_cons in Hk as [Hc Hk].
    rewrite flat_map_app. f_equal.
    + eapply IHc; [done|]. apply Hpk'. left.
    + apply IHk; auto. intros d Hd. apply Hpk'. by right.
Qed.

Lemma shape_ids_perm (t : TrieMap T) l :
  shape t (Some l) → ids l ≡ₚ seq 0 (length (nodes t)).
Proof.
  intros Hs. pose proof Hs as (_ & Hrep & Hnd & _).
  apply NoDup_Permutation; [done|apply NoDup_seq|].
  intros i. rewrite elem_of_seq. split.
  - intros Hi. eapply represents_lt in Hi; [|done]. lia.
  - intros [_ Hi]. by eapply shape_ids.
Qed.

Lemma treeIterate_perm (t : TrieMap T) l order :
  shape t (Some l) → treeIterate truthy l order ≡ₚ allYields truthy t.
Proof.
  intros Hs. pose proof Hs as (_ & Hrep & _ & _).
  transitivity (firstChildFirst truthy l (lkey l)).
  - destruct order; simpl.
    + rewrite levelOrder_perm.
      * simpl. by rewrite app_nil_r.
      * unfold forestSize. simpl. by rewrite app_nil_r.
    + apply lastChildFirst_perm.
  - rewrite (firstChildFirst_nodes t l None); [|done|].
    + unfold allYields. apply Permutation_flat_map. by apply shape_ids_perm.
    + intros i fk'. by apply shape_pathKey.
Qed.

End Iteration.

Section Matching.

Context {T : Type}.

(** ** Lookup on the tree *)

Lemma norm_idemp cs w : norm cs (norm cs w) = norm cs w.
Proof. destruct cs; simpl; [done|]. apply toLowerCase_idemp. Qed.

Lemma norm_length cs w : length (norm cs w) = length w.
Proof. destruct cs; simpl; [done|]. apply toLowerCase_length. Qed.

Lemma norm_drop cs j w : norm cs (drop j w) = drop j (norm cs w).
Proof. destruct cs; simpl; [done|]. unfold toLowerCase. by rewrite fmap_drop. Qed.

Lemma storedKey_norm cs k : storedKey cs k = norm cs (keyAsString k).
Proof. by destruct cs. Qed.

Lemma matchList_matchOf cs p w :
  matchList cs p w = matchOf (common cs p w) (length p) (length w).
Proof. reflexivity. Qed.

Lemma common_norm cs p w : common cs p w = common true p (norm cs w).
Proof.
  destruct cs; [done|]. simpl.
  revert w. induction p as [|a p IH]; intros [|b w]; simpl; try done.
  change (charEq false a b) with (charEq true a (toLowerCaseChar b)).
  destruct (charEq true a (toLowerCaseChar b)); [|done]. f_equal. apply IH.
Qed.

Lemma matchList_norm cs p w : matchList cs p w = matchList true p (norm cs w).
Proof. by rewrite !matchList_matchOf, common_norm, norm_length. Qed.

Lemma common_take cs i p w : common cs (take i p) w = i `min` common cs p w.
Proof.
  revert i w. induction p as [|a p IH]; intros [|i] [|b w]; simpl; try done.
  destruct (charEq cs a b); [|done]. by rewrite IH.
Qed.

Lemma common_drop cs i p w :
  i ≤ common cs p w → common cs (drop i p) (drop i w) = common cs p w - i.
Proof.
  revert p w. induction i as [|i IH]; intros p w Hi; simpl.
  - by rewrite Nat.sub_0_r.
  - destruct p as [|a p], w as [|b w]; simpl in *; try lia.
    destruct (charEq cs a b); [|lia]. apply IH. lia.
Qed.

Lemma charEq_plain a b : a ≠ wildcard → charEq true a b = true → a = b.
Proof.
  unfold charEq. intros Ha. destruct (Ascii.eqb_spec a wildcard); [done|].
  simpl. by intros ?%Ascii.eqb_eq.
Qed.

Lemma charEq_refl a : charEq true a a = true.
Proof. unfold charEq. rewrite Ascii.eqb_refl. apply orb_true_r. Qed.

Lemma common_refl p : common true p p = length p.
Proof. induction p as [|a p IH]; simpl; [done|]. by rewrite charEq_refl, IH. Qed.

Lemma common_agree p w :
  wildcard ∉ p → take (common true p w) p = take (common true p w) w.
Proof.
  revert w. induction p as [|a p IH]; intros [|b w] Hp; simpl; try done.
  apply not_elem_of_cons in Hp as [Ha Hp].
  destruct (charEq true a b) eqn:E; [|done]. simpl.
  apply charEq_plain in E as ->; [|done]. f_equal. by apply IH.
Qed.

Lemma common_whole p w :
  wildcard ∉ p → common true p w = length p → length p = length w → p = w.
Proof.
  intros Hp Hc Hl. pose proof (common_agree p w Hp) as H.
  rewrite Hc in H. rewrite firstn_all in H. rewrite Hl, firstn_all in H. done.
Qed.

Lemma matchList_full p w : wildcard ∉ p → matchList true p w = full ↔ p = w.
Proof.
  intros Hp. split.
  - rewrite matchList_matchOf. unfold matchOf.
    repeat case_match; try done. intros _.
    repeat match goal with H : (_ =? _) = true |- _ => apply Nat.eqb_eq in H end.
    apply common_whole; auto; lia.
  - intros <-. rewrite matchList_matchOf, common_refl. unfold matchOf.
    by rewrite !Nat.eqb_refl.
Qed.

(** The traversal finds what [findAt] finds. *)
Lemma closestFrom_find cs (s : ltree T) : ∀ i sum fk adv w,
  match rmatch (closestFrom cs s i sum fk adv w) with
  | full => lval (rnode (closestFrom cs s i sum fk adv w))
  | _ => None
  end = findFrom cs s i w.
Proof.
  induction s as [id k val kids IH] using ltree_ind'. intros i sum fk adv w.
  cbn [closestFrom findFrom]. destruct (i =? length k); [|done].
  set (N := mkReached (LNode id k val kids) (TrieMapPrefixMatch i) fk sum 0).
  assert (match rmatch N with full => lval (rnode N) | _ => None end = None) as HN by done.
  clearbody N.
  induction kids as [|c kids IHk]; simpl; [done|].
  apply Forall_cons in IH as [IHc IH].
  destruct (matchList cs (lkey c) w); [done|by apply IHk|apply IHc].
Qed.

Lemma treeGet_findAt cs (l : ltree T) w : treeGet cs (Some l) w = findAt cs l w.
Proof.
  unfold treeGet, findAt, closest. simpl.
  destruct (matchList cs (lkey l) w); simpl; try done.
  apply closestFrom_find.
Qed.

Lemma scanWith_findFirst cs w (kids : list (ltree T)) :
  scanWith cs w lval (fun c j => findFrom cs c j (drop j w)) None kids
  = findFirst cs kids w.
Proof.
  induction kids as [|c kids IH]; simpl; [done|]. unfold findAt.
  destruct (matchList cs (lkey c) w); done.
Qed.

Lemma findFrom_eq cs i k (v : option T) kids n w :
  findFrom cs (LNode i k v kids) n w
  = if n =? length k then findFirst cs kids w else None.
Proof. cbn [findFrom]. by rewrite scanWith_findFirst. Qed.

Lemma findFirst_unmatched cs (pre l : list (ltree T)) w :
  Forall (unmatched cs w) pre → findFirst cs (pre ++ l) w = findFirst cs l w.
Proof. induction 1 as [|c pre Hc _ IH]; simpl; [done|]. by rewrite Hc. Qed.

Lemma findFirst_hit cs (c : ltree T) l w :
  matchList cs (lkey c) w ≠ none → findFirst cs (c :: l) w = findAt cs c w.
Proof. simpl. by destruct (matchList cs (lkey c) w). Qed.

Lemma findFirst_miss cs (c : ltree T) l w :
  matchList cs (lkey c) w = none → findFirst cs (c :: l) w = findFirst cs l w.
Proof. simpl. by intros ->. Qed.

(** ** get on the arena is lookup on the tree *)

Lemma closestFrom_held cs h (s : ltree T) : ∀ p i sum fk adv w,
  represents h p s → ∃ p', represents h p' (rnode (closestFrom cs s i sum fk adv w)).
Proof.
  induction s as [id k val kids IH] using ltree_ind'. intros p i sum fk adv w Hrep.
  cbn [closestFrom]. destruct (i =? length k); [|by exists p].
  destruct (scan_cases cs w kids) as [Hno | (pre & c & post & -> & Hpre & Hc)].
  - rewrite scanWith_unmatched by done. by exists p.
  - rewrite scanWith_hit by done. cbn [scanWith].
    apply represents_kids in Hrep. simpl in Hrep.
    apply Forall_app in Hrep as [_ Hrep]. apply Forall_cons in Hrep as [Hrc _].
    apply Forall_app in IH as [_ IH]. apply Forall_cons in IH as [IHc _].
    destruct (matchList cs (lkey c) w); [by exists (Some id)|done|by eapply IHc].
Qed.

Lemma getAt_spec (t : TrieMap T) lt kp :
  shape t lt → wellFormed kp →
  ∃ kp', getAt t kp = Some (treeGet (caseSensitive t) lt (content kp), kp').
Proof.
  intros Hs Hwf. destruct t as [r cs h]. unfold getAt. destruct lt as [l|].
  - destruct Hs as (Hr & Hrep & Hnd & Hlen). simpl in *. subst r.
    rewrite findClosestMatchingNode_spec; [|done|lia|done].
    cbn [mbind option_bind]. unfold treeGet, closest. cbn [mbind option_bind].
    destruct (matchList cs (lkey l) (content kp)) as [| |i] eqn:Hm.
    + cbn [reachedResult match_ node rnode rmatch nodes].
      rewrite (represents_root _ _ _ Hrep). eauto.
    + eauto.
    + cbn [mbind option_bind].
      set (R := closestFrom cs l i i (lkey l) i (drop i (content kp))).
      destruct (closestFrom_held cs h l None i i (lkey l) i (drop i (content kp)) Hrep)
        as [p' Hp']. fold R in Hp'.
      cbn [reachedResult match_ node nodes].
      destruct (rmatch R); eauto.
      rewrite (represents_root _ _ _ Hp'). eauto.
  - destruct Hs as [Hr Hn]. simpl in *. subst r. unfold findClosestMatchingNode.
    simpl. eauto.
Qed.

End Matching.

Section LookupAfterSet.

Context {T : Type}.

(** ** Lookup after insertion, without wildcards *)

Ltac eqbs :=
  repeat match goal with
         | H : (_ =? _) = true |- _ => apply Nat.eqb_eq in H
         | H : (_ =? _) = false |- _ => apply Nat.eqb_neq in H
         | H : (_ <? _) = true |- _ => apply Nat.ltb_lt in H
         | H : (_ <? _) = false |- _ => apply Nat.ltb_ge in H
         | H : (_ || _) = true |- _ => apply orb_true_iff in H as [H|H]
         | H : (_ || _) = false |- _ => apply orb_false_iff in H as [? ?]
         end.

Lemma noWildcard_node i k (v : option T) kids :
  noWildcard (LNode i k v kids) ↔ (wildcard ∉ k) ∧ Forall noWildcard kids.
Proof.
  unfold noWildcard. simpl. rewrite Forall_cons. apply and_iff_compat_l.
  rewrite Forall_flat_map. done.
Qed.

Lemma common_prefix_agree p w i :
  wildcard ∉ p → i ≤ common true p w → take i w = take i p.
Proof.
  intros Hp Hi. pose proof (common_agree p w Hp) as H.
  apply (f_equal (take i)) in H. rewrite !take_take in H.
  rewrite Nat.min_l in H by done. done.
Qed.

(** A node whose key is not wholly matched holds nothing for the text. *)
Lemma findAt_short i p (val : option T) kids w :
  common true p w < length p → findAt true (LNode i p val kids) w = None.
Proof.
  intros Hb. unfold findAt. cbn [lkey lval]. rewrite matchList_matchOf.
  unfold matchOf. repeat case_match; eqbs; simplify_eq; try done; try lia;
    rewrite findFrom_eq; case_match; eqbs; try done; lia.
Qed.

Lemma findAt_leaf i k (v : T) w :
  wildcard ∉ k →
  findAt true (LNode i k (Some v) []) w = if decide (w = k) then Some v else None.
Proof.
  intros Hk. unfold findAt. cbn [lkey lval].
  destruct (matchList true k w) as [| |j] eqn:Hm.
  - apply matchList_full in Hm as ->; [|done]. by rewrite decide_True.
  - rewrite decide_False; [done|]. intros ->.
    assert (matchList true k k = full) as E by (by apply matchList_full).
    congruence.
  - rewrite findFrom_eq. simpl. rewrite decide_False; [by case_match|]. intros ->.
    assert (matchList true k k = full) as E by (by apply matchList_full).
    congruence.
Qed.

Lemma findFirst_leaf i k (v : T) w :
  wildcard ∉ k →
  findFirst true [LNode i k (Some v) []] w = if decide (w = k) then Some v else None.
Proof.
  intros Hk. pose proof (findAt_leaf i k v w Hk) as H. simpl.
  destruct (matchList true k w) eqn:Hm; try done.
  unfold findAt in H. simpl in H. rewrite Hm in H. done.
Qed.

(** Lookup in a node split at [i]. *)
Lemma findAt_split i1 i2 p (val vtop : option T) kids extra n w :
  n < length p →
  findAt true (LNode i1 (take n p) vtop (LNode i2 (drop n p) val kids :: extra)) w
  = if common true p w <? n then None
    else if length w =? n then vtop
    else if common true p w =? n then findFirst true extra (drop n w)
    else findAt true (LNode i2 p val kids) w.
Proof.
  intros Hn. pose proof (common_le true p w) as [Hb1 Hb2].
  unfold findAt at 1. cbn [lkey lval]. rewrite matchList_matchOf.
  rewrite common_take, length_take, (Nat.min_l n (length p)) by lia.
  destruct (Nat.ltb_spec (common true p w) n) as [Hlt|Hge].
  - rewrite Nat.min_r by lia. unfold matchOf.
    assert (length (take n p) = n) as Ht by (rewrite length_take; lia).
    repeat case_match; eqbs; simplify_eq; try done; try lia;
      rewrite findFrom_eq; case_match; eqbs; try done; lia.
  - rewrite Nat.min_l by lia. unfold matchOf. rewrite Nat.eqb_refl.
    destruct (Nat.eqb_spec n (length w)) as [E|E].
    + rewrite <- E, Nat.eqb_refl. done.
    + replace (length w =? n) with false by (symmetry; apply Nat.eqb_neq; lia).
      replace ((0 <? n) || (n =? 0)) with true
        by (symmetry; destruct n; [apply orb_true_r|done]).
      rewrite findFrom_eq, length_take, (Nat.min_l n (length p)), Nat.eqb_refl by lia.
      assert (matchList true (drop n p) (drop n w)
              = matchOf (common true p w - n) (length p - n) (length w - n)) as Hm.
      { by rewrite matchList_matchOf, common_drop, !length_drop. }
      destruct (Nat.eqb_spec (common true p w) n) as [Eb|Eb].
      * rewrite findFirst_miss; [done|]. cbn [lkey]. rewrite Hm, Eb, Nat.sub_diag.
        unfold matchOf. repeat case_match; eqbs; simplify_eq; try done; lia.
      * rewrite findFirst_hit.
        2: { cbn [lkey]. rewrite Hm. unfold matchOf.
             repeat case_match; eqbs; simplify_eq; try done; lia. }
        unfold findAt. cbn [lkey lval]. rewrite Hm, matchList_matchOf.
        unfold matchOf.
        repeat case_match; eqbs; simplify_eq; try done; try lia;
          rewrite !findFrom_eq, ?length_drop, ?drop_drop;
          repeat case_match; eqbs; simplify_eq; try done; try lia;
          do 2 f_equal; lia.
Qed.

Lemma matched_whole p w :
  wildcard ∉ p → common true p w = length p → w = p ++ drop (length p) w.
Proof.
  intros Hp Hc. rewrite <- (take_drop (length p) w) at 1. f_equal.
  rewrite (common_prefix_agree p w (length p)) by (done || lia).
  apply firstn_all.
Qed.

Lemma matchList_refl p : matchList true p p = full.
Proof.
  rewrite matchList_matchOf, common_refl. unfold matchOf. by rewrite !Nat.eqb_refl.
Qed.

Lemma findFirst_none cs (kids : list (ltree T)) w :
  Forall (unmatched cs w) kids → findFirst cs kids w = None.
Proof.
  intros H. rewrite <- (app_nil_r kids). by rewrite findFirst_unmatched.
Qed.

Lemma findAt_withValue (v : T) (d : ltree T) w :
  wildcard ∉ lkey d →
  findAt true (withValue v d) w
  = if decide (w = lkey d) then Some v else findAt true d w.
Proof.
  intros Hd. destruct d as [i k val kids]. unfold withValue, findAt. cbn [lkey lval lid lkids].
  destruct (matchList true k w) as [| |j] eqn:Hm.
  - apply matchList_full in Hm as ->; [|done]. by rewrite decide_True.
  - rewrite decide_False; [done|]. intros ->. by rewrite matchList_refl in Hm.
  - rewrite decide_False; [by rewrite !findFrom_eq|].
    intros ->. by rewrite matchList_refl in Hm.
Qed.

(** Lookup below a node one of whose children was edited. *)
Lemma law_lift id p (val : option T) pre d d' post (v : T) ws wg i :
  wildcard ∉ p →
  matchList true p ws = TrieMapPrefixMatch i → i = length p →
  Forall (unmatched true (drop i ws)) pre →
  matchList true (lkey d) (drop i ws) ≠ none →
  (∀ wg', findAt true d' wg'
          = if decide (wg' = drop i ws) then Some v else findAt true d wg') →
  (∀ wg', wg' ≠ [] →
          matchList true (lkey d') wg' = none ↔ matchList true (lkey d) wg' = none) →
  findAt true (LNode id p val (pre ++ d' :: post)) wg
  = if decide (wg = ws) then Some v
    else findAt true (LNode id p val (pre ++ d :: post)) wg.
Proof.
  intros Hp Hm Hi Hpre Hd P1 P2.
  pose proof (matchList_common _ _ _ _ Hm) as Ha.
  assert (ws = p ++ drop i ws) as Hws.
  { rewrite Hi. apply matched_whole; [done|]. lia. }
  unfold findAt. cbn [lkey lval].
  destruct (matchList true p wg) as [| |j] eqn:Hg.
  - rewrite decide_False; [done|]. intros ->. congruence.
  - rewrite decide_False; [done|]. intros ->. congruence.
  - rewrite !findFrom_eq. destruct (Nat.eqb_spec j (length p)) as [Hj|Hj].
    2: { rewrite decide_False; [done|]. intros ->. congruence. }
    pose proof (matchList_common _ _ _ _ Hg) as Hb.
    assert (wg = p ++ drop j wg) as Hwg.
    { rewrite Hj. apply matched_whole; [done|]. lia. }
    assert (drop j wg ≠ []) as Hne.
    { pose proof (matchList_prefix_whole _ _ _ _ Hg Hj).
      intros E. apply (f_equal length) in E. rewrite length_drop in E. simpl in E. lia. }
    assert (wg = ws ↔ drop j wg = drop i ws) as Heq.
    { split; [intros ->; by simplify_eq|].
      intros E. rewrite Hwg, Hws. by rewrite E. }
    destruct (scan_cases true (drop j wg) pre)
      as [Hno | (pre1 & e & pre2 & -> & Hpre1 & He)].
    + rewrite !findFirst_unmatched by done.
      destruct (matchList true (lkey d) (drop j wg)) as [| |j'] eqn:Hdg.
      * rewrite !findFirst_hit; [|congruence|rewrite P2; [congruence|done]].
        rewrite P1. destruct (decide (drop j wg = drop i ws)) as [E|E].
        -- by rewrite decide_True by (by apply Heq).
        -- by rewrite decide_False by (by rewrite Heq).
      * rewrite !findFirst_miss; [|done|by apply P2].
        rewrite decide_False; [done|]. rewrite Heq. intros E. congruence.
      * rewrite !findFirst_hit; [|congruence|rewrite P2; [congruence|done]].
        rewrite P1. destruct (decide (drop j wg = drop i ws)) as [E|E].
        -- by rewrite decide_True by (by apply Heq).
        -- by rewrite decide_False by (by rewrite Heq).
    + rewrite decide_False.
      2: { rewrite Heq. intros E.
           apply Forall_app in Hpre as [_ Hpre]. apply Forall_cons in Hpre as [Hpe _].
           unfold unmatched in Hpe. congruence. }
      rewrite <- !app_assoc.
      rewrite (findFirst_unmatched _ pre1 (_ ++ d' :: post)) by done.
      rewrite (findFirst_unmatched _ pre1 (_ ++ d :: post)) by done.
      rewrite <- !app_comm_cons. by rewrite !findFirst_hit by done.
Qed.

Lemma take_all_length (w : str) : take (length w) w = w.
Proof. apply firstn_all. Qed.

Lemma exhausted_same p ws wg i :
  wildcard ∉ p → common true p ws = i → length ws = i →
  i ≤ common true p wg → length wg = i → wg = ws.
Proof.
  intros Hp Ha Hl Hb Hg.
  assert (take i wg = take i ws) as E.
  { rewrite (common_prefix_agree p wg i), (common_prefix_agree p ws i); auto; lia. }
  rewrite <- (take_all_length wg), <- (take_all_length ws) in E.
  rewrite Hl, Hg in E. rewrite !take_take, Nat.min_id in E.
  rewrite <- Hg in E at 1. rewrite <- Hl in E.
  by rewrite !take_all_length in E.
Qed.

Lemma diverged_same p ws wg i :
  wildcard ∉ p → common true p ws = i → i ≤ common true p wg →
  drop i wg = drop i ws → wg = ws.
Proof.
  intros Hp Ha Hb Hd.
  assert (take i wg = take i ws) as E.
  { rewrite (common_prefix_agree p wg i), (common_prefix_agree p ws i); auto; lia. }
  rewrite <- (take_drop i wg), <- (take_drop i ws). by rewrite E, Hd.
Qed.

Section Law.

Variables (f : nat) (v : T) (ks : str).
Hypothesis Hks : wildcard ∉ ks.

Lemma drop_plain n : wildcard ∉ drop n ks.
Proof. intros H. apply Hks. eapply subseteq_drop. done. Qed.

(** The edit of a partial match inside the key of a node. *)
Lemma editNode_law id p (val : option T) kids i sb wg :
  wildcard ∉ p → sb ≤ length ks →
  matchList true p (drop sb ks) = TrieMapPrefixMatch i → i < length p →
  findAt true (editNode f v ks (LNode id p val kids) i (sb + i)) wg
  = (if decide (wg = drop sb ks) then Some v else findAt true (LNode id p val kids) wg)
  ∧ (p ≠ [] → drop sb ks ≠ [] → wg ≠ [] →
     (matchList true (lkey (editNode f v ks (LNode id p val kids) i (sb + i))) wg = none
      ↔ matchList true p wg = none)).
Proof.
  intros Hp Hsb Hm Hi.
  pose proof (matchList_common _ _ _ _ Hm) as Ha. symmetry in Ha.
  pose proof (matchList_prefix_le _ _ _ _ Hm) as [Hiw _].
  pose proof (common_le true p wg) as [Hb1 Hb2].
  rewrite length_drop in Hiw.
  assert (lkey (editNode f v ks (LNode id p val kids) i (sb + i)) = take i p) as Hk.
  { unfold editNode. repeat case_match; eqbs; try done; lia. }
  split.
  2: { intros Hpn Hwn Hgn. rewrite Hk.
       pose proof (matchList_prefix_pos _ _ _ _ Hm Hpn Hwn).
       rewrite !matchList_matchOf, common_take, length_take.
       destruct wg as [|c wg]; [done|]. simpl length in *.
       unfold matchOf. repeat case_match; eqbs; simplify_eq; try done; lia. }
  assert (findAt true (LNode id p val kids) wg = None ∨ i < common true p wg) as Hshort.
  { destruct (Nat.ltb_spec i (common true p wg)); [by right|left].
    apply findAt_short. lia. }
  unfold editNode.
  destruct (Nat.eqb_spec i (length ks)) as [E1|E1];
    [|replace (i <? length p) with true by (symmetry; apply Nat.ltb_lt; lia);
      destruct (Nat.eqb_spec (sb + i) (length ks)) as [E2|E2]].
  1,2: rewrite findAt_split by done; cbn [findFirst].
  3: rewrite findAt_split, findFirst_leaf by (done || apply drop_plain).
  all: destruct (decide (wg = drop sb ks)) as [->|Hne].
  - rewrite Ha, Nat.ltb_irrefl, length_drop.
    by replace (length ks - sb =? i) with true by (symmetry; apply Nat.eqb_eq; lia).
  - repeat case_match; eqbs; try done; try (destruct Hshort; [done|lia]).
    exfalso. apply Hne. eapply exhausted_same; eauto. rewrite length_drop. lia.
  - rewrite Ha, Nat.ltb_irrefl, length_drop.
    by replace (length ks - sb =? i) with true by (symmetry; apply Nat.eqb_eq; lia).
  - repeat case_match; eqbs; try done; try (destruct Hshort; [done|lia]).
    exfalso. apply Hne. eapply exhausted_same; eauto. rewrite length_drop. lia.
  - rewrite Ha, Nat.ltb_irrefl, length_drop, Nat.eqb_refl.
    replace (length ks - sb =? i) with false by (symmetry; apply Nat.eqb_neq; lia).
    rewrite drop_drop. by rewrite decide_True.
  - repeat case_match; eqbs; try done; try (destruct Hshort; [done|lia]).
    exfalso. apply Hne. apply (diverged_same p _ _ i); [done|done|lia|].
    by rewrite drop_drop.
Qed.

Lemma insertFrom_law (c : ltree T) :
  noWildcard c → properKeys c →
  ∀ i sb wg, sb ≤ length ks →
    matchList true (lkey c) (drop sb ks) = TrieMapPrefixMatch i →
    findAt true (insertFrom true f v ks c i (sb + i) (drop (sb + i) ks)) wg
    = (if decide (wg = drop sb ks) then Some v else findAt true c wg)
    ∧ (lkey c ≠ [] → drop sb ks ≠ [] → wg ≠ [] →
       (matchList true
          (lkey (insertFrom true f v ks c i (sb + i) (drop (sb + i) ks))) wg = none
        ↔ matchList true (lkey c) wg = none)).
Proof.
  induction c as [id p val kids IH] using ltree_ind'.
  intros Hnw Hpk i sb wg Hsb Hm.
  apply noWildcard_node in Hnw as [Hp Hnw]. apply properKeys_inv in Hpk.
  pose proof (matchList_common _ _ _ _ Hm) as Ha. symmetry in Ha.
  pose proof (matchList_prefix_le _ _ _ _ Hm) as [Hiw Hip].
  rewrite length_drop in Hiw. cbn [lkey] in *.
  cbn [insertFrom]. destruct (Nat.eqb_spec i (length p)) as [Hi|Hi].
  2: { apply editNode_law; auto. lia. }
  pose proof (matchList_prefix_whole _ _ _ _ Hm Hi) as Hlt. rewrite length_drop in Hlt.
  assert (drop (sb + i) ks = drop i (drop sb ks)) as Hdd by (by rewrite drop_drop).
  destruct (scan_cases true (drop (sb + i) ks) kids)
    as [Hno | (pre & d & post & -> & Hpre & Hd)].
  - rewrite replaceScan_unmatched by done.
    unfold editNode.
    replace (i =? length ks) with false by (symmetry; apply Nat.eqb_neq; lia).
    replace (i <? length p) with false by (symmetry; apply Nat.ltb_ge; lia).
    split; [|done].
    assert (∀ wg',
              findAt true (LNode f (drop (sb + i) ks) (Some v) []) wg'
              = if decide (wg' = drop i (drop sb ks)) then Some v
                else findAt true (LNode f (drop (sb + i) ks) (Some v) []) wg') as P1.
    { intros wg'. rewrite findAt_leaf by apply drop_plain. rewrite Hdd.
      by destruct (decide _). }
    unfold findAt. cbn [lkey lval].
    destruct (decide (wg = drop sb ks)) as [->|Hne].
    + rewrite Hm, findFrom_eq, Hi, Nat.eqb_refl. rewrite <- Hi, <- Hdd.
      rewrite findFirst_unmatched by done. rewrite findFirst_leaf by apply drop_plain.
      by rewrite decide_True.
    + destruct (matchList true p wg) as [| |j] eqn:Hg; try done.
      rewrite !findFrom_eq. destruct (Nat.eqb_spec j (length p)) as [Hj|Hj]; [|done].
      destruct (scan_cases true (drop j wg) kids)
        as [Hno' | (pre & e & post & -> & Hpre & He)].
      * rewrite findFirst_unmatched, (findFirst_none _ kids) by done.
        rewrite findFirst_leaf by apply drop_plain.
        rewrite decide_False; [done|]. intros E. apply Hne.
        pose proof (matchList_common _ _ _ _ Hg) as Hb.
        eapply (diverged_same p); eauto; [lia|].
        rewrite Hdd in E. congruence.
      * rewrite <- !app_assoc.
        rewrite (findFirst_unmatched _ pre (e :: post)) by done.
        rewrite (findFirst_unmatched _ pre (_ ++ _)) by done.
        rewrite <- app_comm_cons. by rewrite !findFirst_hit by done.
  - rewrite replaceScan_hit by done. cbn [replaceScan].
    rewrite Forall_app, Forall_cons in Hnw, Hpk, IH.
    destruct Hnw as (_ & Hnd & _), Hpk as (_ & [Hdk Hpd] & _), IH as (_ & IHd & _).
    assert (wildcard ∉ lkey d) as Hdw.
    { destruct d. apply noWildcard_node in Hnd. simpl. tauto. }
    destruct (matchList true (lkey d) (drop (sb + i) ks)) as [| |j] eqn:Hdm;
      [|done|]; cbn [fmap option_fmap option_map]; (split; [|done]).
    + apply matchList_full in Hdm; [|done].
      apply (law_lift id p val pre d (withValue v d) post v (drop sb ks) wg i Hp Hm Hi);
        rewrite <- ?Hdd; auto.
      * rewrite <- Hdm. by rewrite matchList_refl.
      * intros wg'. rewrite findAt_withValue by done. by rewrite Hdm.
    + assert (drop (sb + i) ks ≠ []) as Hne.
      { intros E. apply (f_equal length) in E. rewrite length_drop in E. simpl in E. lia. }
      rewrite drop_drop.
      apply (law_lift id p val pre d _ post v (drop sb ks) wg i Hp Hm Hi);
        rewrite <- ?Hdd; auto.
      * by rewrite Hdm.
      * intros wg'.
        destruct (IHd Hnd Hpd j (sb + i) wg') as [E _]; [lia|done|]. exact E.
      * intros wg' Hwg'.
        destruct (IHd Hnd Hpd j (sb + i) wg') as [_ E]; [lia|done|]. by apply E.
Qed.

End Law.

End LookupAfterSet.

Section LookupAfterSets.

Context {T : Type}.

(** ** [set] then [get], without wildcards *)

Lemma findAt_empty_key i (val : option T) kids w :
  findAt true (LNode i [] val kids) w
  = if decide (w = []) then val else findFirst true kids w.
Proof.
  unfold findAt. cbn [lkey lval]. destruct w as [|c w]; [done|].
  rewrite decide_False by done. rewrite matchList_matchOf. cbn [common length].
  unfold matchOf. cbn [Nat.eqb Nat.ltb Nat.leb orb]. by rewrite findFrom_eq.
Qed.

Lemma treeSet_law (lt : option (ltree T)) f ks v wg :
  (∀ l, lt = Some l → noWildcard l ∧ properKeys l) → wildcard ∉ ks →
  treeGet true (Some (treeSet true lt f ks v)) wg
  = if decide (wg = ks) then Some v else treeGet true lt wg.
Proof.
  intros Hinv Hks. rewrite treeGet_findAt. destruct lt as [t|]; cbn [treeSet].
  2: { by rewrite findAt_leaf. }
  destruct (Hinv t eq_refl) as [Hnw Hpk]. rewrite treeGet_findAt.
  assert (wildcard ∉ lkey t) as Hp.
  { destruct t. apply noWildcard_node in Hnw. simpl. tauto. }
  destruct (matchList true (lkey t) ks) as [| |i] eqn:Hm.
  - apply matchList_full in Hm; [|done]. rewrite findAt_withValue by done.
    by rewrite Hm.
  - pose proof (matchList_none _ _ _ Hm) as [Hpn Hkn].
    rewrite findAt_empty_key. destruct (decide (wg = [])) as [->|Hwg].
    + rewrite decide_False by done. symmetry.
      destruct t as [i p val kids]. apply findAt_short. simpl in *.
      destruct p; simpl in *; [done|lia].
    + destruct (matchList true (lkey t) wg) as [| |j] eqn:Hg.
      * rewrite findFirst_hit by congruence.
        rewrite decide_False; [done|]. intros E. rewrite E in Hg. congruence.
      * rewrite findFirst_miss, findFirst_leaf by done.
        destruct (decide (wg = ks)); [done|]. unfold findAt. by rewrite Hg.
      * rewrite findFirst_hit by congruence.
        rewrite decide_False; [done|]. intros E. rewrite E in Hg. congruence.
  - pose proof (insertFrom_law f v ks Hks t Hnw Hpk i 0 wg) as H.
    rewrite drop_0 in H. simpl in H. apply H; [lia|done].
Qed.

(** ** The invariants are kept *)

Lemma plain_take n (k : str) : wildcard ∉ k → wildcard ∉ take n k.
Proof. intros H Hin. apply H. eapply subseteq_take. done. Qed.

Lemma plain_drop n (k : str) : wildcard ∉ k → wildcard ∉ drop n k.
Proof. intros H Hin. apply H. eapply subseteq_drop. done. Qed.

Lemma noWildcard_leaf i k (v : option T) : wildcard ∉ k → noWildcard (LNode i k v []).
Proof. intros. apply noWildcard_node. split; [done|constructor]. Qed.

Lemma editNode_noWildcard f (v : T) ks (s : ltree T) i sum :
  noWildcard s → wildcard ∉ ks → noWildcard (editNode f v ks s i sum).
Proof.
  destruct s as [id k val kids]. intros Hs Hks.
  apply noWildcard_node in Hs as [Hk Hkids].
  assert (noWildcard (LNode (S f) (drop sum ks) (Some v) [])) as Hleaf.
  { apply noWildcard_leaf. by apply plain_drop. }
  assert (noWildcard (LNode f (drop sum ks) (Some v) [])) as Hleaf'.
  { apply noWildcard_leaf. by apply plain_drop. }
  assert (∀ j, noWildcard (LNode j (drop i k) val kids)) as Hrest.
  { intros j. apply noWildcard_node. split; [by apply plain_drop|done]. }
  unfold editNode. repeat case_match; apply noWildcard_node.
  - split; [by apply plain_take|]. apply Forall_singleton, Hrest.
  - split; [by apply plain_take|]. apply Forall_singleton, Hrest.
  - split; [by apply plain_take|]. apply Forall_cons. split; [apply Hrest|].
    by apply Forall_singleton.
  - split; [done|]. apply Forall_app. split; [done|]. by apply Forall_singleton.
Qed.

Lemma insertFrom_noWildcard cs f (v : T) ks (s : ltree T) : ∀ i sum w,
  noWildcard s → wildcard ∉ ks → noWildcard (insertFrom cs f v ks s i sum w).
Proof.
  induction s as [id k val kids IH] using ltree_ind'. intros i sum w Hs Hks.
  cbn [insertFrom]. destruct (i =? length k); [|by apply editNode_noWildcard].
  destruct (scan_cases cs w kids) as [Hno | (pre & c & post & -> & Hpre & Hc)].
  - rewrite replaceScan_unmatched by done. by apply editNode_noWildcard.
  - rewrite replaceScan_hit by done. cbn [replaceScan].
    apply noWildcard_node in Hs as [Hk Hkids].
    rewrite Forall_app, Forall_cons in Hkids, IH.
    destruct Hkids as (Hpre' & Hc' & Hpost'), IH as (_ & IHc & _).
    destruct (matchList cs (lkey c) w); [|done|]; cbn [fmap option_fmap option_map];
      apply noWildcard_node; (split; [done|]);
      rewrite Forall_app, Forall_cons; (split; [done|]); (split; [|done]).
    + destruct c. apply noWildcard_node in Hc'. by apply noWildcard_node.
    + by apply IHc.
Qed.

Lemma treeSet_noWildcard cs (lt : option (ltree T)) f ks v :
  (∀ l, lt = Some l → noWildcard l) → wildcard ∉ ks →
  noWildcard (treeSet cs lt f ks v).
Proof.
  intros Hinv Hks. destruct lt as [t|]; cbn [treeSet]; [|by apply noWildcard_leaf].
  specialize (Hinv t eq_refl).
  destruct (matchList cs (lkey t) ks).
  - destruct t. apply noWildcard_node in Hinv. by apply noWildcard_node.
  - apply noWildcard_node. split; [apply not_elem_of_nil|].
    apply Forall_cons. split; [done|]. by apply Forall_singleton, noWildcard_leaf.
  - by apply insertFrom_noWildcard.
Qed.

(** ** Case folding *)

Lemma toLowerCaseChar_wildcard c : toLowerCaseChar c = wildcard → c = wildcard.
Proof. destruct c as [[] [] [] [] [] [] [] []]; vm_compute; congruence. Qed.

Lemma norm_plain cs (w : str) : wildcard ∉ w → wildcard ∉ norm cs w.
Proof.
  destruct cs; [done|]. simpl. unfold toLowerCase. intros Hw Hin.
  apply list_elem_of_fmap in Hin as (c & Hc & Hin). symmetry in Hc.
  apply toLowerCaseChar_wildcard in Hc as ->. done.
Qed.

Lemma matchList_normal cs p w : norm cs w = w → matchList cs p w = matchList true p w.
Proof. intros H. by rewrite matchList_norm, H. Qed.

Lemma norm_drop_normal cs j w : norm cs w = w → norm cs (drop j w) = drop j w.
Proof. intros H. by rewrite norm_drop, H. Qed.

Lemma insertFrom_normal cs f (v : T) ks (s : ltree T) : ∀ i sum w,
  norm cs w = w →
  insertFrom cs f v ks s i sum w = insertFrom true f v ks s i sum w.
Proof.
  induction s as [id k val kids IH] using ltree_ind'. intros i sum w Hw.
  cbn [insertFrom]. destruct (i =? length k); [|done].
  assert (replaceScan cs w (withValue v)
            (fun c j => insertFrom cs f v ks c j (sum + j) (drop j w)) kids
          = replaceScan true w (withValue v)
              (fun c j => insertFrom true f v ks c j (sum + j) (drop j w)) kids) as ->;
    [|done].
  induction kids as [|c kids IHk]; [done|].
  apply Forall_cons in IH as [IHc IH]. cbn [replaceScan].
  rewrite (matchList_normal cs) by done. rewrite IHk by done.
  destruct (matchList true (lkey c) w); try done.
  rewrite IHc; [done|]. by apply norm_drop_normal.
Qed.

Lemma treeSet_normal cs (lt : option (ltree T)) f ks v :
  norm cs ks = ks → treeSet cs lt f ks v = treeSet true lt f ks v.
Proof.
  intros Hks. destruct lt as [t|]; [|done]. cbn [treeSet].
  rewrite (matchList_normal cs) by done.
  destruct (matchList true (lkey t) ks); try done.
  apply insertFrom_normal. by apply norm_drop_normal.
Qed.

Lemma findFrom_norm cs (s : ltree T) : ∀ i w,
  findFrom cs s i w = findFrom true s i (norm cs w).
Proof.
  induction s as [id k val kids IH] using ltree_ind'. intros i w.
  cbn [findFrom]. destruct (i =? length k); [|done].
  induction kids as [|c kids IHk]; [done|].
  apply Forall_cons in IH as [IHc IH]. cbn [scanWith].
  rewrite matchList_norm, IHk by done.
  destruct (matchList true (lkey c) (norm cs w)); try done.
  by rewrite IHc, norm_drop.
Qed.

Lemma treeGet_norm cs (lt : option (ltree T)) w :
  treeGet cs lt w = treeGet true lt (norm cs w).
Proof.
  destruct lt as [t|]; [|done]. rewrite !treeGet_findAt. unfold findAt.
  rewrite matchList_norm. destruct (matchList true (lkey t) (norm cs w)); try done.
  by rewrite findFrom_norm, norm_drop.
Qed.

(** ** A sequence of [set] calls *)

Lemma storedKey_normal cs k : norm cs (storedKey cs k) = storedKey cs k.
Proof. rewrite storedKey_norm. apply norm_idemp. Qed.

Lemma treeSetAll_get cs entries : ∀ (lt : option (ltree T)) w,
  (∀ l, lt = Some l → noWildcard l ∧ properKeys l) →
  Forall (fun e => wildcard ∉ keyAsString e.1) entries →
  treeGet cs (treeSetAll cs lt entries) w
  = match lastValue cs entries (norm cs w) with
    | Some v => Some v
    | None => treeGet cs lt w
    end.
Proof.
  induction entries as [|[k v] entries IH]; intros lt w Hinv He; [done|].
  apply Forall_cons in He as [Hk He]. simpl in Hk. cbn [treeSetAll lastValue].
  assert (wildcard ∉ storedKey cs k) as Hsk.
  { rewrite storedKey_norm. by apply norm_plain. }
  rewrite IH; [|intros l [= <-]|done].
  - destruct (lastValue cs entries (norm cs w)); [done|].
    rewrite treeGet_norm, treeSet_normal by apply storedKey_normal.
    rewrite treeSet_law by done.
    case_decide; [by rewrite decide_True|].
    rewrite decide_False by done. by rewrite <- treeGet_norm.
  - split.
    + apply treeSet_noWildcard; [|done]. intros l ->. by apply Hinv.
    + apply treeSet_proper. intros l ->. by apply Hinv.
Qed.

End LookupAfterSets.

Section SameKey.

Context {T : Type}.

(** ** [get] of the key just set, wildcards or not *)

Ltac eqbs :=
  repeat match goal with
         | H : (_ =? _) = true |- _ => apply Nat.eqb_eq in H
         | H : (_ =? _) = false |- _ => apply Nat.eqb_neq in H
         | H : (_ <? _) = true |- _ => apply Nat.ltb_lt in H
         | H : (_ <? _) = false |- _ => apply Nat.ltb_ge in H
         | H : (_ || _) = true |- _ => apply orb_true_iff in H as [H|H]
         | H : (_ || _) = false |- _ => apply orb_false_iff in H as [? ?]
         end.

Section Same.

Variables (f : nat) (v : T) (ks : str).

Lemma findFirst_own_leaf i (w : str) : findFirst true [LNode i w (Some v) []] w = Some v.
Proof. simpl. unfold findAt. simpl. by rewrite matchList_refl. Qed.

Lemma editNode_same id p (val : option T) kids i sb :
  sb ≤ length ks →
  matchList true p (drop sb ks) = TrieMapPrefixMatch i → i < length p →
  findAt true (editNode f v ks (LNode id p val kids) i (sb + i)) (drop sb ks) = Some v
  ∧ matchList true (lkey (editNode f v ks (LNode id p val kids) i (sb + i)))
      (drop sb ks) ≠ none.
Proof.
  intros Hsb Hm Hi.
  pose proof (matchList_common _ _ _ _ Hm) as Ha. symmetry in Ha.
  pose proof (matchList_prefix_le _ _ _ _ Hm) as [Hiw _].
  rewrite length_drop in Hiw.
  assert (lkey (editNode f v ks (LNode id p val kids) i (sb + i)) = take i p) as Hk.
  { unfold editNode. repeat case_match; eqbs; try done; lia. }
  split.
  2: { rewrite Hk, matchList_matchOf, common_take, length_take, Ha, length_drop.
       unfold matchOf. repeat case_match; eqbs; simplify_eq; try done; lia. }
  unfold editNode.
  destruct (Nat.eqb_spec i (length ks)) as [E1|E1];
    [|replace (i <? length p) with true by (symmetry; apply Nat.ltb_lt; lia);
      destruct (Nat.eqb_spec (sb + i) (length ks)) as [E2|E2]].
  all: rewrite findAt_split by done; rewrite Ha, Nat.ltb_irrefl, length_drop.
  - by replace (length ks - sb =? i) with true by (symmetry; apply Nat.eqb_eq; lia).
  - by replace (length ks - sb =? i) with true by (symmetry; apply Nat.eqb_eq; lia).
  - replace (length ks - sb =? i) with false by (symmetry; apply Nat.eqb_neq; lia).
    rewrite Nat.eqb_refl, drop_drop. apply findFirst_own_leaf.
Qed.

Lemma insertFrom_same (c : ltree T) :
  ∀ i sb, sb ≤ length ks →
    matchList true (lkey c) (drop sb ks) = TrieMapPrefixMatch i →
    findAt true (insertFrom true f v ks c i (sb + i) (drop (sb + i) ks)) (drop sb ks)
    = Some v
    ∧ matchList true
        (lkey (insertFrom true f v ks c i (sb + i) (drop (sb + i) ks))) (drop sb ks)
      ≠ none.
Proof.
  induction c as [id p val kids IH] using ltree_ind'.
  intros i sb Hsb Hm.
  pose proof (matchList_prefix_le _ _ _ _ Hm) as [Hiw Hip].
  rewrite length_drop in Hiw. cbn [lkey] in *.
  cbn [insertFrom]. destruct (Nat.eqb_spec i (length p)) as [Hi|Hi].
  2: { apply editNode_same; auto. lia. }
  pose proof (matchList_prefix_whole _ _ _ _ Hm Hi) as Hlt. rewrite length_drop in Hlt.
  assert (drop (sb + i) ks = drop i (drop sb ks)) as Hdd by (by rewrite drop_drop).
  destruct (scan_cases true (drop (sb + i) ks) kids)
    as [Hno | (pre & d & post & -> & Hpre & Hd)].
  - rewrite replaceScan_unmatched by done.
    unfold editNode.
    replace (i =? length ks) with false by (symmetry; apply Nat.eqb_neq; lia).
    replace (i <? length p) with false by (symmetry; apply Nat.ltb_ge; lia).
    cbn [lkey]. split; [|by rewrite Hm].
    unfold findAt. cbn [lkey lval].
    rewrite Hm, findFrom_eq, Hi, Nat.eqb_refl. rewrite <- Hi, <- Hdd.
    rewrite findFirst_unmatched by done. apply findFirst_own_leaf.
  - rewrite replaceScan_hit by done. cbn [replaceScan].
    rewrite Forall_app, Forall_cons in IH. destruct IH as (_ & IHd & _).
    assert (∀ d', findAt true d' (drop (sb + i) ks) = Some v →
                  matchList true (lkey d') (drop (sb + i) ks) ≠ none →
                  findAt true (LNode id p val (pre ++ d' :: post)) (drop sb ks) = Some v)
      as Hlift.
    { intros d' H1 H2. unfold findAt. cbn [lkey lval].
      rewrite Hm, findFrom_eq, Hi, Nat.eqb_refl. rewrite <- Hi, <- Hdd.
      rewrite findFirst_unmatched by done. by rewrite findFirst_hit. }
    destruct (matchList true (lkey d) (drop (sb + i) ks)) as [| |j] eqn:Hdm;
      [|done|]; cbn [fmap option_fmap option_map lkey]; (split; [|by rewrite Hm]).
    + apply Hlift.
      * destruct d as [di dk dv dkids]. unfold withValue, findAt. cbn [lkey lval lid lkids].
        cbn [lkey] in Hdm. by rewrite Hdm.
      * destruct d. cbn [withValue lkey lid lkids] in *. by rewrite Hdm.
    + rewrite drop_drop. destruct (IHd j (sb + i)) as [H1 H2]; [lia|done|].
      by apply Hlift.
Qed.

Lemma treeSet_same (lt : option (ltree T)) :
  treeGet true (Some (treeSet true lt f ks v)) ks = Some v.
Proof.
  rewrite treeGet_findAt. destruct lt as [t|]; cbn [treeSet].
  2: { unfold findAt. cbn [lkey lval]. by rewrite matchList_refl. }
  destruct (matchList true (lkey t) ks) as [| |i] eqn:Hm.
  - destruct t as [ti tk tv tkids]. unfold withValue, findAt. cbn [lkey lval lid lkids].
    cbn [lkey] in Hm. by rewrite Hm.
  - pose proof (matchList_none _ _ _ Hm) as [Hpn Hkn].
    rewrite findAt_empty_key, decide_False by done.
    rewrite findFirst_miss by done. apply findFirst_own_leaf.
  - pose proof (insertFrom_same t i 0) as H.
    rewrite drop_0 in H. simpl in H. apply H; [lia|done].
Qed.

End Same.

End SameKey.

Section GetSet.

Context {T : Type}.
Variable truthy : T → bool.

(** ** get and set on the arena *)

Lemma content_keyAsString k : wellFormedKey k → content (keyAsPointer k) = keyAsString k.
Proof.
  destruct k as [kp|s]; [|intros _; apply content_keyString].
  intros (H0 & H1 & H2). unfold content, keyAsString, slice. simpl in *.
  destruct (Z.ltb_spec (pos kp) 0), (Z.ltb_spec (posMax kp) 0); try lia.
  rewrite !Z.min_l by lia. done.
Qed.

Lemma get_spec (t : TrieMap T) lt k :
  shape t lt → wellFormedKey k →
  ∃ k', get t k = Some (treeGet (caseSensitive t) lt (keyAsString k), k').
Proof.
  intros Hs Hwf. unfold get.
  destruct (getAt_spec t lt (keyAsPointer k) Hs Hwf) as [kp' ->].
  rewrite content_keyAsString by done. simpl. eauto.
Qed.

Lemma treeSetAll_invariants cs entries (l : ltree T) :
  Forall (fun e => wildcard ∉ keyAsString e.1) entries →
  treeSetAll cs None entries = Some l → noWildcard l ∧ properKeys l.
Proof.
  assert (∀ (lt : option (ltree T)) es,
            (∀ l, lt = Some l → noWildcard l ∧ properKeys l) →
            Forall (fun e => wildcard ∉ keyAsString e.1) es →
            ∀ l, treeSetAll cs lt es = Some l → noWildcard l ∧ properKeys l) as H.
  { intros lt es. revert lt. induction es as [|[k v] es IH]; intros lt Hinv He l'; simpl.
    - apply Hinv.
    - apply Forall_cons in He as [Hk He]. apply IH; [|done].
      intros l2 [= <-]. split.
      + apply treeSet_noWildcard; [intros l3 ->; by apply Hinv|].
        rewrite storedKey_norm. by apply norm_plain.
      + apply treeSet_proper. intros l3 ->. by apply Hinv. }
  intros He. by apply H.
Qed.


(** [get] of a key that is stored as the key just set. *)
Lemma set_get (t : TrieMap T) k k' v :
  reachable t → wellFormedKey k' →
  storedKey (caseSensitive t) k' = storedKey (caseSensitive t) k →
  ∃ t' k'', set t k v = Some t' ∧ get t' k' = Some (Some v, k'').
Proof.
  intros Hr Hk' Hkk. destruct (reachable_shape t Hr) as [entries Hs].
  destruct (set_shape t _ k v Hs) as (t' & Ht' & Hs' & Hcs).
  destruct (get_spec t' _ k' Hs' Hk') as [k'' Hg].
  exists t', k''. split; [done|]. rewrite Hg, Hcs. do 2 f_equal.
  rewrite treeGet_norm, treeSet_normal by apply storedKey_normal.
  rewrite <- storedKey_norm, Hkk. apply treeSet_same.
Qed.


(** ** Values that are not truthy *)





Lemma walkUp_truthy fuel (t : TrieMap T) : ∀ n fk p fk',
  walkUp truthy fuel t n fk = Some (Some p, fk') →
  ∃ pn, nodes t !! p = Some pn ∧ truthyValue truthy (value pn) = true.
Proof.
  induction fuel as [|fuel IH]; intros n fk p fk'; [done|]. simpl.
  destruct (nodes t !! n) as [nd|]; [|done]. simpl.
  destruct (parent nd) as [q|]; [|done].
  destruct (nodes t !! q) as [qn|] eqn:Hq; [|done]. simpl.
  destruct (truthyValue truthy (value qn)) eqn:Hv.
  - intros [= <- _]. eauto.
  - apply IH.
Qed.

End GetSet.

Section Retries.

Context {T : Type}.
Variable truthy : T → bool.

(** ** The window after a traversal *)

Lemma closestLoop_pointer fuel (t : TrieMap T) orig : ∀ cand i sum fk kp r kp',
  closestLoop fuel t orig cand i sum fk kp = Some (r, kp') →
  (orig ≤ pos kp)%Z →
  data kp' = data kp ∧ posMax kp' = posMax kp ∧ (orig ≤ pos kp')%Z.
Proof.
  induction fuel as [|fuel IH]; intros cand i sum fk kp r kp'; [done|]. simpl.
  destruct (nodes t !! cand) as [cn|]; [|done]. simpl.
  destruct (i =? length (key cn)).
  - destruct (scanChildren t (children cn) kp) as [[c ck|c ck j|]|]; simpl; try done.
    + intros [= _ <-]. done.
    + intros H Ho. apply IH in H; simpl in *; [|lia]. done.
    + intros [= _ <-] Ho. simpl. repeat split; lia.
  - intros [= _ <-] Ho. simpl. repeat split; lia.
Qed.

Lemma findClosestMatchingNode_pointer (t : TrieMap T) kp r kp' :
  findClosestMatchingNode t kp = Some (r, kp') →
  data kp' = data kp ∧ posMax kp' = posMax kp ∧ (pos kp ≤ pos kp')%Z.
Proof.
  unfold findClosestMatchingNode. destruct (root t) as [rt|]; [|by intros [= _ <-]].
  destruct (nodes t !! rt) as [rn|]; [|done]. cbn [mbind option_bind].
  destruct (matchPrefix (caseSensitive t) (key rn) kp) as [[| |i]|];
    cbn [mbind option_bind]; try done; try (by intros [= _ <-]).
  intros H. apply closestLoop_pointer in H; simpl in *; [done|lia].
Qed.

Lemma longestPrefixCandidate_pointer (t : TrieMap T) kp c kp' :
  longestPrefixCandidate truthy t kp = Some (c, kp') →
  data kp' = data kp ∧ posMax kp' = posMax kp ∧ (pos kp ≤ pos kp')%Z.
Proof.
  unfold longestPrefixCandidate.
  destruct (findClosestMatchingNode t kp) as [[r kp1]|] eqn:E; [|done].
  apply findClosestMatchingNode_pointer in E. cbn [mbind option_bind].
  destruct r as [r|]; [|by intros [= _ <-]].
  destruct (nodes t !! node r) as [nd|]; [|done]. cbn [mbind option_bind].
  destruct (match_ r) as [| |i], (value nd) as [x|]; try (by intros [= _ <-]).
  destruct (i =? length (key nd)); [by intros [= _ <-]|].
  destruct (walkUp truthy _ t (node r) (fullKey r)) as [[[p|] fk]|];
    cbn [mbind option_bind]; try done; by intros [= _ <-].
Qed.

(** ** The retries of the boundary-aware search *)

Lemma findByLongestPrefixLoop_step fuel (t : TrieMap T) kp wb :
  findByLongestPrefixLoop truthy (S fuel) t kp wb
  = '(cand, kp') ← longestPrefixCandidate truthy t kp;
    match cand with
    | None => Some (None, kp')
    | Some (n, fk) =>
        if wb && rejects kp' (length fk)
        then findByLongestPrefixLoop truthy fuel t
               (narrow kp' (pos kp' + Z.of_nat (length fk) - 1)) true
        else
          nd ← nodes t !! n;
          match value nd with
          | Some v => Some (if truthy v then Some (fk, v) else None, kp')
          | None => Some (None, kp')
          end
    end.
Proof.
  cbn [findByLongestPrefixLoop]. unfold rejects.
  destruct (longestPrefixCandidate truthy t kp) as [[[[n fk]|] kp1]|]; try done.
  cbn [mbind option_bind]. by rewrite andb_assoc.
Qed.

(** Any fuel above [retryFuel] gives what [retryFuel] gives. *)
Lemma findByLongestPrefixLoop_fuel (t : TrieMap T) f1 : ∀ f2 kp wb,
  retryFuel kp ≤ f1 → retryFuel kp ≤ f2 →
  findByLongestPrefixLoop truthy f1 t kp wb = findByLongestPrefixLoop truthy f2 t kp wb.
Proof.
  induction f1 as [|f1 IH]; intros f2 kp wb H1 H2; [unfold retryFuel in H1; lia|].
  destruct f2 as [|f2]; [unfold retryFuel in H2; lia|].
  rewrite !findByLongestPrefixLoop_step.
  destruct (longestPrefixCandidate truthy t kp) as [[[[n fk]|] kp1]|] eqn:E; try done.
  cbn [mbind option_bind].
  destruct (wb && rejects kp1 (length fk)) eqn:Hr; [|done].
  apply andb_true_iff in Hr as [_ Hr]. unfold rejects in Hr.
  apply andb_true_iff in Hr as [Hr _]. apply Z.ltb_lt in Hr.
  apply longestPrefixCandidate_pointer in E as (_ & Hpm & Hp).
  apply IH; unfold retryFuel in *; simpl; lia.
Qed.

Lemma findByLongestPrefixAt_unfold (t : TrieMap T) kp wb :
  findByLongestPrefixAt truthy t kp wb
  = '(cand, kp') ← longestPrefixCandidate truthy t kp;
    match cand with
    | None => Some (None, kp')
    | Some (n, fk) =>
        if wb && rejects kp' (length fk)
        then findByLongestPrefixAt truthy t
               (narrow kp' (pos kp' + Z.of_nat (length fk) - 1)) true
        else
          nd ← nodes t !! n;
          match value nd with
          | Some v => Some (if truthy v then Some (fk, v) else None, kp')
          | None => Some (None, kp')
          end
    end.
Proof.
  unfold findByLongestPrefixAt at 1. unfold retryFuel at 1.
  rewrite findByLongestPrefixLoop_step.
  destruct (longestPrefixCandidate truthy t kp) as [[[[n fk]|] kp1]|] eqn:E; try done.
  cbn [mbind option_bind].
  destruct (wb && rejects kp1 (length fk)) eqn:Hr; [|done].
  apply andb_true_iff in Hr as [_ Hr]. unfold rejects in Hr.
  apply andb_true_iff in Hr as [Hr _]. apply Z.ltb_lt in Hr.
  apply longestPrefixCandidate_pointer in E as (_ & Hpm & Hp).
  unfold findByLongestPrefixAt.
  apply findByLongestPrefixLoop_fuel; unfold retryFuel; simpl; lia.
Qed.

End Retries.

Section WindowPosition.

Context {T : Type}.
Variable truthy : T → bool.

(** ** Where the traversal leaves [pos] *)

Lemma matchList_full_length cs p w : matchList cs p w = full → length p = length w.
Proof.
  rewrite matchList_matchOf. unfold matchOf.
  repeat case_match; try done. intros _.
  repeat match goal with H : (_ =? _) = true |- _ => apply Nat.eqb_eq in H end. lia.
Qed.

Lemma closestFrom_full_length cs (s : ltree T) : ∀ i sum fk adv w,
  (i = length (lkey s) → length fk = adv) →
  rmatch (closestFrom cs s i sum fk adv w) = full →
  length (rfullKey (closestFrom cs s i sum fk adv w)) = adv + length w.
Proof.
  induction s as [id k val kids IH] using ltree_ind'. intros i sum fk adv w Hfk.
  cbn [closestFrom]. destruct (Nat.eqb_spec i (length k)) as [Hi|Hi]; [|done].
  specialize (Hfk Hi).
  destruct (scan_cases cs w kids) as [Hno | (pre & c & post & -> & Hpre & Hc)].
  - by rewrite scanWith_unmatched.
  - rewrite scanWith_hit by done. cbn [scanWith].
    apply Forall_app in IH as [_ IH]. apply Forall_cons in IH as [IHc _].
    destruct (matchList cs (lkey c) w) as [| |j] eqn:Hm; [|done|].
    + intros _. cbn [rfullKey]. rewrite length_app.
      apply matchList_full_length in Hm. lia.
    + intros Hf. rewrite IHc; [|rewrite length_app; lia|done].
      apply matchList_prefix_le in Hm as [Hj _]. rewrite length_drop. lia.
Qed.

Lemma closest_full_length cs (l : ltree T) w r :
  closest cs l w = Some r → rmatch r = full → length (rfullKey r) = length w.
Proof.
  unfold closest. destruct (matchList cs (lkey l) w) as [| |i] eqn:Hm; [|done|].
  - intros [= <-] _. by apply matchList_full_length in Hm.
  - intros [= <-] Hf. rewrite closestFrom_full_length; [|done|done].
    apply matchList_prefix_le in Hm as [Hi _]. rewrite length_drop. lia.
Qed.

(** On a trie built by [set], the traversal leaves a well-formed window
    as it was, unless it ends in a full match, and then the full key is
    as long as the window. *)
Lemma traversal_pointer (t : TrieMap T) kp res kp' :
  reachable t → wellFormed kp →
  findClosestMatchingNode t kp = Some (res, kp') →
  kp' = kp
  ∨ ∃ r, res = Some r ∧ match_ r = full
         ∧ Z.of_nat (length (fullKey r)) = (posMax kp - pos kp)%Z.
Proof.
  intros Hr Hwf. destruct (reachable_shape t Hr) as [entries Hs].
  destruct (treeSetAll (caseSensitive t) None entries) as [l|] eqn:El.
  2: { destruct Hs as [Hroot _]. unfold findClosestMatchingNode. rewrite Hroot.
       intros [= _ <-]. by left. }
  pose proof Hs as (Hroot & Hrep & Hnd & Hlen).
  destruct t as [rt cs h]. simpl in *. subst rt.
  rewrite findClosestMatchingNode_spec; [|done|lia|done].
  destruct (closest cs l (content kp)) as [R|] eqn:E; [|intros [= _ <-]; by left].
  intros [= <- <-].
  assert (rmatch R = full ∨ radvance R = 0) as [Hf|Ha].
  { unfold closest in E. destruct (matchList cs (lkey l) (content kp)); simplify_eq.
    - by left.
    - apply closestFrom_advance. }
  - right. exists (reachedResult R). split; [done|]. split; [done|].
    simpl. rewrite (closest_full_length _ _ _ _ E Hf), content_length by done.
    destruct Hwf as (? & ? & ?). lia.
  - left. unfold pointerAfter, restore. rewrite Ha. destruct kp; simpl. f_equal. lia.
Qed.

Lemma candidate_pointer (t : TrieMap T) kp n fk kp' :
  reachable t → wellFormed kp →
  longestPrefixCandidate truthy t kp = Some (Some (n, fk), kp') →
  kp' = kp ∨ Z.of_nat (length fk) = (posMax kp - pos kp)%Z.
Proof.
  intros Hr Hwf. unfold longestPrefixCandidate.
  destruct (findClosestMatchingNode t kp) as [[res kp1]|] eqn:E; [|done].
  apply traversal_pointer in E; [|done|done]. cbn [mbind option_bind].
  destruct res as [r|]; [|done].
  destruct (nodes t !! node r) as [nd|]; [|done]. cbn [mbind option_bind].
  destruct E as [->|(r' & [= <-] & Hf & Hl)].
  - destruct (match_ r) as [| |i], (value nd) as [x|]; try done.
    + intros [= _ _ <-]. by left.
    + destruct (i =? length (key nd)); [intros [= _ _ <-]; by left|].
      destruct (walkUp truthy _ t (node r) (fullKey r)) as [[[p|] fk']|];
        cbn [mbind option_bind]; try done. intros [= _ _ <-]. by left.
  - rewrite Hf. destruct (value nd); [|done]. intros [= _ <- _]. by right.
Qed.

End WindowPosition.

Section Totality.

Context {T : Type}.
Variable truthy : T → bool.

(** ** The searches return *)

Lemma pathKey_total (t : TrieMap T) l i :
  shape t (Some l) → i < length (nodes t) → ∃ fk, pathKey t i = Some fk.
Proof.
  intros Hs Hi. pose proof (shape_ids t l i Hs Hi) as Hin.
  rewrite <- (fullKeys_ids l (lkey l)) in Hin.
  apply list_elem_of_fmap in Hin as ([j fk] & -> & Hin).
  exists fk. by eapply shape_pathKey.
Qed.

Lemma walkUp_total (t : TrieMap T) m : ∀ fuel i fk x,
  keyPath m (nodes t) i = Some x → m ≤ fuel →
  ∃ r, walkUp truthy fuel t i fk = Some r.
Proof.
  induction m as [|m IH]; intros fuel i fk x Hk Hf; [done|].
  destruct fuel as [|fuel]; [lia|]. rewrite keyPath_S in Hk. cbn [walkUp].
  destruct (nodes t !! i) as [nd|]; [|done]. cbn [mbind option_bind] in *.
  destruct (parent nd) as [p|]; [|eauto].
  destruct (keyPath m (nodes t) p) as [pre|] eqn:Hp; [|done].
  assert (is_Some (nodes t !! p)) as [pn Hpn].
  { destruct m; [done|]. rewrite keyPath_S in Hp.
    destruct (nodes t !! p); [eauto|done]. }
  rewrite Hpn. cbn [mbind option_bind].
  destruct (truthyValue truthy (value pn)); [eauto|].
  eapply IH; [done|lia].
Qed.

(** A window whose end lies before its position is matched by nothing:
    the loop of [matchPrefix] is not entered. *)
Lemma matchPrefix_inverted cs p kp :
  (posMax kp < pos kp)%Z → matchPrefix cs p kp = Some (TrieMapPrefixMatch 0).
Proof.
  intros H. unfold matchPrefix.
  replace (Z.to_nat (posMax kp - pos kp)) with 0 by lia. simpl.
  destruct (Z.eqb_spec (pos kp + Z.of_nat 0) (posMax kp)); [lia|done].
Qed.

Lemma scanChildren_held (t : TrieMap T) cs kp c ck :
  scanChildren t cs kp = Some (ScanFull c ck) → is_Some (nodes t !! c).
Proof.
  induction cs as [|d cs IH]; [done|]. simpl.
  destruct (nodes t !! d) as [dn|] eqn:Hd; [|done]. cbn [mbind option_bind].
  destruct (matchPrefix _ _ kp) as [[| |j]|]; cbn [mbind option_bind]; try done.
  intros [= <- _]. eauto.
Qed.

Lemma closestLoop_held fuel (t : TrieMap T) orig : ∀ cand i sum fk kp res kp',
  closestLoop fuel t orig cand i sum fk kp = Some (Some res, kp') →
  is_Some (nodes t !! node res).
Proof.
  induction fuel as [|fuel IH]; intros cand i sum fk kp res kp'; [done|]. simpl.
  destruct (nodes t !! cand) as [cn|] eqn:Hc; [|done]. cbn [mbind option_bind].
  destruct (i =? length (key cn)).
  - destruct (scanChildren t (children cn) kp) as [[c ck|c ck j|]|] eqn:Hs;
      cbn [mbind option_bind]; try done.
    + intros [= <- _]. simpl. by eapply scanChildren_held.
    + apply IH.
    + intros [= <- _]. simpl. eauto.
  - intros [= <- _]. simpl. eauto.
Qed.

Lemma traversal_held (t : TrieMap T) kp res kp' :
  findClosestMatchingNode t kp = Some (Some res, kp') →
  is_Some (nodes t !! node res).
Proof.
  unfold findClosestMatchingNode. destruct (root t) as [r|]; [|done].
  destruct (nodes t !! r) as [rn|] eqn:Hr; [|done]. cbn [mbind option_bind].
  destruct (matchPrefix _ _ kp) as [[| |i]|]; cbn [mbind option_bind]; try done.
  - intros [= <- _]. simpl. eauto.
  - apply closestLoop_held.
Qed.

Lemma candidate_held (t : TrieMap T) kp n fk kp' :
  longestPrefixCandidate truthy t kp = Some (Some (n, fk), kp') →
  is_Some (nodes t !! n).
Proof.
  unfold longestPrefixCandidate.
  destruct (findClosestMatchingNode t kp) as [[[r|] kp1]|]; cbn [mbind option_bind];
    try done.
  destruct (nodes t !! node r) as [nd|] eqn:Hn; [|done]. cbn [mbind option_bind].
  destruct (match_ r) as [| |i], (value nd) as [x|]; try done.
  - intros [= <- _ _]. eauto.
  - destruct (i =? length (key nd)); [intros [= <- _ _]; eauto|].
    destruct (walkUp truthy _ t (node r) (fullKey r)) as [[[p|] fk']|] eqn:Hw;
      cbn [mbind option_bind]; try done.
    intros [= <- _ _]. apply walkUp_truthy in Hw as (pn & -> & _). eauto.
Qed.

Lemma traversal_total (t : TrieMap T) lt kp :
  shape t lt → wellFormed kp → ∃ r, findClosestMatchingNode t kp = Some r.
Proof.
  intros Hs Hwf. destruct lt as [l|].
  - destruct Hs as (Hroot & Hrep & Hnd & Hlen).
    destruct t as [rt cs h]. simpl in *. subst rt.
    rewrite findClosestMatchingNode_spec; [eauto|done|lia|done].
  - destruct Hs as [Hroot _]. unfold findClosestMatchingNode. rewrite Hroot. eauto.
Qed.

Lemma traversal_total_inverted (t : TrieMap T) l kp :
  shape t (Some l) → properKeys l → (posMax kp < pos kp)%Z →
  ∃ r, findClosestMatchingNode t kp = Some r.
Proof.
  intros (Hroot & Hrep & Hnd & Hlen) Hp Hkp.
  unfold findClosestMatchingNode. rewrite Hroot.
  rewrite (represents_root _ _ _ Hrep). cbn [mbind option_bind key].
  rewrite matchPrefix_inverted by done.
  pose proof (ids_length_pos l) as Hpos.
  destruct (length (nodes t)) as [|n] eqn:Hn; [lia|].
  cbn [closestLoop]. rewrite (represents_root _ _ _ Hrep).
  cbn [mbind option_bind key children].
  destruct (0 =? length (lkey l)); [|eauto].
  apply represents_kids in Hrep. destruct l as [i k v kids]. simpl in *.
  apply properKeys_inv in Hp.
  destruct kids as [|c kids]; [simpl; eauto|].
  apply Forall_cons in Hrep as [Hc _]. apply Forall_cons in Hp as [[Hk _] _].
  cbn [map scanChildren]. rewrite (represents_root _ _ _ Hc).
  cbn [mbind option_bind key]. rewrite matchPrefix_inverted by (simpl; lia).
  cbn [mbind option_bind]. rewrite (represents_root _ _ _ Hc).
  cbn [mbind option_bind key].
  destruct (Nat.eqb_spec 0 (length (lkey c))) as [He|He]; [|eauto].
  destruct (lkey c); simpl in *; [done|lia].
Qed.

Lemma candidate_total (t : TrieMap T) kp :
  reachable t → wellFormed kp ∨ (posMax kp < pos kp)%Z →
  ∃ r, longestPrefixCandidate truthy t kp = Some r.
Proof.
  intros Hr Hkp. destruct (reachable_shape t Hr) as [entries Hs].
  assert (∃ r, findClosestMatchingNode t kp = Some r) as [[res kp1] E].
  { destruct Hkp as [Hwf|Hinv]; [by eapply traversal_total|].
    destruct (treeSetAll (caseSensitive t) None entries) as [l|] eqn:El.
    - apply (traversal_total_inverted t l kp Hs); [|done].
      by apply (treeSetAll_proper (caseSensitive t) entries None).
    - destruct Hs as [Hroot _]. unfold findClosestMatchingNode. rewrite Hroot. eauto. }
  unfold longestPrefixCandidate. rewrite E. cbn [mbind option_bind].
  destruct res as [r|]; [|eauto].
  destruct (traversal_held _ _ _ _ E) as [nd Hn]. rewrite Hn. cbn [mbind option_bind].
  destruct (match_ r) as [| |i], (value nd) as [x|]; eauto.
  destruct (i =? length (key nd)); [eauto|].
  destruct (treeSetAll (caseSensitive t) None entries) as [l|] eqn:El.
  2: { destruct Hs as [_ Hno]. rewrite Hno in Hn. done. }
  destruct (pathKey_total t l (node r) Hs) as [pk Hpk]; [by eapply lookup_lt_Some|].
  destruct (walkUp_total t _ (S (length (nodes t))) (node r) (fullKey r) pk Hpk)
    as [[up fk] ->]; [lia|].
  cbn [mbind option_bind]. destruct up; eauto.
Qed.

(** [findByLongestPrefix] returns on every trie built by [set] and every
    well-formed window. *)
Lemma findByLongestPrefixAt_total (t : TrieMap T) wb :
  reachable t → ∀ kp, wellFormed kp →
  ∃ r, findByLongestPrefixAt truthy t kp wb = Some r.
Proof.
  intros Hr kp.
  remember (Z.to_nat (posMax kp - pos kp)) as m eqn:Hm.
  revert wb kp Hm. induction (lt_wf m) as [m _ IH]. intros wb kp Hm Hwf.
  rewrite findByLongestPrefixAt_unfold.
  destruct (candidate_total t kp Hr (or_introl Hwf)) as [[cand kp1] E]. rewrite E.
  cbn [mbind option_bind]. destruct cand as [[n fk]|]; [|eauto].
  destruct (candidate_held _ _ _ _ _ E) as [nd Hn].
  destruct (wb && rejects kp1 (length fk)) eqn:Hrej.
  2: { rewrite Hn. cbn [mbind option_bind]. destruct (value nd); eauto. }
  apply andb_true_iff in Hrej as [_ Hrej]. unfold rejects in Hrej.
  apply andb_true_iff in Hrej as [Hlt _]. apply Z.ltb_lt in Hlt.
  pose proof (longestPrefixCandidate_pointer _ _ _ _ _ E) as (_ & Hpm & Hp).
  destruct (candidate_pointer _ _ _ _ _ _ Hr Hwf E) as [->|Hfull]; [|lia].
  destruct Hwf as (H0 & H1 & H2).
  destruct (length fk) as [|len] eqn:Hlen.
  - rewrite findByLongestPrefixAt_unfold.
    set (kp2 := narrow kp _).
    destruct (candidate_total t kp2 Hr) as [[cand2 kp3] E2];
      [right; subst kp2; simpl; lia|].
    rewrite E2. cbn [mbind option_bind]. destruct cand2 as [[n2 fk2]|]; [|eauto].
    destruct (candidate_held _ _ _ _ _ E2) as [nd2 Hn2].
    pose proof (longestPrefixCandidate_pointer _ _ _ _ _ E2) as (_ & Hpm2 & Hp2).
    replace (rejects kp3 (length fk2)) with false.
    + simpl. rewrite Hn2. cbn [mbind option_bind]. destruct (value nd2); eauto.
    + symmetry. unfold rejects. apply andb_false_iff. left. apply Z.ltb_ge.
      subst kp2. simpl in *. lia.
  - eapply (IH (Z.to_nat (pos kp + Z.of_nat (S len) - 1 - pos kp))); [|done|].
    + subst m. lia.
    + unfold wellFormed, narrow. simpl. lia.
Qed.

End Totality.

Section Values.

Context {T : Type}.
Variable truthy : T → bool.

(** ** The most recent value of a key *)

Lemma lastValue_Some cs (es : list (TrieMapKey * T)) w v :
  lastValue cs es w = Some v → ∃ k, (k, v) ∈ es ∧ storedKey cs k = w.
Proof.
  induction es as [|[k0 v0] es IH]; [done|]. simpl.
  destruct (lastValue cs es w) as [v'|].
  - intros [= ->]. destruct IH as (k & Hin & Hk); [done|].
    exists k. split; [by right|done].
  - destruct (decide (storedKey cs k0 = w)); [|done].
    intros [= ->]. exists k0. split; [left|done].
Qed.

Lemma lastValue_in cs (es : list (TrieMapKey * T)) k v :
  NoDup ((fun e => storedKey cs e.1) <$> es) → (k, v) ∈ es →
  lastValue cs es (storedKey cs k) = Some v.
Proof.
  induction es as [|[k0 v0] es IH]; intros Hnd Hin; [by apply elem_of_nil in Hin|].
  rewrite fmap_cons in Hnd. apply NoDup_cons in Hnd as [Hk0 Hnd]. simpl in *.
  apply elem_of_cons in Hin as [[= -> ->]|Hin].
  - destruct (lastValue cs es (storedKey cs k0)) as [v'|] eqn:E.
    + apply lastValue_Some in E as (k' & Hin & Hk'). destruct Hk0.
      apply list_elem_of_fmap. by exists (k', v').
    + by rewrite decide_True.
  - by rewrite IH.
Qed.

(** ** Matching a whole window *)

Lemma common_all cs p w :
  Forall2 (fun a b => charEq cs a b = true) p w → common cs p w = length w.
Proof. induction 1 as [|a b p w Hab _ IH]; simpl; [done|]. by rewrite Hab, IH. Qed.

Lemma matchList_all cs p w :
  Forall2 (fun a b => charEq cs a b = true) p w → matchList cs p w = full.
Proof.
  intros H. unfold matchList. rewrite (common_all _ _ _ H).
  apply Forall2_length in H. by rewrite Nat.eqb_refl, H, Nat.eqb_refl.
Qed.

(** ** The root is the node without a parent *)

Lemma parent_root (t : TrieMap T) l i nd :
  shape t (Some l) → nodes t !! i = Some nd →
  (parent nd = None ↔ root t = Some i).
Proof.
  intros Hs Hi. pose proof Hs as (Hroot & Hrep & Hnd & Hlen).
  pose proof (represents_root _ _ _ Hrep) as Hr. rewrite Hroot. split.
  - intros Hp. destruct (decide (i = lid l)) as [->|Hne]; [done|].
    assert (i ∈ ids l) as Hin
      by (eapply shape_ids; [done|]; by eapply lookup_lt_Some).
    destruct (tree_parent None l i Hnd Hin Hne) as (nd' & q & qn & Hc & Hq & _).
    apply Hrep in Hc. congruence.
  - intros [= <-]. rewrite Hr in Hi. by injection Hi as <-.
Qed.

(** ** What [iterate] yields *)

Lemma allYields_inv (t : TrieMap T) y :
  y ∈ allYields truthy t →
  ∃ i nd, nodes t !! i = Some nd ∧ value nd = Some y.2 ∧ truthy y.2 = true
          ∧ pathKey t i = Some y.1.
Proof.
  unfold allYields. intros H. apply elem_of_flat_map in H as (i & _ & H).
  unfold nodeYield in H. destruct (nodes t !! i) as [nd|] eqn:Hn;
    [|by apply elem_of_nil in H].
  destruct (pathKey t i) as [fk|] eqn:Hp; [|by apply elem_of_nil in H].
  unfold yieldOf in H.
  destruct (value nd) as [x|] eqn:Hv; [|by apply elem_of_nil in H].
  destruct (truthy x) eqn:Hx; [|by apply elem_of_nil in H].
  apply list_elem_of_singleton in H as ->. exists i, nd. done.
Qed.

Lemma iterate_yields (t : TrieMap T) order ys y :
  reachable t → iterate truthy t None order = Some ys → y ∈ ys →
  ∃ i nd, nodes t !! i = Some nd ∧ value nd = Some y.2 ∧ truthy y.2 = true
          ∧ pathKey t i = Some y.1.
Proof.
  intros Hr Hi Hy. destruct (reachable_shape t Hr) as [entries Hs].
  destruct (treeSetAll (caseSensitive t) None entries) as [l|].
  - rewrite (iterate_spec truthy t l) in Hi by done. injection Hi as <-.
    apply allYields_inv. by rewrite <- (treeIterate_perm truthy t l order).
  - rewrite (iterate_empty truthy t) in Hi by done. injection Hi as <-.
    by apply elem_of_nil in Hy.
Qed.

End Values.

Section Properties.

Context {T : Type}.
Variable truthy : T → bool.

(** * The properties of the search operations *)

(** C9: in every trie built from the empty trie by [set], every node
    other than the root has a non-empty key; every node has a full key,
    the concatenation of the keys along its parent chain, which ends at
    the root, and the full key the traversal reports for a node, and the
    key [iterate] yields with the value of a node, is that concatenation;
    every node other than the root has a parent, whose
    children list holds it exactly once, and a node listed as a child
    points back to the node that lists it. *)
Theorem reachable_invariants (t : TrieMap T) :
  reachable t →
  (∀ i nd, nodes t !! i = Some nd → root t ≠ Some i → key nd ≠ [])
  ∧ (∀ i, i < length (nodes t) → ∃ fk, pathKey t i = Some fk)
  ∧ (∀ kp res kp', wellFormed kp →
       findClosestMatchingNode t kp = Some (Some res, kp') →
       pathKey t (node res) = Some (fullKey res))
  ∧ (∀ order ys y, iterate truthy t None order = Some ys → y ∈ ys →
       ∃ i nd, nodes t !! i = Some nd ∧ value nd = Some y.2
               ∧ pathKey t i = Some y.1)
  ∧ (∀ i nd, nodes t !! i = Some nd → (parent nd = None ↔ root t = Some i))
  ∧ (∀ i nd, nodes t !! i = Some nd → root t ≠ Some i →
       ∃ p pn, parent nd = Some p ∧ nodes t !! p = Some pn
               ∧ i ∈ children pn ∧ NoDup (children pn))
  ∧ (∀ q qn i, nodes t !! q = Some qn → i ∈ children qn →
       ∃ nd, nodes t !! i = Some nd ∧ parent nd = Some q).
Proof.
  intros Hr.
  assert (∀ order ys y, iterate truthy t None order = Some ys → y ∈ ys →
            ∃ i nd, nodes t !! i = Some nd ∧ value nd = Some y.2
                    ∧ pathKey t i = Some y.1) as Hit.
  { intros order ys y Hi Hy.
    destruct (iterate_yields truthy t order ys y Hr Hi Hy) as (i & nd & ? & ? & _ & ?).
    by exists i, nd. }
  destruct (reachable_shape t Hr) as [entries Hs].
  destruct (treeSetAll (caseSensitive t) None entries) as [l|] eqn:El.
  2: { destruct Hs as [Hroot Hno]. split; [|split; [|split; [|split; [exact Hit|]]]].
       all: rewrite ?Hno, ?Hroot.
       all: repeat split; try done; intros; simpl in *; try lia.
       unfold findClosestMatchingNode in *. rewrite Hroot in *. done. }
  assert (properKeys l) as Hp
    by (by apply (treeSetAll_proper (caseSensitive t) entries None)).
  pose proof Hs as (Hroot & Hrep & Hnd & Hlen).
  repeat split.
  - intros i nd Hi Hne. eapply (cells_proper None l i); [done| |congruence].
    by eapply shape_cell.
  - intros i Hi. by eapply pathKey_total.
  - intros kp res kp' Hwf E. by eapply shape_traversal_pathKey.
  - exact Hit.
  - by eapply parent_root.
  - by eapply parent_root.
  - intros i nd Hi Hne.
    assert (i ∈ ids l) as Hin
      by (eapply shape_ids; [done|]; by eapply lookup_lt_Some).
    destruct (tree_parent None l i Hnd Hin) as (nd' & q & qn & Hc & Hq & Hqc & Hl & Hu);
      [congruence|].
    apply Hrep in Hc, Hqc. exists q, qn. by simplify_eq.
  - intros q qn i Hq Hi. apply (shape_cell t l) in Hq; [|done].
    destruct (tree_child None l q qn i Hq Hi) as (nd & Hc & Hpar).
    apply Hrep in Hc. eauto.
Qed.

(** C6, amended: on every trie built by [set], [iterate] returns in both
    orders, and both results are permutations of the pairs (full key,
    value) of the nodes whose value is truthy, each node taken once;
    breadth first yields level after level with every children list in
    its own order, depth first yields a node and then the subtrees of
    its children from the last child to the first. *)
Theorem iterate_orders (t : TrieMap T) :
  reachable t →
  ∃ breadth depth,
    iterate truthy t None bfs = Some breadth
    ∧ iterate truthy t None dfs = Some depth
    ∧ breadth ≡ₚ allYields truthy t
    ∧ depth ≡ₚ allYields truthy t
    ∧ ∃ lt, shape t lt
            ∧ match lt with
              | Some l =>
                  breadth = levelOrder truthy (length (ids l)) [(l, lkey l)]
                  ∧ depth = lastChildFirst truthy l (lkey l)
              | None => breadth = [] ∧ depth = []
              end.
Proof.
  intros Hr. destruct (reachable_shape t Hr) as [entries Hs].
  destruct (treeSetAll (caseSensitive t) None entries) as [l|] eqn:El.
  - exists (treeIterate truthy l bfs), (treeIterate truthy l dfs).
    rewrite !(iterate_spec truthy t l) by done.
    split; [done|]. split; [done|].
    split; [by apply treeIterate_perm|]. split; [by apply treeIterate_perm|].
    by exists (Some l).
  - exists [], []. rewrite !(iterate_empty truthy t) by done.
    pose proof Hs as [Hroot Hno]. unfold allYields. rewrite Hno.
    split; [done|]. split; [done|]. split; [done|]. split; [done|].
    by exists None.
Qed.


(** C8: in a trie that is not case sensitive, [get] finds the value set
    under a key that differs from the searched one in letter case only,
    in particular [get("abc")] after [set("ABC", v)] and [get("ABC")]
    after [set("abc", v)]: [set] stores the lower-cased key, and
    [charsEqual] lower-cases the character of the window and leaves the
    stored one as it is. *)
Theorem get_ignores_case (t : TrieMap T) v :
  reachable t → caseSensitive t = false →
  (∃ t' k', set t (KeyString (js "ABC")) v = Some t'
            ∧ get t' (KeyString (js "abc")) = Some (Some v, k'))
  ∧ (∃ t' k', set t (KeyString (js "abc")) v = Some t'
              ∧ get t' (KeyString (js "ABC")) = Some (Some v, k'))
  ∧ (∀ k k', wellFormedKey k' →
       toLowerCase (keyAsString k') = toLowerCase (keyAsString k) →
       ∃ t' k'', set t k v = Some t' ∧ get t' k' = Some (Some v, k''))
  ∧ (∀ k, set t k v = set t (KeyString (toLowerCase (keyAsString k))) v)
  ∧ (∀ a b, charsEqual false a (Some b)
            = Some (Ascii.eqb a wildcard || Ascii.eqb a (toLowerCaseChar b))).
Proof.
  intros Hr Hcs.
  assert (∀ k k', wellFormedKey k' →
            toLowerCase (keyAsString k') = toLowerCase (keyAsString k) →
            ∃ t' k'', set t k v = Some t' ∧ get t' k' = Some (Some v, k'')) as Hgen.
  { intros k k' Hwf Hkk. apply set_get; [done|done|]. unfold storedKey.
    by rewrite Hcs. }
  repeat split.
  - apply Hgen; [apply wellFormed_keyString|done].
  - apply Hgen; [apply wellFormed_keyString|done].
  - done.
  - intros k. unfold set, storedKey. rewrite Hcs. simpl.
    by rewrite toLowerCase_idemp.
  - intros a b. unfold charsEqual. by destruct (Ascii.eqb a wildcard).
Qed.

End Properties.

Section SearchProperties.

Context {T : Type}.
Variable truthy : T → bool.

Lemma rejects_candidate (t : TrieMap T) kp n fk kp1 :
  reachable t → wellFormed kp →
  longestPrefixCandidate truthy t kp = Some (Some (n, fk), kp1) →
  rejects kp1 (length fk) = rejects kp (length fk)
  ∧ (rejects kp (length fk) = true → kp1 = kp).
Proof.
  intros Hr Hwf E.
  pose proof (longestPrefixCandidate_pointer _ _ _ _ _ E) as (_ & Hpm & Hp).
  destruct (candidate_pointer _ _ _ _ _ _ Hr Hwf E) as [->|Hfull]; [done|].
  assert (∀ q, (pos q + Z.of_nat (length fk) <? posMax q)%Z = false →
               rejects q (length fk) = false) as Hno
    by (intros q Hq; unfold rejects; by rewrite Hq).
  rewrite (Hno kp), (Hno kp1) by (apply Z.ltb_ge; lia). done.
Qed.

Lemma rejects_letter kp len :
  wellFormed kp →
  rejects kp len = true ↔
    (pos kp + Z.of_nat len < posMax kp)%Z
    ∧ ∃ c, data kp !! Z.to_nat (pos kp + Z.of_nat len) = Some c ∧ isLetter c = true.
Proof.
  intros (H0 & H1 & H2). unfold rejects, isNonBoundary, charAt.
  rewrite andb_true_iff, Z.ltb_lt.
  destruct (Z.ltb_spec (pos kp + Z.of_nat len) 0); [lia|].
  split; intros [Hlt Hc]; (split; [done|]).
  - destruct (data kp !! Z.to_nat (pos kp + Z.of_nat len)) as [c|] eqn:E; [eauto|].
    apply lookup_ge_None in E. lia.
  - destruct Hc as (c & -> & Hc). done.
Qed.

Lemma isLetter_range c :
  isLetter c = true ↔ 65 ≤ nat_of_ascii c ≤ 90 ∨ 97 ≤ nat_of_ascii c ≤ 122.
Proof.
  unfold isLetter, isUpper. rewrite orb_true_iff, !andb_true_iff, !Nat.leb_le. lia.
Qed.

(** One pass of the search with [wordBoundaryOnly] enabled:
    [findByLongestPrefix] on a trie built by [set] and a well-formed
    window returns, and its result is determined by the candidate of
    the first pass.  Without a candidate
    the result is absent.  A candidate of length [len] is rejected when
    [pos + len] lies before [posMax] and the character of [data] there
    is a letter (A to Z or a to z); then the window is unchanged but for
    [posMax], which becomes [pos + len - 1], and the result is the
    result of the whole search on that window.  Otherwise the result is
    the candidate with its value, when that is truthy. *)
Theorem findByLongestPrefix_boundary (t : TrieMap T) kp :
  reachable t → wellFormed kp →
  ∃ cand kp1 r,
    longestPrefixCandidate truthy t kp = Some (cand, kp1)
    ∧ findByLongestPrefixAt truthy t kp true = Some r
    ∧ match cand with
      | None => r = (None, kp1)
      | Some (n, fk) =>
          if rejects kp (length fk)
          then kp1 = kp
               ∧ findByLongestPrefixAt truthy t
                   (narrow kp (pos kp + Z.of_nat (length fk) - 1)) true = Some r
          else ∃ nd, nodes t !! n = Some nd
                     ∧ r = (match value nd with
                            | Some v => if truthy v then Some (fk, v) else None
                            | None => None
                            end, kp1)
      end
    ∧ (∀ len, rejects kp len = true ↔
         (pos kp + Z.of_nat len < posMax kp)%Z
         ∧ ∃ c, data kp !! Z.to_nat (pos kp + Z.of_nat len) = Some c
                ∧ isLetter c = true)
    ∧ (∀ c, isLetter c = true
            ↔ 65 ≤ nat_of_ascii c ≤ 90 ∨ 97 ≤ nat_of_ascii c ≤ 122).
Proof.
  intros Hr Hwf.
  destruct (candidate_total truthy t kp Hr (or_introl Hwf)) as [[cand kp1] E].
  destruct (findByLongestPrefixAt_total truthy t true Hr kp Hwf) as [r Hres].
  exists cand, kp1, r. split; [done|]. split; [done|].
  split; [|split; [intros len; by apply rejects_letter|apply isLetter_range]].
  rewrite findByLongestPrefixAt_unfold, E in Hres. cbn [mbind option_bind] in Hres.
  destruct cand as [[n fk]|]; [|congruence].
  destruct (rejects_candidate t kp n fk kp1 Hr Hwf E) as [Hsame Hkp].
  rewrite Hsame in Hres. simpl in Hres.
  destruct (rejects kp (length fk)).
  - rewrite Hkp in Hres by done. by rewrite Hkp.
  - destruct (candidate_held _ _ _ _ _ _ E) as [nd Hn]. exists nd.
    rewrite Hn in Hres. cbn [mbind option_bind] in Hres.
    split; [done|]. destruct (value nd); congruence.
Qed.

(** C5, amended: [charsEqual] of a stored character and a character of
    the window is true exactly when the stored one is the wildcard or
    equals the character of the window, lower-cased unless the trie is
    case sensitive: a wildcard in the stored segment matches every
    character (and the end of the data), and a wildcard in the window is
    an ordinary character that matches a stored wildcard only.
    [matchPrefix], through which [get] and the prefix search compare
    every segment, reports a full match for a segment that agrees with
    the whole window in this sense; and in a trie that holds a single
    key, [get] finds that key under every search key that agrees with
    it in this sense. *)
Theorem charsEqual_wildcard cs :
  (∀ b, charsEqual cs wildcard b = Some true)
  ∧ (∀ a b, a ≠ wildcard →
       charsEqual cs a (Some b)
       = Some (Ascii.eqb a (if cs then b else toLowerCaseChar b)))
  ∧ (∀ a, a ≠ wildcard → charsEqual cs a (Some wildcard) = Some false)
  ∧ (∀ p kp, wellFormed kp →
       Forall2 (fun a b => a = wildcard ∨ a = (if cs then b else toLowerCaseChar b))
         p (content kp) →
       matchPrefix cs p kp = Some full)
  ∧ (∀ p w (v : T),
       Forall2 (fun a b => a = wildcard ∨ a = (if cs then b else toLowerCaseChar b))
         (storedKey cs (KeyString p)) w →
       ∃ t k', construct [(KeyString p, v)] cs = Some t
               ∧ get t (KeyString w) = Some (Some v, k')).
Proof.
  assert (∀ p w,
            Forall2 (fun a b => a = wildcard ∨ a = (if cs then b else toLowerCaseChar b))
              p w → matchList cs p w = full) as Hall.
  { intros p w H. apply matchList_all. eapply Forall2_impl; [done|].
    intros a b [Hab|Hab]; rewrite Hab; unfold charEq; [done|].
    rewrite Ascii.eqb_refl. apply orb_true_r. }
  split; [done|]. split; [|split; [|split]].
  - intros a b Ha. unfold charsEqual.
    destruct (Ascii.eqb_spec a wildcard); [done|done].
  - intros a Ha. unfold charsEqual.
    destruct (Ascii.eqb_spec a wildcard) as [|_]; [done|].
    replace (if cs then wildcard else toLowerCaseChar wildcard) with wildcard
      by (by destruct cs).
    destruct (Ascii.eqb_spec a wildcard); [done|done].
  - intros p kp Hwf H. rewrite matchPrefix_spec by done. f_equal. by apply Hall.
  - intros p w v H.
    destruct (construct_shape [(KeyString p, v)] cs) as (t & Ht & Hs & Hcs).
    destruct (get_spec t _ (KeyString w) Hs (wellFormed_keyString w)) as [k' Hg].
    exists t, k'. split; [done|]. rewrite Hg, Hcs. simpl.
    unfold closest. simpl. by rewrite (Hall _ _ H).
Qed.


Lemma set_overwrites (t : TrieMap T) k v res kp :
  findClosestMatchingNode t (keyAsPointer (KeyString (storedKey (caseSensitive t) k)))
  = Some (Some res, kp) →
  match_ res = full →
  set t k v = Some (updateValue t (node res) v).
Proof.
  intros E Hf. unfold set.
  destruct (root t) as [r|] eqn:Hroot.
  - rewrite E. cbn [mbind option_bind]. unfold setAt.
    destruct (traversal_held _ _ _ _ E) as [nd ->]. cbn [mbind option_bind].
    by rewrite Hf.
  - unfold findClosestMatchingNode in E. rewrite Hroot in E. done.
Qed.


End SearchProperties.

Section Windows.

Context {T : Type}.
Variable truthy : T → bool.

(** * Further properties of the operations *)

(** ** The constructor and [set] return *)

Lemma setAll_snoc (entries : list (TrieMapKey * T)) : ∀ (a b : TrieMap T) k v,
  setAll a entries = Some b → setAll a (entries ++ [(k, v)]) = set b k v.
Proof.
  induction entries as [|[k0 v0] entries IH]; intros a b k v; simpl.
  - intros [= ->]. by destruct (set b k v).
  - destruct (set a k0 v0) as [a'|]; simpl; [apply IH|done].
Qed.

(** X1: the constructor returns a trie for every list of entries, and
    [set] returns on every trie the constructor built, for every key and
    value: the result is the trie the constructor builds from the
    entries followed by the new one, and has the case sensitivity
    chosen at construction. *)
Theorem constructor_and_set_return (entries : list (TrieMapKey * T)) cs k v :
  ∃ t t', construct entries cs = Some t
          ∧ set t k v = Some t'
          ∧ construct (entries ++ [(k, v)]) cs = Some t'
          ∧ caseSensitive t = cs ∧ caseSensitive t' = cs.
Proof.
  destruct (construct_shape entries cs) as (t & Ht & Hs & Hcs).
  destruct (set_shape t _ k v Hs) as (t' & Ht' & _ & Hcs').
  exists t, t'. split; [done|]. split; [done|]. split; [|split; congruence].
  unfold construct in *. by rewrite (setAll_snoc entries _ t).
Qed.

(** ** [get] on a window and on its text *)

(** X2: on a trie built by [set], [get] on a well-formed window returns,
    and its value is the value of [get] on the string
    [data.slice(pos, posMax)]. *)
Theorem get_window_text (t : TrieMap T) kp :
  reachable t → wellFormed kp →
  ∃ v k1 k2,
    get t (KeyPointer kp) = Some (v, k1)
    ∧ get t (KeyString (slice (data kp) (pos kp) (posMax kp))) = Some (v, k2).
Proof.
  intros Hr Hwf. destruct (reachable_shape t Hr) as [entries Hs].
  destruct (get_spec t _ (KeyPointer kp) Hs Hwf) as [k1 H1].
  destruct (get_spec t _ (KeyString (slice (data kp) (pos kp) (posMax kp))) Hs
              (wellFormed_keyString _)) as [k2 H2].
  eexists _, k1, k2. split; [exact H1|]. exact H2.
Qed.

(** ** The window after a traversal *)

Lemma ids_below (c : ltree T) j : j ∈ flat_map ids (lkids c) → j ∈ ids c.
Proof. destruct c; simpl. by right. Qed.

Lemma closestFrom_full cs (s : ltree T) : ∀ i sum fk adv w,
  (i = length (lkey s) → length fk = adv) →
  rmatch (closestFrom cs s i sum fk adv w) = full →
  lid (rnode (closestFrom cs s i sum fk adv w)) ∈ flat_map ids (lkids s)
  ∧ radvance (closestFrom cs s i sum fk adv w)
    + length (lkey (rnode (closestFrom cs s i sum fk adv w)))
    = length (rfullKey (closestFrom cs s i sum fk adv w)).
Proof.
  induction s as [id k val kids IH] using ltree_ind'. intros i sum fk adv w Hfk.
  cbn [closestFrom]. destruct (Nat.eqb_spec i (length k)) as [Hi|Hi]; [|done].
  specialize (Hfk Hi). cbn [lkids].
  destruct (scan_cases cs w kids) as [Hno | (pre & c & post & -> & Hpre & Hc)].
  - by rewrite scanWith_unmatched.
  - rewrite scanWith_hit by done. cbn [scanWith].
    apply Forall_app in IH as [_ IH]. apply Forall_cons in IH as [IHc _].
    assert (c ∈ pre ++ c :: post) as Hin by (apply elem_of_app; right; left).
    destruct (matchList cs (lkey c) w) as [| |j] eqn:Hm; [|done|].
    + intros _. cbn [rnode radvance rfullKey]. split.
      * eapply kid_ids_in; [done|]. apply lid_in_ids.
      * rewrite length_app. lia.
    + intros Hf. destruct (IHc j (sum + j) (fk ++ lkey c) (adv + j) (drop j w))
        as [Hid Hadv]; [rewrite length_app; lia|done|].
      split; [|done]. eapply kid_ids_in; [done|]. by apply ids_below.
Qed.

(** X3: on a trie built by [set] and a well-formed window, the traversal
    returns a window with the [data] and [posMax] it was given.  When
    it ends in a full match at a node other than the root, [pos] is left
    at [posMax] less the length of that node's key; on every other
    return the window is as it was. *)
Theorem traversal_window (t : TrieMap T) kp res kp' :
  reachable t → wellFormed kp →
  findClosestMatchingNode t kp = Some (res, kp') →
  data kp' = data kp ∧ posMax kp' = posMax kp
  ∧ (∀ r, res = Some r → match_ r = full → root t ≠ Some (node r) →
       ∃ nd, nodes t !! node r = Some nd
             ∧ pos kp' = (posMax kp - Z.of_nat (length (key nd)))%Z)
  ∧ ((∀ r, res = Some r → match_ r = full → root t = Some (node r)) → kp' = kp).
Proof.
  intros Hr Hwf E.
  pose proof (findClosestMatchingNode_pointer _ _ _ _ E) as (Hd & Hpm & _).
  split; [done|]. split; [done|].
  destruct (reachable_shape t Hr) as [entries Hs].
  destruct (treeSetAll (caseSensitive t) None entries) as [l|] eqn:El.
  2: { destruct Hs as [Hroot _]. unfold findClosestMatchingNode in E.
       rewrite Hroot in E. injection E as <- <-. split; [done|done]. }
  pose proof Hs as (Hroot & Hrep & Hnd & Hlen).
  destruct t as [rt cs h]. simpl in *. subst rt.
  rewrite findClosestMatchingNode_spec in E; [|done|lia|done].
  assert (∀ q : TrieMapKeyPointer, restore q (pos q + Z.of_nat 0) = q) as Hsame
    by (intros [d p pm]; unfold restore; simpl; f_equal; lia).
  unfold closest in E.
  destruct (matchList cs (lkey l) (content kp)) as [| |i] eqn:Hm.
  - injection E as <- <-. unfold pointerAfter. simpl. rewrite Hsame.
    split; [|done]. intros r [= <-] _ Hne. simpl in Hne. done.
  - injection E as <- <-. split; [done|done].
  - injection E as <- <-.
    set (R := closestFrom cs l i i (lkey l) i (drop i (content kp))).
    destruct (closestFrom_advance cs l i i (lkey l) i (drop i (content kp)))
      as [Hf|Ha]; fold R in Hf || fold R in Ha.
    + destruct (closestFrom_full cs l i i (lkey l) i (drop i (content kp)))
        as [Hid Hadv]; [done|done|]. fold R in Hid, Hadv.
      assert (lid (rnode R) ≠ lid l) as Hne.
      { intros Heq. destruct l as [li lk lv lkids']. simpl in *.
        apply NoDup_cons in Hnd as [Hnot _]. apply Hnot. by rewrite <- Heq. }
      split.
      * intros r [= <-] _ _. simpl.
        destruct (closestFrom_held cs h l None i i (lkey l) i (drop i (content kp)) Hrep)
          as [p' Hp']. fold R in Hp'.
        rewrite (represents_root _ _ _ Hp'). eexists. split; [done|]. simpl.
        pose proof (closestFrom_full_length cs l i i (lkey l) i (drop i (content kp)))
          as Hlen'. fold R in Hlen'. rewrite Hlen' in Hadv by done.
        apply matchList_prefix_le in Hm as [Hi _].
        rewrite length_drop in Hadv. rewrite content_length in Hadv, Hi by done.
        destruct Hwf as (? & ? & ?). lia.
      * intros Hall. exfalso. apply Hne.
        specialize (Hall (reachedResult R) eq_refl Hf). simpl in Hall. congruence.
    + unfold pointerAfter. rewrite Ha, Hsame. split; [|done].
      intros r [= <-] Hf Hne. simpl in *.
      destruct (closestFrom_full cs l i i (lkey l) i (drop i (content kp)))
        as [Hid Hadv]; [done|done|]. fold R in Hid, Hadv.
      destruct (closestFrom_held cs h l None i i (lkey l) i (drop i (content kp)) Hrep)
        as [p' Hp']. fold R in Hp'.
      rewrite (represents_root _ _ _ Hp'). eexists. split; [done|]. simpl.
      pose proof (closestFrom_full_length cs l i i (lkey l) i (drop i (content kp)))
        as Hlen'. fold R in Hlen'. rewrite Hlen' in Hadv by done.
      apply matchList_prefix_le in Hm as [Hi _].
      rewrite length_drop in Hadv. rewrite content_length in Hadv, Hi by done.
      destruct Hwf as (? & ? & ?). simpl. lia.
Qed.

End Windows.

Section EdgeCases.

Context {T : Type}.
Variable truthy : T → bool.

(** ** A window that ends after the end of [data] *)

Lemma matchPrefixFrom_past_end cs p kp a rest m : ∀ n index,
  (0 ≤ pos kp)%Z →
  rest = drop (Z.to_nat (pos kp)) (data kp) →
  Z.to_nat (pos kp) + length rest = length (data kp) →
  Forall2 (fun x y => charEq cs x y = true) (take (length rest) p) rest →
  p !! length rest = Some a → a ≠ wildcard →
  index + m = length rest → m < n →
  matchPrefixFrom cs p kp n index
  = if cs then Some (matchStop p (length rest)) else None.
Proof.
  induction m as [|m IH]; intros n index H0 Hrest Hlen Hall Ha Hw Him Hn.
  - destruct n as [|n]; [lia|]. simpl. replace index with (length rest) by lia.
    rewrite Ha. unfold charAt.
    destruct (Z.ltb_spec (pos kp + Z.of_nat (length rest)) 0); [lia|].
    rewrite (lookup_ge_None_2 (data kp)) by lia.
    unfold charsEqual. destruct (Ascii.eqb_spec a wildcard); [done|].
    by destruct cs.
  - destruct n as [|n]; [lia|]. simpl.
    pose proof (Forall2_length _ _ _ Hall) as Hl. rewrite length_take in Hl.
    destruct (lookup_lt_is_Some_2 rest index) as [y Hy]; [lia|].
    destruct (lookup_lt_is_Some_2 p index) as [x Hx]; [lia|].
    rewrite Hx. unfold charAt.
    destruct (Z.ltb_spec (pos kp + Z.of_nat index) 0); [lia|].
    replace (Z.to_nat (pos kp + Z.of_nat index)) with (Z.to_nat (pos kp) + index) by lia.
    rewrite <- lookup_drop, <- Hrest, Hy, charsEqual_Some. simpl.
    assert (charEq cs x y = true) as ->.
    { eapply (Forall2_lookup_lr _ _ _ index) in Hall; [done| |done].
      rewrite lookup_take_lt by lia. done. }
    apply IH; auto; lia.
Qed.

(** X4: when the window ends after the end of [data], the text from
    [pos] to the end of [data] matches the beginning of a stored key,
    and the key goes on with a character other than the wildcard, then
    [matchPrefix] stops at the end of [data] with a partial match in a
    case-sensitive trie, and throws in a trie that is not case sensitive
    (the character read is [undefined]); so does [get] when the key is
    the key of the root: absent in the first case, an exception in the
    second. *)
Theorem matchPrefix_past_end cs p kp a :
  (0 ≤ pos kp ≤ Z.of_nat (length (data kp)))%Z →
  (Z.of_nat (length (data kp)) < posMax kp)%Z →
  Forall2 (fun x y => charEq cs x y = true)
    (take (length (drop (Z.to_nat (pos kp)) (data kp))) p)
    (drop (Z.to_nat (pos kp)) (data kp)) →
  p !! length (drop (Z.to_nat (pos kp)) (data kp)) = Some a →
  a ≠ wildcard →
  matchPrefix cs p kp
  = (if cs then Some (matchStop p (length (drop (Z.to_nat (pos kp)) (data kp))))
     else None)
  ∧ ∀ (t : TrieMap T) r rn,
      root t = Some r → nodes t !! r = Some rn → key rn = p → caseSensitive t = cs →
      get t (KeyPointer kp) = if cs then Some (None, KeyPointer kp) else None.
Proof.
  intros Hpos Hpm Hall Ha Hw.
  set (rest := drop (Z.to_nat (pos kp)) (data kp)) in *.
  assert (Z.to_nat (pos kp) + length rest = length (data kp)) as Hlen
    by (subst rest; rewrite length_drop; lia).
  assert (matchPrefix cs p kp = if cs then Some (matchStop p (length rest)) else None)
    as Hmatch.
  { unfold matchPrefix.
    apply (matchPrefixFrom_past_end cs p kp a rest (length rest)); auto; lia. }
  split; [done|]. intros t r rn Hroot Hr Hk Hcs.
  unfold get, getAt, findClosestMatchingNode. cbn [keyAsPointer].
  rewrite Hroot, Hr. cbn [mbind option_bind]. rewrite Hk, Hcs, Hmatch.
  destruct cs; cbn [mbind option_bind]; [|done].
  pose proof (lookup_lt_Some _ _ _ Ha) as Hlt.
  unfold matchStop. destruct (length rest) as [|n] eqn:Hn.
  - destruct p as [|x p]; [done|]. simpl. done.
  - cbn [orb Nat.ltb Nat.leb closestLoop mbind option_bind]. rewrite Hr.
    cbn [mbind option_bind]. rewrite Hk.
    rewrite (proj2 (Nat.eqb_neq (S n) (length p))) by lia.
    simpl. destruct kp. done.
Qed.

(** ** Setting a key again *)

Lemma storedKey_again cs k : storedKey cs (KeyString (storedKey cs k)) = storedKey cs k.
Proof. unfold storedKey. destruct cs; simpl; [done|]. apply toLowerCase_idemp. Qed.

(** X5: on a trie built by [set], after [set(k, v)] a [set(k', v')]
    with a key that is stored as [k] is (the same key, or one differing
    in letter case in a trie that is not case sensitive) changes the
    value of one node and nothing else: no node is added, and the root,
    the keys, the parents and the children lists stay as they are. *)
Theorem set_again_overwrites (t : TrieMap T) k k' v v' :
  reachable t →
  storedKey (caseSensitive t) k' = storedKey (caseSensitive t) k →
  ∃ t1 t2 n nd,
    set t k v = Some t1
    ∧ set t1 k' v' = Some t2
    ∧ nodes t1 !! n = Some nd ∧ value nd = Some v
    ∧ root t2 = root t1
    ∧ length (nodes t2) = length (nodes t1)
    ∧ ∀ i, nodes t2 !! i
           = (if decide (i = n) then setValue (Some v') else id) <$> nodes t1 !! i.
Proof.
  intros Hr Hkk.
  destruct (set_get t k (KeyString (storedKey (caseSensitive t) k)) v Hr
              (wellFormed_keyString _) (storedKey_again _ _))
    as (t1 & k1 & Hset & Hget).
  assert (caseSensitive t1 = caseSensitive t) as Hcs.
  { destruct (reachable_shape t Hr) as [entries Hs].
    destruct (set_shape t _ k v Hs) as (t1' & Ht1' & _ & Hcs). congruence. }
  unfold get, getAt in Hget. cbn [keyAsPointer] in Hget.
  destruct (findClosestMatchingNode t1 _) as [[[res|] kp]|] eqn:E;
    cbn [mbind option_bind] in Hget; try done.
  destruct (match_ res) eqn:Hm; cbn [mbind option_bind] in Hget; try done.
  destruct (nodes t1 !! node res) as [nd|] eqn:Hn; cbn [mbind option_bind] in Hget;
    [|done].
  injection Hget as Hv _.
  exists t1, (updateValue t1 (node res) v'), (node res), nd.
  split; [done|]. split.
  { apply (set_overwrites t1 k' v' res kp); [|done]. by rewrite Hcs, Hkk. }
  split; [done|]. split; [done|]. split; [done|]. split; [apply length_alter|].
  intros i. simpl. destruct (decide (i = node res)) as [->|Hne].
  - by rewrite list_lookup_alter_eq.
  - rewrite list_lookup_alter_ne by done. by destruct (nodes t1 !! i).
Qed.

(** ** The window after a search *)

Lemma findByLongestPrefixLoop_window fuel (t : TrieMap T) : ∀ kp wb r kp',
  findByLongestPrefixLoop truthy fuel t kp wb = Some (r, kp') →
  data kp' = data kp ∧ (pos kp ≤ pos kp')%Z ∧ (posMax kp' ≤ posMax kp)%Z
  ∧ (wb = false → posMax kp' = posMax kp).
Proof.
  induction fuel as [|fuel IH]; intros kp wb r kp'; [done|].
  rewrite findByLongestPrefixLoop_step.
  destruct (longestPrefixCandidate truthy t kp) as [[cand kp1]|] eqn:E; [|done].
  apply longestPrefixCandidate_pointer in E as (Hd & Hpm & Hp).
  cbn [mbind option_bind]. destruct cand as [[n fk]|].
  2: { intros [= _ <-]. repeat split; try done; lia. }
  destruct (wb && rejects kp1 (length fk)) eqn:Hrej.
  - apply andb_true_iff in Hrej as [-> Hrej]. unfold rejects in Hrej.
    apply andb_true_iff in Hrej as [Hlt _]. apply Z.ltb_lt in Hlt.
    intros H. apply IH in H as (Hd' & Hp' & Hpm' & _). simpl in *.
    repeat split; try done; try congruence; lia.
  - destruct (nodes t !! n) as [nd|]; [|done]. cbn [mbind option_bind].
    destruct (value nd); intros [= _ <-]; repeat split; try done; lia.
Qed.

(** X6: a window passed to [findByLongestPrefix] comes back with the
    [data] it had, a [pos] that is not smaller, and a [posMax] that is
    not greater, and the same [posMax] when word boundaries are not
    asked for; a string passed as the search text is not changed. *)
Theorem findByLongestPrefix_window (t : TrieMap T) search wb r search' :
  findByLongestPrefix truthy t search wb = Some (r, search') →
  match search with
  | KeyString s => search' = KeyString s
  | KeyPointer kp =>
      ∃ kp', search' = KeyPointer kp' ∧ data kp' = data kp
             ∧ (pos kp ≤ pos kp')%Z ∧ (posMax kp' ≤ posMax kp)%Z
             ∧ (wb = false → posMax kp' = posMax kp)
  end.
Proof.
  unfold findByLongestPrefix, findByLongestPrefixAt.
  destruct (findByLongestPrefixLoop truthy _ t _ wb) as [[r' kp']|] eqn:E; [|done].
  cbn [mbind option_bind]. intros [= _ <-].
  apply findByLongestPrefixLoop_window in E.
  destruct search as [kp|s]; [|done]. simpl in *. by exists kp'.
Qed.

End EdgeCases.

Section SizeAndJson.

Context {T : Type}.
Variable truthy : T → bool.

(** ** The nodes a [set] allocates *)

Lemma editNode_size f (v : T) ks (s : ltree T) i sum :
  length (ids s) ≤ length (ids (editNode f v ks s i sum)) ≤ length (ids s) + 2.
Proof.
  destruct s as [id k val kids]. unfold editNode.
  repeat case_match; simpl; rewrite ?app_nil_r, ?length_app, ?flat_map_app; simpl;
    rewrite ?length_app; simpl; lia.
Qed.

Lemma insertFrom_size cs f (v : T) ks (s : ltree T) : ∀ i sum w,
  length (ids s) ≤ length (ids (insertFrom cs f v ks s i sum w)) ≤ length (ids s) + 2.
Proof.
  induction s as [id k val kids IH] using ltree_ind'. intros i sum w.
  pose proof (editNode_size f v ks (LNode id k val kids) i sum) as Here.
  cbn [insertFrom]. destruct (i =? length k); [|exact Here].
  destruct (scan_cases cs w kids) as [Hno | (pre & c & post & -> & Hpre & Hc)].
  - rewrite replaceScan_unmatched by done. exact Here.
  - rewrite replaceScan_hit by done. cbn [replaceScan].
    apply Forall_app in IH as [_ IH]. apply Forall_cons in IH as [IHc _].
    destruct (matchList cs (lkey c) w) as [| |j] eqn:Hm; [|done|];
      cbn [fmap option_fmap option_map ids];
      repeat first [progress simpl | rewrite flat_map_app | rewrite length_app].
    + destruct c; simpl. lia.
    + specialize (IHc j (sum + j) (drop j w)). lia.
Qed.

Lemma treeSet_size cs (lt : option (ltree T)) f ks v :
  treeSize lt ≤ length (ids (treeSet cs lt f ks v)) ≤ treeSize lt + 2
  ∧ 1 ≤ length (ids (treeSet cs lt f ks v)).
Proof.
  destruct lt as [l|]; simpl; [|lia].
  destruct (matchList cs (lkey l) ks) as [| |i].
  - destruct l; simpl. lia.
  - simpl. rewrite ?app_nil_r, ?length_app. simpl. lia.
  - pose proof (insertFrom_size cs f v ks l i i (drop i ks)).
    pose proof (ids_length_pos l). lia.
Qed.

Lemma treeSetAll_size cs entries : ∀ lt : option (ltree T),
  treeSize (treeSetAll cs lt entries) ≤ treeSize lt + 2 * length entries.
Proof.
  induction entries as [|[k v] entries IH]; intros lt; simpl; [lia|].
  pose proof (treeSet_size cs lt (treeSize lt) (storedKey cs k) v) as [Hs H1].
  specialize (IH (Some (treeSet cs lt (treeSize lt) (storedKey cs k) v))).
  simpl in *. lia.
Qed.

Lemma treeSetAll_size_empty cs (entries : list (TrieMapKey * T)) :
  treeSize (treeSetAll cs None entries) ≤ 2 * length entries - 1.
Proof.
  destruct entries as [|[k v] entries]; simpl; [lia|].
  pose proof (treeSetAll_size cs entries
                (Some (LNode 0 (storedKey cs k) (Some v) []))) as H.
  simpl in *. lia.
Qed.

(** X7: a [set] on a trie the constructor built adds at most two nodes
    and removes none, and the trie built from [n] entries has at most
    [2n - 1] nodes. *)
Theorem set_allocates_at_most_two (entries : list (TrieMapKey * T)) cs k v :
  ∃ t t', construct entries cs = Some t
          ∧ set t k v = Some t'
          ∧ length (nodes t) ≤ length (nodes t') ≤ length (nodes t) + 2
          ∧ length (nodes t) ≤ 2 * length entries - 1.
Proof.
  destruct (construct_shape entries cs) as (t & Ht & Hs & Hcs).
  destruct (set_shape t _ k v Hs) as (t' & Ht' & Hs' & _).
  exists t, t'. split; [done|]. split; [done|].
  apply shape_size in Hs'. rewrite (shape_size _ _ Hs), Hs'. simpl.
  pose proof (treeSet_size (caseSensitive t) (treeSetAll cs None entries)
                (length (nodes t)) (storedKey (caseSensitive t) k) v) as [H1 _].
  split; [done|]. apply treeSetAll_size_empty.
Qed.

(** ** toJSON *)

Lemma nodeToJson_spec r cs h (s : ltree T) : ∀ p fuel,
  represents h p s → length (ids s) ≤ fuel →
  nodeToJson fuel (mkTrie r cs h) (lid s) = Some (treeJson s).
Proof.
  induction s as [id k val kids IH] using ltree_ind'. intros p fuel Hrep Hf.
  destruct fuel as [|fuel]; [simpl in Hf; lia|].
  apply represents_node in Hrep as [Hid Hk]. cbn [nodeToJson lid nodes].
  rewrite Hid. cbn [mbind option_bind children key value].
  assert (mapM (nodeToJson fuel (mkTrie r cs h)) (map lid kids)
          = Some (map treeJson kids)) as ->; [|done].
  apply mapM_Some_2.
  assert (∀ c, c ∈ kids → length (ids c) ≤ fuel) as Hfc.
  { intros c Hc. pose proof (ids_kid_length c kids Hc). simpl in Hf. lia. }
  clear Hid Hf. induction kids as [|c kids IHk]; [constructor|].
  apply Forall_cons in IH as [IHc IH]. apply Forall_cons in Hk as [Hc Hk].
  simpl. constructor.
  - apply (IHc (Some id)); [done|]. apply Hfc. left.
  - apply IHk; auto. intros d Hd. apply Hfc. by right.
Qed.

Lemma toJSON_spec (t : TrieMap T) lt :
  shape t lt → toJSON t = Some (treeJson <$> lt).
Proof.
  destruct lt as [l|]; simpl.
  - intros (Hroot & Hrep & _ & Hlen). destruct t as [r cs h]. simpl in *. subst r.
    unfold toJSON. cbn [root nodes].
    rewrite (nodeToJson_spec _ cs h l None); [done|done|lia].
  - intros [Hroot _]. unfold toJSON. by rewrite Hroot.
Qed.

Lemma findFrom_json cs (l1 : ltree T) : ∀ l2 i w,
  treeJson l1 = treeJson l2 → findFrom cs l1 i w = findFrom cs l2 i w.
Proof.
  induction l1 as [id1 k1 v1 kids1 IH] using ltree_ind'.
  intros [id2 k2 v2 kids2] i w [= <- <- Hk]. cbn [findFrom].
  destruct (i =? length k1); [|done].
  revert kids2 Hk. induction IH as [|c1 kids1 Hc1 _ IHk]; intros [|c2 kids2];
    simpl; try done.
  intros [= Hc Hk]. rewrite (IHk kids2 Hk).
  assert (lkey c1 = lkey c2 ∧ lval c1 = lval c2) as [-> ->].
  { destruct c1, c2. simpl in *. by injection Hc as -> -> _. }
  destruct (matchList cs (lkey c2) w); try done. by apply Hc1.
Qed.

Lemma treeGet_json cs (l1 l2 : option (ltree T)) w :
  treeJson <$> l1 = treeJson <$> l2 → treeGet cs l1 w = treeGet cs l2 w.
Proof.
  destruct l1 as [l1|], l2 as [l2|]; simpl; try done. intros [= H].
  change (treeGet cs (Some l1) w = treeGet cs (Some l2) w).
  rewrite !treeGet_findAt. unfold findAt.
  assert (lkey l1 = lkey l2 ∧ lval l1 = lval l2) as [-> ->].
  { destruct l1, l2. simpl in *. by injection H as -> -> _. }
  destruct (matchList cs (lkey l2) w); try done. by apply findFrom_json.
Qed.

(** X8: [toJSON] returns on every trie built by [set], with [null] for
    the empty trie only; and two such tries of the same case sensitivity
    for which [toJSON] returns equal objects give the same value to
    every [get] on a well-formed window. *)
Theorem toJSON_determines_get (t1 t2 : TrieMap T) :
  reachable t1 → reachable t2 →
  caseSensitive t1 = caseSensitive t2 →
  ∃ j1 j2,
    toJSON t1 = Some j1 ∧ toJSON t2 = Some j2
    ∧ (j1 = None ↔ root t1 = None)
    ∧ (j1 = j2 →
       ∀ k, wellFormedKey k →
         ∃ v k1 k2, get t1 k = Some (v, k1) ∧ get t2 k = Some (v, k2)).
Proof.
  intros Hr1 Hr2 Hcs.
  destruct (reachable_shape t1 Hr1) as [e1 Hs1].
  destruct (reachable_shape t2 Hr2) as [e2 Hs2].
  remember (treeSetAll (caseSensitive t1) None e1) as lt1 eqn:E1. clear E1.
  remember (treeSetAll (caseSensitive t2) None e2) as lt2 eqn:E2. clear E2.
  exists (treeJson <$> lt1), (treeJson <$> lt2).
  split; [by apply toJSON_spec|]. split; [by apply toJSON_spec|].
  split.
  - rewrite (shape_root _ _ Hs1). destruct lt1; simpl; split; done.
  - intros Hj k Hk.
    destruct (get_spec t1 _ k Hs1 Hk) as [k1 H1].
    destruct (get_spec t2 _ k Hs2 Hk) as [k2 H2].
    eexists _, k1, k2. split; [exact H1|]. rewrite H2, <- Hcs. do 2 f_equal.
    symmetry. by apply treeGet_json.
Qed.

End SizeAndJson.

Section Subtrees.

Context {T : Type}.
Variable truthy : T → bool.

(** ** Subtrees *)

Lemma subtrees_self (s : ltree T) fk : (s, fk) ∈ subtrees s fk.
Proof. destruct s; simpl. left. Qed.

Lemma closestFrom_subtree cs (s : ltree T) : ∀ i sum fk adv w,
  (rnode (closestFrom cs s i sum fk adv w), rfullKey (closestFrom cs s i sum fk adv w))
  ∈ subtrees s fk.
Proof.
  induction s as [id k val kids IH] using ltree_ind'. intros i sum fk adv w.
  cbn [closestFrom]. destruct (i =? length k); [|left].
  destruct (scan_cases cs w kids) as [Hno | (pre & c & post & -> & Hpre & Hc)].
  - rewrite scanWith_unmatched by done. left.
  - rewrite scanWith_hit by done. cbn [scanWith].
    apply Forall_app in IH as [_ IH]. apply Forall_cons in IH as [IHc _].
    simpl. right. apply elem_of_flat_map. exists c.
    split; [apply elem_of_app; right; left|].
    destruct (matchList cs (lkey c) w) as [| |j]; [|done|].
    + simpl. apply subtrees_self.
    + apply IHc.
Qed.

Lemma closest_subtree cs (l : ltree T) w r :
  closest cs l w = Some r → (rnode r, rfullKey r) ∈ subtrees l (lkey l).
Proof.
  unfold closest. destruct (matchList cs (lkey l) w); [|done|].
  - intros [= <-]. apply subtrees_self.
  - intros [= <-]. apply closestFrom_subtree.
Qed.




Lemma subtree_held h (s : ltree T) : ∀ p fk s' fk',
  represents h p s → (s', fk') ∈ subtrees s fk → ∃ p', represents h p' s'.
Proof.
  induction s as [id k val kids IH] using ltree_ind'. intros p fk s' fk' Hrep Hin.
  cbn [subtrees] in Hin. apply elem_of_cons in Hin as [[= -> ->]|Hin]; [eauto|].
  apply elem_of_flat_map in Hin as (c & Hc & Hin). rewrite Forall_forall in IH.
  apply represents_kids in Hrep. simpl in Hrep. rewrite Forall_forall in Hrep.
  eapply IH; eauto.
Qed.

(** ** [iterate] from the node a prefix leads to *)




(** ** What the traversal has matched *)

Lemma common_matches cs p w :
  matchesText cs (take (common cs p w) p) (take (common cs p w) w).
Proof.
  revert w. induction p as [|a p IH]; intros [|b w]; simpl; try constructor.
  destruct (charEq cs a b) eqn:E; simpl; constructor; [done|apply IH].
Qed.

Lemma matchList_full_matches cs p w : matchList cs p w = full → matchesText cs p w.
Proof.
  intros H. pose proof (common_matches cs p w) as Hc.
  rewrite matchList_matchOf in H. unfold matchOf in H.
  repeat case_match; try done.
  repeat match goal with H : (_ =? _) = true |- _ => apply Nat.eqb_eq in H end.
  rewrite !take_ge in Hc by lia. done.
Qed.

Lemma matchList_prefix_matches cs p w j :
  matchList cs p w = TrieMapPrefixMatch j → matchesText cs (take j p) (take j w).
Proof. intros H. apply matchList_common in H as ->. apply common_matches. Qed.

Lemma closestFrom_matched cs (s : ltree T) : ∀ i sum fk adv w seen,
  length fk = length seen + (length (lkey s) - i) →
  i ≤ length (lkey s) → i ≤ length seen →
  matchesText cs (take (length seen) fk) seen →
  matchesText cs
    (take (matchedLength (closestFrom cs s i sum fk adv w))
       (rfullKey (closestFrom cs s i sum fk adv w)))
    (take (matchedLength (closestFrom cs s i sum fk adv w)) (seen ++ w))
  ∧ matchedLength (closestFrom cs s i sum fk adv w) ≤ length (seen ++ w)
  ∧ matchedLength (closestFrom cs s i sum fk adv w)
    ≤ length (rfullKey (closestFrom cs s i sum fk adv w)).
Proof.
  induction s as [id k val kids IH] using ltree_ind'.
  intros i sum fk adv w seen Hfk Hi His Hm. cbn [lkey] in *.
  set (N := mkReached (LNode id k val kids) (TrieMapPrefixMatch i) fk sum 0).
  assert (matchesText cs (take (matchedLength N) (rfullKey N))
            (take (matchedLength N) (seen ++ w))
          ∧ matchedLength N ≤ length (seen ++ w)
          ∧ matchedLength N ≤ length (rfullKey N)) as HN.
  { unfold matchedLength, N. cbn [rfullKey rnode rmatch lkey].
    replace (length fk - length k + i) with (length seen) by lia.
    rewrite take_app_length, length_app. split; [done|]. lia. }
  cbn [closestFrom]. fold N.
  destruct (Nat.eqb_spec i (length k)) as [Hik|Hik]; [|exact HN].
  destruct (scan_cases cs w kids) as [Hno | (pre & c & post & -> & Hpre & Hc)].
  - rewrite scanWith_unmatched by done. exact HN.
  - rewrite scanWith_hit by done. cbn [scanWith].
    apply Forall_app in IH as [_ IH]. apply Forall_cons in IH as [IHc _].
    assert (length fk = length seen) as Hl by lia.
    rewrite take_ge in Hm by lia.
    destruct (matchList cs (lkey c) w) as [| |j] eqn:Hmc; [|done|].
    + unfold matchedLength. cbn [rfullKey rnode rmatch].
      pose proof (matchList_full_length _ _ _ Hmc) as Hlc.
      apply matchList_full_matches in Hmc.
      rewrite !length_app.
      replace (length fk + length (lkey c) - length (lkey c) + length (lkey c))
        with (length (fk ++ lkey c)) by (rewrite length_app; lia).
      rewrite take_ge by done. rewrite take_ge by (rewrite !length_app; lia).
      split; [by apply Forall2_app|]. rewrite !length_app. lia.
    + pose proof (matchList_prefix_le _ _ _ _ Hmc) as [Hjw Hjp].
      apply matchList_prefix_matches in Hmc.
      destruct (IHc j (sum + j) (fk ++ lkey c) (adv + j) (drop j w) (seen ++ take j w))
        as (H1 & H2 & H3).
      * rewrite !length_app, length_take. lia.
      * done.
      * rewrite length_app, length_take. lia.
      * rewrite length_app, length_take, Nat.min_l by done.
        rewrite <- Hl, take_app_add'. 2: done.
        by apply Forall2_app.
      * rewrite <- app_assoc, take_drop in H1, H2. done.
Qed.

Lemma closest_matched cs (l : ltree T) w r :
  closest cs l w = Some r →
  matchesText cs (take (matchedLength r) (rfullKey r)) (take (matchedLength r) w)
  ∧ matchedLength r ≤ length w ∧ matchedLength r ≤ length (rfullKey r).
Proof.
  unfold closest. destruct (matchList cs (lkey l) w) as [| |i] eqn:Hm; [|done|].
  - intros [= <-]. unfold matchedLength. cbn [rfullKey rnode rmatch].
    pose proof (matchList_full_length _ _ _ Hm) as Hl.
    apply matchList_full_matches in Hm.
    replace (length (lkey l) - length (lkey l) + length (lkey l)) with (length (lkey l))
      by lia.
    rewrite !take_ge by lia. split; [done|]. lia.
  - intros [= <-]. pose proof (matchList_prefix_le _ _ _ _ Hm) as [Hiw Hip].
    apply matchList_prefix_matches in Hm.
    destruct (closestFrom_matched cs l i i (lkey l) i (drop i w) (take i w))
      as (H1 & H2 & H3).
    + rewrite length_take. lia.
    + done.
    + rewrite length_take. lia.
    + rewrite length_take, Nat.min_l by done. done.
    + rewrite take_drop in H1, H2. done.
Qed.

End Subtrees.

Section SiblingHeads.

Context {T : Type}.

(** ** Sibling keys start with different characters *)

Lemma distinctHeads_inv i k (v : option T) kids :
  distinctHeads (LNode i k v kids) →
  NoDup (map (fun c => head (lkey c)) kids) ∧ Forall distinctHeads kids.
Proof. by inversion 1. Qed.

Lemma unmatched_head p w :
  wildcard ∉ p → matchList true p w = none → head p ≠ head w.
Proof.
  intros Hp Hm. pose proof (matchList_none _ _ _ Hm) as [Hpn Hwn].
  destruct p as [|a p], w as [|b w]; try done. simpl. intros [= ->].
  unfold matchList, matchStop in Hm. simpl in Hm. rewrite charEq_refl in Hm.
  simpl in Hm. by repeat case_match.
Qed.

Lemma head_unmatched p w :
  wildcard ∉ p → p ≠ [] → w ≠ [] → head p ≠ head w → matchList true p w = none.
Proof.
  intros Hp Hpn Hwn Hh. destruct p as [|a p], w as [|b w]; try done. simpl in Hh.
  apply not_elem_of_cons in Hp as [Ha _].
  unfold matchList, matchStop. simpl.
  destruct (charEq true a b) eqn:E; [|done].
  apply charEq_plain in E; [|done]. congruence.
Qed.

Lemma common_stop p w j :
  wildcard ∉ p → common true p w = j → j < length p → j < length w →
  head (drop j p) ≠ head (drop j w).
Proof.
  revert p w. induction j as [|j IH]; intros [|a p] [|b w] Hp Hc Hjp Hjw;
    simpl in *; try lia.
  - destruct (charEq true a b) eqn:E; [done|]. intros [= ->].
    by rewrite charEq_refl in E.
  - apply not_elem_of_cons in Hp as [_ Hp].
    destruct (charEq true a b); [|done]. apply IH; auto; lia.
Qed.

Lemma editNode_heads f (v : T) ks (s : ltree T) i sum :
  distinctHeads s →
  (i < length (lkey s) → sum ≠ length ks →
   head (drop i (lkey s)) ≠ head (drop sum ks)) →
  (length (lkey s) ≤ i →
   Forall (fun c => head (lkey c) ≠ head (drop sum ks)) (lkids s)) →
  distinctHeads (editNode f v ks s i sum).
Proof.
  destruct s as [id k val kids]. intros Hd Hc Hadd. cbn [lkey lkids] in *.
  apply distinctHeads_inv in Hd as [Hnd Hkids].
  assert (∀ j k', distinctHeads (LNode j k' val kids)) as Hrest
    by (intros; by constructor).
  assert (∀ j k' (x : T), distinctHeads (LNode j k' (Some x) [])) as Hleaf
    by (intros; constructor; simpl; constructor).
  unfold editNode.
  destruct (i =? length ks).
  { constructor; [apply NoDup_singleton|by apply Forall_singleton]. }
  destruct (Nat.ltb_spec i (length k)) as [Hlt|Hge].
  - destruct (Nat.eqb_spec sum (length ks)) as [Hs|Hs].
    + constructor; [apply NoDup_singleton|by apply Forall_singleton].
    + constructor.
      * simpl. apply NoDup_cons. split; [|apply NoDup_singleton].
        rewrite list_elem_of_singleton. by apply Hc.
      * apply Forall_cons. split; [done|]. by apply Forall_singleton.
  - constructor.
    + rewrite map_app. simpl. apply NoDup_app. split; [done|].
      split; [|apply NoDup_singleton].
      intros h Hin ->%list_elem_of_singleton.
      apply list_elem_of_fmap in Hin as (c & Hh & Hin).
      specialize (Hadd Hge). rewrite Forall_forall in Hadd. by apply (Hadd c).
    + apply Forall_app. split; [done|]. by apply Forall_singleton.
Qed.

Lemma editNode_head f (v : T) ks (s : ltree T) i sum :
  0 < i → i ≤ length (lkey s) → head (lkey (editNode f v ks s i sum)) = head (lkey s).
Proof.
  destruct s as [id k val kids]. intros Hi Hle. unfold editNode. cbn [lkey] in *.
  repeat case_match; cbn [lkey]; try done;
    destruct k, i; simpl in *; try done; lia.
Qed.

Lemma insertFrom_head cs f (v : T) ks (s : ltree T) i sum w :
  0 < i → i ≤ length (lkey s) →
  head (lkey (insertFrom cs f v ks s i sum w)) = head (lkey s).
Proof.
  intros Hi Hle. destruct s as [id k val kids]. cbn [insertFrom].
  destruct (i =? length k); [|by apply editNode_head].
  destruct (replaceScan _ _ _ _ kids); [done|by apply editNode_head].
Qed.

Lemma insertFrom_heads f (v : T) ks (s : ltree T) : ∀ i sum w,
  distinctHeads s → noWildcard s → properKeys s →
  w = drop sum ks → sum ≤ length ks →
  i ≤ length (lkey s) →
  (i = length (lkey s) → w ≠ []) →
  (i < length (lkey s) → w ≠ [] → head (drop i (lkey s)) ≠ head w) →
  distinctHeads (insertFrom true f v ks s i sum w).
Proof.
  induction s as [id k val kids IH] using ltree_ind'.
  intros i sum w Hd Hnw Hp Hw Hsum Hi Hne Hstop. cbn [lkey] in *.
  pose proof Hnw as [Hk Hnwk]%noWildcard_node.
  assert (w ≠ [] ↔ sum ≠ length ks) as Hwsum.
  { subst w. split.
    - intros H ->. by rewrite drop_all in H.
    - intros H E. apply (f_equal length) in E. rewrite length_drop in E.
      simpl in E. lia. }
  assert (Forall (unmatched true w) kids →
          distinctHeads (editNode f v ks (LNode id k val kids) i sum)) as Here.
  { intros Hno. apply editNode_heads; [done| |]; cbn [lkey lkids].
    - intros Hlt Hs. rewrite <- Hw. apply Hstop; [done|]. by apply Hwsum.
    - intros _. rewrite <- Hw. rewrite Forall_forall in Hno, Hnwk |- *.
      intros c Hc. apply unmatched_head; [|by apply Hno].
      specialize (Hnwk c Hc). destruct c. by apply noWildcard_node in Hnwk as [? _]. }
  cbn [insertFrom]. destruct (Nat.eqb_spec i (length k)) as [Hik|Hik].
  2: { apply editNode_heads; [done| |]; cbn [lkey lkids].
       - intros Hlt Hs. rewrite <- Hw. apply Hstop; [done|]. by apply Hwsum.
       - lia. }
  destruct (scan_cases true w kids) as [Hno | (pre & c & post & -> & Hpre & Hc)].
  - rewrite replaceScan_unmatched by done. by apply Here.
  - rewrite replaceScan_hit by done. cbn [replaceScan].
    apply distinctHeads_inv in Hd as [Hnd Hdk].
    apply properKeys_inv in Hp.
    rewrite Forall_app, Forall_cons in Hdk, Hp, Hnwk, IH.
    destruct Hdk as (Hdpre & Hdc & Hdpost), Hp as (Hppre & [Hkc Hpc] & Hppost),
      Hnwk as (Hwpre & Hwc & Hwpost), IH as (_ & IHc & _).
    specialize (Hne Hik).
    destruct (matchList true (lkey c) w) as [| |j] eqn:Hm; [|done|];
      cbn [fmap option_fmap option_map]; constructor.
    + rewrite map_app in *. simpl in *. by destruct c.
    + apply Forall_app. split; [done|]. apply Forall_cons. split; [|done].
      destruct c. apply distinctHeads_inv in Hdc as [? ?]. by constructor.
    + pose proof (matchList_prefix_le _ _ _ _ Hm) as [Hjw Hjp].
      rewrite map_app in *. simpl in *.
      rewrite insertFrom_head; [done| |done].
      eapply matchList_prefix_pos; eauto.
    + apply Forall_app. split; [done|]. apply Forall_cons. split; [|done].
      pose proof (matchList_prefix_le _ _ _ _ Hm) as [Hjw Hjp].
      assert (wildcard ∉ lkey c) as Hkcw
        by (destruct c; by apply noWildcard_node in Hwc as [? _]).
      apply IHc; auto.
      * subst w. by rewrite drop_drop.
      * subst w. rewrite length_drop in Hjw. lia.
      * intros E. pose proof (matchList_prefix_whole _ _ _ _ Hm E).
        intros E'. apply (f_equal length) in E'. rewrite length_drop in E'.
        simpl in E'. lia.
      * intros Hlt Hdn. apply common_stop; auto.
        -- symmetry. by apply matchList_common.
        -- destruct (decide (j < length w)); [done|]. destruct Hdn.
           apply drop_ge. lia.
Qed.

Lemma treeSet_heads (lt : option (ltree T)) f ks v :
  (∀ l, lt = Some l → distinctHeads l ∧ noWildcard l ∧ properKeys l) →
  distinctHeads (treeSet true lt f ks v).
Proof.
  intros Hinv. destruct lt as [l|]; cbn [treeSet].
  2: { constructor; simpl; constructor. }
  destruct (Hinv l eq_refl) as (Hd & Hnw & Hp).
  assert (wildcard ∉ lkey l) as Hk
    by (destruct l; by apply noWildcard_node in Hnw as [? _]).
  destruct (matchList true (lkey l) ks) as [| |i] eqn:Hm.
  - destruct l. apply distinctHeads_inv in Hd as [? ?]. by constructor.
  - constructor.
    + simpl. apply NoDup_cons. split; [|apply NoDup_singleton].
      rewrite list_elem_of_singleton. by apply unmatched_head.
    + apply Forall_cons. split; [done|]. apply Forall_singleton.
      constructor; simpl; constructor.
  - pose proof (matchList_prefix_le _ _ _ _ Hm) as [Hiw Hip].
    apply insertFrom_heads; auto.
    + intros E. pose proof (matchList_prefix_whole _ _ _ _ Hm E).
      intros E'. apply (f_equal length) in E'. rewrite length_drop in E'.
      simpl in E'. lia.
    + intros Hlt Hdn. apply common_stop; auto.
      * symmetry. by apply matchList_common.
      * destruct (decide (i < length ks)); [done|]. destruct Hdn.
        apply drop_ge. lia.
Qed.

End SiblingHeads.

Section KeyPieces.

Context {T : Type}.

(** ** Key segments are pieces of the keys set *)

Section Pieces.

Variable P : str → Prop.
Hypothesis P_take : ∀ n k, P k → P (take n k).
Hypothesis P_drop : ∀ n k, P k → P (drop n k).
Hypothesis P_nil : P [].

Lemma keysAre_node i k (v : option T) kids :
  keysAre P (LNode i k v kids) ↔ P k ∧ Forall (keysAre P) kids.
Proof.
  unfold keysAre. simpl. rewrite Forall_cons. apply and_iff_compat_l.
  rewrite Forall_flat_map. done.
Qed.

Lemma editNode_keysAre f (v : T) ks (s : ltree T) i sum :
  keysAre P s → P ks → keysAre P (editNode f v ks s i sum).
Proof.
  destruct s as [id k val kids]. intros Hs Hks.
  apply keysAre_node in Hs as [Hk Hkids].
  assert (∀ j, keysAre P (LNode j (drop sum ks) (Some v) [])) as Hleaf.
  { intros j. apply keysAre_node. split; [by apply P_drop|constructor]. }
  assert (∀ j, keysAre P (LNode j (drop i k) val kids)) as Hrest.
  { intros j. apply keysAre_node. split; [by apply P_drop|done]. }
  unfold editNode. repeat case_match; apply keysAre_node.
  - split; [by apply P_take|]. apply Forall_singleton, Hrest.
  - split; [by apply P_take|]. apply Forall_singleton, Hrest.
  - split; [by apply P_take|]. apply Forall_cons. split; [apply Hrest|].
    by apply Forall_singleton.
  - split; [done|]. apply Forall_app. split; [done|]. by apply Forall_singleton.
Qed.

Lemma insertFrom_keysAre cs f (v : T) ks (s : ltree T) : ∀ i sum w,
  keysAre P s → P ks → keysAre P (insertFrom cs f v ks s i sum w).
Proof.
  induction s as [id k val kids IH] using ltree_ind'. intros i sum w Hs Hks.
  cbn [insertFrom]. destruct (i =? length k); [|by apply editNode_keysAre].
  destruct (scan_cases cs w kids) as [Hno | (pre & c & post & -> & Hpre & Hc)].
  - rewrite replaceScan_unmatched by done. by apply editNode_keysAre.
  - rewrite replaceScan_hit by done. cbn [replaceScan].
    apply keysAre_node in Hs as [Hk Hkids].
    rewrite Forall_app, Forall_cons in Hkids, IH.
    destruct Hkids as (Hpre' & Hc' & Hpost'), IH as (_ & IHc & _).
    destruct (matchList cs (lkey c) w); [|done|]; cbn [fmap option_fmap option_map];
      apply keysAre_node; (split; [done|]);
      rewrite Forall_app, Forall_cons; (split; [done|]); (split; [|done]).
    + destruct c. apply keysAre_node in Hc'. by apply keysAre_node.
    + by apply IHc.
Qed.

Lemma treeSet_keysAre cs (lt : option (ltree T)) f ks v :
  (∀ l, lt = Some l → keysAre P l) → P ks → keysAre P (treeSet cs lt f ks v).
Proof.
  intros Hinv Hks. destruct lt as [t|]; cbn [treeSet].
  2: { apply keysAre_node. split; [done|constructor]. }
  specialize (Hinv t eq_refl).
  destruct (matchList cs (lkey t) ks).
  - destruct t. apply keysAre_node in Hinv. by apply keysAre_node.
  - apply keysAre_node. split; [done|].
    apply Forall_cons. split; [done|]. apply Forall_singleton.
    apply keysAre_node. split; [done|constructor].
  - by apply insertFrom_keysAre.
Qed.

Lemma treeSetAll_keysAre cs entries : ∀ lt : option (ltree T),
  (∀ l, lt = Some l → keysAre P l) →
  Forall (fun e => P (storedKey cs e.1)) entries →
  ∀ l, treeSetAll cs lt entries = Some l → keysAre P l.
Proof.
  induction entries as [|[k v] entries IH]; intros lt Hinv He l; simpl.
  - apply Hinv.
  - apply Forall_cons in He as [Hk He]. apply IH; [|done].
    intros l' [= <-]. by apply treeSet_keysAre.
Qed.

Lemma subtrees_keysAre (s : ltree T) : ∀ fk s' fk',
  (∀ a b, P a → P b → P (a ++ b)) →
  keysAre P s → P fk → (s', fk') ∈ subtrees s fk → P fk'.
Proof.
  induction s as [id k val kids IH] using ltree_ind'. intros fk s' fk' Happ Hs Hfk Hin.
  cbn [subtrees] in Hin. apply elem_of_cons in Hin as [[= -> ->]|Hin]; [done|].
  apply elem_of_flat_map in Hin as (c & Hc & Hin).
  apply keysAre_node in Hs as [_ Hk]. rewrite Forall_forall in IH, Hk.
  eapply (IH c Hc); [done|by apply Hk| |done].
  apply Happ; [done|]. specialize (Hk c Hc). destruct c.
  by apply keysAre_node in Hk as [? _].
Qed.

End Pieces.

Lemma norm_take cs n (k : str) : norm cs (take n k) = take n (norm cs k).
Proof. destruct cs; simpl; [done|]. unfold toLowerCase. by rewrite fmap_take. Qed.

Lemma norm_app cs (a b : str) : norm cs (a ++ b) = norm cs a ++ norm cs b.
Proof. destruct cs; simpl; [done|]. unfold toLowerCase. by rewrite fmap_app. Qed.

(** The invariants of the tree of a trie built from keys without
    wildcard. *)
Lemma treeSetAll_wellKept cs (entries : list (TrieMapKey * T)) l :
  Forall (fun e => wildcard ∉ keyAsString e.1) entries →
  treeSetAll cs None entries = Some l →
  noWildcard l ∧ properKeys l ∧ distinctHeads l
  ∧ keysAre (fun k => norm cs k = k) l.
Proof.
  intros He Hl. destruct (treeSetAll_invariants cs entries l He Hl) as [Hnw Hp].
  split; [done|]. split; [done|]. split.
  - revert Hl.
    assert (∀ (lt : option (ltree T)) es,
              (∀ l, lt = Some l → distinctHeads l ∧ noWildcard l ∧ properKeys l) →
              Forall (fun e => wildcard ∉ keyAsString e.1) es →
              ∀ l, treeSetAll cs lt es = Some l →
                distinctHeads l ∧ noWildcard l ∧ properKeys l) as H.
    { intros lt es. revert lt.
      induction es as [|[k v] es IH]; intros lt Hinv Hes l'; simpl.
      - apply Hinv.
      - apply Forall_cons in Hes as [Hk Hes]. apply IH; [|done].
        intros l2 [= <-].
        assert (wildcard ∉ storedKey cs k) as Hsk
          by (rewrite storedKey_norm; by apply norm_plain).
        split; [|split].
        + rewrite treeSet_normal by apply storedKey_normal.
          by apply treeSet_heads.
        + apply treeSet_noWildcard; [intros l3 ->; by apply Hinv|done].
        + apply treeSet_proper. intros l3 ->. by apply Hinv. }
    intros Hl. by apply (H None entries).
  - apply (treeSetAll_keysAre _) with (cs := cs) (entries := entries) (lt := None).
    + intros n k Hk. by rewrite norm_take, Hk.
    + intros n k Hk. by rewrite norm_drop, Hk.
    + by destruct cs.
    + done.
    + apply Forall_forall. intros e _. apply storedKey_normal.
    + done.
Qed.

End KeyPieces.

Section NodeLookup.

Context {T : Type}.
Variable truthy : T → bool.

(** ** Every node is found by its full key *)

Lemma subtrees_extends (s : ltree T) : ∀ fk s' fk',
  (s', fk') ∈ subtrees s fk → ∃ r, fk' = fk ++ r.
Proof.
  induction s as [id k val kids IH] using ltree_ind'. intros fk s' fk' Hin.
  cbn [subtrees] in Hin. apply elem_of_cons in Hin as [[= -> ->]|Hin].
  - exists []. by rewrite app_nil_r.
  - apply elem_of_flat_map in Hin as (c & Hc & Hin). rewrite Forall_forall in IH.
    destruct (IH c Hc _ _ _ Hin) as [r ->]. exists (lkey c ++ r).
    by rewrite app_assoc.
Qed.

Lemma subtrees_below (kids : list (ltree T)) fk s' fk' :
  (s', fk') ∈ flat_map (fun c => subtrees c (fk ++ lkey c)) kids →
  ∃ c r, c ∈ kids ∧ (s', fk') ∈ subtrees c (fk ++ lkey c) ∧ fk' = fk ++ lkey c ++ r.
Proof.
  intros Hin. apply elem_of_flat_map in Hin as (c & Hc & Hin).
  destruct (subtrees_extends _ _ _ _ Hin) as [r ->].
  exists c, r. split; [done|]. split; [done|]. by rewrite <- app_assoc.
Qed.

Lemma subtrees_key_length (s : ltree T) : ∀ fk s' fk',
  (s', fk') ∈ subtrees s fk → length (lkey s) ≤ length fk →
  length (lkey s') ≤ length fk'.
Proof.
  induction s as [id k val kids IH] using ltree_ind'. intros fk s' fk' Hin Hl.
  cbn [subtrees] in Hin. apply elem_of_cons in Hin as [[= -> ->]|Hin]; [done|].
  apply elem_of_flat_map in Hin as (c & Hc & Hin). rewrite Forall_forall in IH.
  apply (IH c Hc _ _ _ Hin). rewrite length_app. lia.
Qed.

Lemma common_extends p r : common true p (p ++ r) = length p.
Proof. induction p as [|a p IH]; simpl; [by destruct r|]. by rewrite charEq_refl, IH. Qed.

Lemma matchList_extends p r :
  r ≠ [] → matchList true p (p ++ r) = TrieMapPrefixMatch (length p).
Proof.
  intros Hr. rewrite matchList_matchOf, common_extends, length_app. unfold matchOf.
  destruct r as [|b r]; [done|]. simpl.
  destruct (Nat.eqb_spec (length p) (length p + S (length r))); [lia|].
  destruct p; simpl; done.
Qed.

Lemma head_app_nonempty (a b : str) : a ≠ [] → head (a ++ b) = head a.
Proof. by destruct a. Qed.

Lemma noWildcard_key (s : ltree T) : noWildcard s → wildcard ∉ lkey s.
Proof. destruct s. by intros [? _]%noWildcard_node. Qed.

Lemma closestFrom_finds (s : ltree T) : ∀ sum fk adv w s' fk',
  properKeys s → noWildcard s → distinctHeads s →
  (s', fk') ∈ flat_map (fun c => subtrees c (fk ++ lkey c)) (lkids s) →
  fk' = fk ++ w →
  rnode (closestFrom true s (length (lkey s)) sum fk adv w) = s'
  ∧ rmatch (closestFrom true s (length (lkey s)) sum fk adv w) = full
  ∧ rfullKey (closestFrom true s (length (lkey s)) sum fk adv w) = fk'.
Proof.
  induction s as [id k val kids IH] using ltree_ind'.
  intros sum fk adv w s' fk' Hp Hnw Hd Hin Hfk. cbn [lkey lkids] in *.
  cbn [closestFrom]. rewrite Nat.eqb_refl.
  destruct (subtrees_below _ _ _ _ Hin) as (c & r & Hc & Hinc & Hfk').
  assert (w = lkey c ++ r) as Hw by (apply (app_inv_head fk); congruence).
  apply list_elem_of_split in Hc as (pre & post & ->).
  apply properKeys_inv in Hp. apply distinctHeads_inv in Hd as [Hnd Hdk].
  apply noWildcard_node in Hnw as [Hk Hnwk].
  rewrite Forall_app, Forall_cons in Hp, Hdk, Hnwk, IH.
  destruct Hp as (Hppre & [Hkc Hpc] & _), Hdk as (_ & Hdc & _),
    Hnwk as (Hwpre & Hwc & _), IH as (_ & IHc & _).
  assert (Forall (unmatched true w) pre) as Hpre.
  { rewrite Forall_forall in Hppre, Hwpre |- *. intros d Hd.
    apply head_unmatched.
    - by apply noWildcard_key, Hwpre.
    - by apply Hppre.
    - subst w. by destruct (lkey c).
    - rewrite Hw, head_app_nonempty by done.
      rewrite map_app in Hnd. simpl in Hnd.
      apply NoDup_app in Hnd as (_ & Hdis & _). intros E.
      apply (Hdis (head (lkey d))).
      + apply list_elem_of_fmap. by exists d.
      + rewrite E. left. }
  rewrite scanWith_hit by done. cbn [scanWith].
  destruct c as [ci ck cv ckids]. cbn [lkey] in *.
  cbn [subtrees] in Hinc. apply elem_of_cons in Hinc as [[= -> Hfkc]|Hinc].
  - assert (r = []) as ->.
    { apply (app_inv_head (fk ++ ck)). rewrite app_nil_r, <- app_assoc. congruence. }
    rewrite app_nil_r in Hw. subst w. rewrite matchList_refl. simpl.
    split; [done|]. split; [done|]. by rewrite Hfk.
  - destruct (subtrees_below _ _ _ _ Hinc) as (d & r' & Hd & _ & Hfk'').
    assert (r = lkey d ++ r') as Hr.
    { apply (app_inv_head (fk ++ ck)). rewrite <- !app_assoc in *. congruence. }
    assert (r ≠ []) as Hrne.
    { apply properKeys_inv in Hpc. rewrite Forall_forall in Hpc.
      destruct (Hpc d Hd) as [Hkd _]. subst r. by destruct (lkey d). }
    subst w. rewrite matchList_extends by done.
    rewrite drop_app_length.
    apply (IHc (sum + length ck) (fk ++ ck) (adv + length ck) r s' fk'); auto.
    rewrite <- app_assoc. congruence.
Qed.

Lemma closest_finds (l : ltree T) s' fk' :
  properKeys l → noWildcard l → distinctHeads l →
  (s', fk') ∈ subtrees l (lkey l) →
  ∃ r, closest true l fk' = Some r ∧ rnode r = s' ∧ rmatch r = full.
Proof.
  intros Hp Hnw Hd Hin. unfold closest.
  destruct l as [id k val kids]. cbn [lkey subtrees] in *.
  apply elem_of_cons in Hin as [[= -> ->]|Hin].
  - rewrite matchList_refl. eauto.
  - destruct (subtrees_below _ _ _ _ Hin) as (c & r & Hc & _ & Hfk').
    assert (lkey c ++ r ≠ []) as Hne.
    { apply properKeys_inv in Hp. rewrite Forall_forall in Hp.
      destruct (Hp c Hc) as [Hkc _]. by destruct (lkey c). }
    rewrite Hfk', matchList_extends by done. rewrite drop_app_length.
    eexists. split; [done|].
    destruct (closestFrom_finds (LNode id k val kids) (length k) k (length k)
                (lkey c ++ r) s' fk') as (H1 & H2 & _); auto.
Qed.

(** ** The keys and values of a tree *)

Lemma valued_subtree (s : ltree T) : ∀ fk k v,
  (k, v) ∈ valued s fk ↔ ∃ s', (s', k) ∈ subtrees s fk ∧ lval s' = Some v.
Proof.
  induction s as [id key val kids IH] using ltree_ind'. intros fk k v.
  cbn [valued subtrees]. rewrite elem_of_app, elem_of_flat_map.
  rewrite Forall_forall in IH. split.
  - intros [Hown|(c & Hc & Hin)].
    + destruct val as [x|]; [|by apply elem_of_nil in Hown].
      apply list_elem_of_singleton in Hown as [= -> ->].
      eexists. split; [left|done].
    + apply (IH c Hc) in Hin as (s' & Hs' & Hv). exists s'. split; [|done].
      right. apply elem_of_flat_map. eauto.
  - intros (s' & Hin & Hv). apply elem_of_cons in Hin as [[= -> ->]|Hin].
    + left. simpl in Hv. rewrite Hv. left.
    + right. apply elem_of_flat_map in Hin as (c & Hc & Hin).
      exists c. split; [done|]. apply (IH c Hc). eauto.
Qed.

Lemma valued_extends (s : ltree T) fk k v :
  (k, v) ∈ valued s fk → ∃ r, k = fk ++ r.
Proof.
  intros (s' & Hin & _)%valued_subtree. by eapply subtrees_extends.
Qed.

Lemma valued_NoDup (s : ltree T) : ∀ fk,
  properKeys s → distinctHeads s → NoDup (valued s fk).*1.
Proof.
  induction s as [id key val kids IH] using ltree_ind'. intros fk Hp Hd.
  apply properKeys_inv in Hp. apply distinctHeads_inv in Hd as [Hnd Hdk].
  cbn [valued]. rewrite fmap_app. apply NoDup_app. split; [|split].
  - destruct val; simpl; [apply NoDup_singleton|constructor].
  - intros k Hown Hin. destruct val as [x|]; simpl in Hown;
      [|by apply elem_of_nil in Hown].
    apply list_elem_of_singleton in Hown. subst k.
    apply list_elem_of_fmap in Hin as ([k v] & -> & Hin). simpl in *.
    apply elem_of_flat_map in Hin as (c & Hc & Hin).
    apply valued_extends in Hin as [r Hr]. rewrite Forall_forall in Hp.
    destruct (Hp c Hc) as [Hkc _]. apply (f_equal length) in Hr.
    rewrite !length_app in Hr. destruct (lkey c); simpl in *; [done|lia].
  - clear val. induction kids as [|c kids IHk]; [constructor|].
    apply Forall_cons in IH as [IHc IH], Hp as [[Hkc Hpc] Hp], Hdk as [Hdc Hdk].
    simpl in Hnd. apply NoDup_cons in Hnd as [Hhc Hnd].
    simpl. rewrite fmap_app. apply NoDup_app. split; [by apply IHc|].
    split; [|by apply IHk].
    intros k Hin1 Hin2.
    apply list_elem_of_fmap in Hin1 as ([k1 v1] & -> & Hin1).
    apply list_elem_of_fmap in Hin2 as ([k2 v2] & Hk & Hin2). simpl in *. subst k2.
    apply elem_of_flat_map in Hin2 as (d & Hdin & Hin2).
    apply valued_extends in Hin1 as [r1 Hr1], Hin2 as [r2 Hr2].
    rewrite Forall_forall in Hp. destruct (Hp d Hdin) as [Hkd _].
    apply Hhc. apply list_elem_of_fmap. exists d. split; [|done].
    rewrite <- !app_assoc in Hr1, Hr2. rewrite Hr1 in Hr2.
    apply app_inv_head in Hr2.
    apply (f_equal head) in Hr2. rewrite !head_app_nonempty in Hr2 by done. done.
Qed.

Lemma matches_plain p w : matchesText true p w → wildcard ∉ p → p = w.
Proof.
  induction 1 as [|a b p w Hab _ IH]; intros Hp; [done|].
  apply not_elem_of_cons in Hp as [Ha Hp].
  apply charEq_plain in Hab as ->; [|done]. f_equal. by apply IH.
Qed.

Lemma plain_app (a b : str) : wildcard ∉ a → wildcard ∉ b → wildcard ∉ a ++ b.
Proof. intros Ha Hb [?|?]%elem_of_app; auto. Qed.

Lemma subtrees_plain (l : ltree T) s' fk' :
  noWildcard l → (s', fk') ∈ subtrees l (lkey l) → wildcard ∉ fk'.
Proof.
  intros Hnw Hin.
  apply (subtrees_keysAre (fun k => wildcard ∉ k) l (lkey l) s' fk'); auto.
  - apply plain_app.
  - by apply noWildcard_key.
Qed.

Lemma valued_treeGet (l : ltree T) k v :
  properKeys l → noWildcard l → distinctHeads l →
  (k, v) ∈ valued l (lkey l) ↔ treeGet true (Some l) k = Some v.
Proof.
  intros Hp Hnw Hd. rewrite valued_subtree. unfold treeGet. cbn [mbind option_bind].
  split.
  - intros (s' & Hin & Hv).
    destruct (closest_finds l s' k Hp Hnw Hd Hin) as (r & -> & <- & Hf).
    cbn [mbind option_bind]. by rewrite Hf.
  - destruct (closest true l k) as [r|] eqn:E; cbn [mbind option_bind]; [|done].
    destruct (rmatch r) eqn:Hf; try done. intros Hv.
    exists (rnode r). split; [|done].
    pose proof (closest_subtree _ _ _ _ E) as Hin.
    pose proof (closest_matched _ _ _ _ E) as (Hm & _ & _).
    pose proof (closest_full_length _ _ _ _ E Hf) as Hlen.
    assert (matchedLength r = length (rfullKey r)) as Hml.
    { unfold matchedLength. rewrite Hf.
      pose proof (subtrees_key_length _ _ _ _ Hin). lia. }
    rewrite Hml, !take_ge in Hm by lia.
    apply matches_plain in Hm; [|by eapply subtrees_plain]. by rewrite <- Hm.
Qed.

End NodeLookup.

Section Contents.

Context {T : Type}.
Variable truthy : T → bool.

(** ** What a trie holds *)

Lemma firstChildFirst_valued (s : ltree T) : ∀ fk y,
  y ∈ firstChildFirst truthy s fk ↔ y ∈ valued s fk ∧ truthy y.2 = true.
Proof.
  induction s as [id k val kids IH] using ltree_ind'. intros fk y.
  cbn [firstChildFirst valued]. rewrite !elem_of_app, !elem_of_flat_map.
  rewrite Forall_forall in IH. split.
  - intros [Hown|(c & Hc & Hin)].
    + unfold yieldOf in Hown. destruct val as [x|]; [|by apply elem_of_nil in Hown].
      destruct (truthy x) eqn:Hx; [|by apply elem_of_nil in Hown].
      apply list_elem_of_singleton in Hown as ->. split; [left; left|done].
    + apply (IH c Hc) in Hin as [Hin Hy]. split; [|done]. right. eauto.
  - intros [[Hown|(c & Hc & Hin)] Hy].
    + left. unfold yieldOf. destruct val as [x|]; [|done].
      apply list_elem_of_singleton in Hown as ->. simpl in Hy. rewrite Hy. left.
    + right. exists c. split; [done|]. by apply (IH c Hc).
Qed.

Lemma firstChildFirst_sublist (s : ltree T) : ∀ fk,
  firstChildFirst truthy s fk `sublist_of` valued s fk.
Proof.
  induction s as [id k val kids IH] using ltree_ind'. intros fk.
  cbn [firstChildFirst valued]. apply sublist_app.
  - unfold yieldOf. destruct val as [x|]; [|done].
    destruct (truthy x); [done|apply sublist_nil_l].
  - induction kids as [|c kids IHk]; [done|].
    apply Forall_cons in IH as [IHc IH]. simpl. apply sublist_app; auto.
Qed.

Lemma jsonEntries_valued (s : ltree T) : ∀ pre,
  jsonEntries (treeJson s) pre = valued s (pre ++ lkey s).
Proof.
  induction s as [id k val kids IH] using ltree_ind'. intros pre.
  cbn [treeJson jsonEntries valued lkey]. f_equal.
  induction kids as [|c kids IHk]; [done|].
  apply Forall_cons in IH as [IHc IH]. simpl. by rewrite IHc, IHk.
Qed.

Lemma valued_normal cs (l : ltree T) k v :
  keysAre (fun k => norm cs k = k) l → (k, v) ∈ valued l (lkey l) → norm cs k = k.
Proof.
  intros Hk (s' & Hin & _)%valued_subtree.
  apply (subtrees_keysAre (fun k => norm cs k = k) l (lkey l) s' k); auto.
  - intros a b Ha Hb. by rewrite norm_app, Ha, Hb.
  - destruct l. by apply keysAre_node in Hk as [? _].
Qed.

Lemma valued_lastValue cs (entries : list (TrieMapKey * T)) l k v :
  Forall (fun e => wildcard ∉ keyAsString e.1) entries →
  treeSetAll cs None entries = Some l →
  (k, v) ∈ valued l (lkey l) ↔ lastValue cs entries k = Some v.
Proof.
  intros He Hl.
  destruct (treeSetAll_wellKept cs entries l He Hl) as (Hnw & Hp & Hd & Hk).
  assert (norm cs k = k →
          treeGet true (Some l) k
          = match lastValue cs entries k with Some v => Some v | None => None end)
    as Hget.
  { intros Hn. rewrite <- Hn at 1. rewrite <- treeGet_norm, <- Hl.
    rewrite treeSetAll_get; [|done|done]. by rewrite Hn. }
  split.
  - intros Hin. pose proof (valued_normal cs l k v Hk Hin) as Hn.
    apply valued_treeGet in Hin; [|done..]. rewrite Hget in Hin by done.
    by destruct (lastValue cs entries k).
  - intros Hlast. apply valued_treeGet; [done..|].
    rewrite Hget; [by rewrite Hlast|].
    apply lastValue_Some in Hlast as (k0 & _ & <-). apply storedKey_normal.
Qed.

Lemma treeSetAll_Some cs (entries : list (TrieMapKey * T)) :
  ∀ l : ltree T, treeSetAll cs (Some l) entries ≠ None.
Proof. induction entries as [|[k v] entries IH]; intros l; simpl; [done|apply IH]. Qed.

Lemma treeIterate_firstChildFirst (l : ltree T) order :
  treeIterate truthy l order ≡ₚ firstChildFirst truthy l (lkey l).
Proof.
  destruct order; simpl.
  - rewrite levelOrder_perm.
    + simpl. by rewrite app_nil_r.
    + unfold forestSize. simpl. by rewrite app_nil_r.
  - apply lastChildFirst_perm.
Qed.

(** The pairs [iterate] yields and the pairs [toJSON] holds, on the
    tree of a sequence of [set] calls. *)
Lemma iterate_shape (t : TrieMap T) lt order :
  shape t lt →
  iterate truthy t None order
  = Some (from_option (fun l => treeIterate truthy l order) [] lt).
Proof.
  destruct lt as [l|]; simpl; [apply iterate_spec|apply iterate_empty].
Qed.

Lemma treeIterate_contents cs (entries : list (TrieMapKey * T)) order :
  Forall (fun e => wildcard ∉ keyAsString e.1) entries →
  NoDup (from_option (fun l => treeIterate truthy l order) []
           (treeSetAll cs None entries)).*1
  ∧ ∀ k v, (k, v) ∈ from_option (fun l => treeIterate truthy l order) []
                      (treeSetAll cs None entries)
           ↔ lastValue cs entries k = Some v ∧ truthy v = true.
Proof.
  intros He. destruct (treeSetAll cs None entries) as [l|] eqn:Hl; simpl.
  - destruct (treeSetAll_wellKept cs entries l He Hl) as (Hnw & Hp & Hd & Hk). split.
    + rewrite treeIterate_firstChildFirst.
      apply (sublist_NoDup _ (valued l (lkey l)).*1).
      * by apply valued_NoDup.
      * apply fmap_sublist, firstChildFirst_sublist.
    + intros k v. rewrite treeIterate_firstChildFirst, firstChildFirst_valued.
      by rewrite (valued_lastValue cs entries l).
  - split; [constructor|]. intros k v. split; [by intros ?%elem_of_nil|].
    intros [Hlast _]. destruct entries as [|[k0 v0] entries]; [done|].
    simpl in Hl. by apply treeSetAll_Some in Hl.
Qed.

Lemma treeJson_contents cs (entries : list (TrieMapKey * T)) :
  Forall (fun e => wildcard ∉ keyAsString e.1) entries →
  NoDup (from_option (fun o => jsonEntries o []) []
           (treeJson <$> treeSetAll cs None entries)).*1
  ∧ ∀ k v, (k, v) ∈ from_option (fun o => jsonEntries o []) []
                      (treeJson <$> treeSetAll cs None entries)
           ↔ lastValue cs entries k = Some v.
Proof.
  intros He. destruct (treeSetAll cs None entries) as [l|] eqn:Hl; simpl.
  - destruct (treeSetAll_wellKept cs entries l He Hl) as (Hnw & Hp & Hd & Hk).
    rewrite jsonEntries_valued. simpl. split.
    + by apply valued_NoDup.
    + intros k v. by apply valued_lastValue.
  - split; [constructor|]. intros k v. split; [by intros ?%elem_of_nil|].
    intros Hlast. destruct entries as [|[k0 v0] entries]; [done|].
    simpl in Hl. by apply treeSetAll_Some in Hl.
Qed.

(** X9: of a trie built from entries without the wildcard character,
    [iterate()] yields, in either order, every stored key exactly once:
    the pairs it yields are the keys as stored (in lower case for a trie
    that ignores case) with the value most recently set, for the values
    that are truthy. The default iterator yields the same pairs. *)
Theorem iterate_lists_the_map (entries : list (TrieMapKey * T)) cs order :
  Forall (fun e => wildcard ∉ keyAsString e.1) entries →
  ∃ t ys zs, construct entries cs = Some t
    ∧ iterate truthy t None order = Some ys
    ∧ symbolIterator truthy t = Some zs
    ∧ zs ≡ₚ ys
    ∧ NoDup ys.*1
    ∧ ∀ k v, (k, v) ∈ ys ↔ lastValue cs entries k = Some v ∧ truthy v = true.
Proof.
  intros He. destruct (construct_shape entries cs) as (t & Ht & Hs & Hcs).
  destruct (treeIterate_contents cs entries order He) as [Hnd Hin].
  exists t, (from_option (fun l => treeIterate truthy l order) []
               (treeSetAll cs None entries)),
    (from_option (fun l => treeIterate truthy l bfs) [] (treeSetAll cs None entries)).
  split; [done|]. split; [exact (iterate_shape t _ order Hs)|].
  split; [exact (iterate_shape t _ bfs Hs)|].
  split; [|done].
  destruct (treeSetAll cs None entries) as [l|]; cbn [from_option]; [|done].
  by rewrite !treeIterate_firstChildFirst.
Qed.

(** X10: the object returned by [toJSON] of a trie built from entries
    without the wildcard character holds every stored key exactly once,
    with the value most recently set for it, whether truthy or not: the
    concatenated keys along its paths to the nodes with a value are the
    stored keys. An empty trie gives [null]. *)
Theorem toJSON_holds_the_map (entries : list (TrieMapKey * T)) cs :
  Forall (fun e => wildcard ∉ keyAsString e.1) entries →
  ∃ t j, construct entries cs = Some t ∧ toJSON t = Some j
    ∧ (j = None ↔ entries = [])
    ∧ NoDup (from_option (fun o => jsonEntries o []) [] j).*1
    ∧ ∀ k v, (k, v) ∈ from_option (fun o => jsonEntries o []) [] j
             ↔ lastValue cs entries k = Some v.
Proof.
  intros He. destruct (construct_shape entries cs) as (t & Ht & Hs & Hcs).
  exists t, (treeJson <$> treeSetAll cs None entries).
  split; [done|]. split; [by apply toJSON_spec|].
  split; [|by apply treeJson_contents].
  destruct entries as [|[k0 v0] entries]; [done|]. simpl.
  destruct (treeSetAll cs _ entries) eqn:Hl; [done|].
  by apply treeSetAll_Some in Hl.
Qed.

(** ** What [get] returns is stored *)

Lemma subtrees_fullKeys (s : ltree T) : ∀ fk s' fk',
  (s', fk') ∈ subtrees s fk → (lid s', fk') ∈ fullKeys s fk.
Proof.
  induction s as [id k val kids IH] using ltree_ind'. intros fk s' fk' Hin.
  cbn [subtrees fullKeys] in *. apply elem_of_cons in Hin as [[= -> ->]|Hin]; [left|].
  right. apply elem_of_flat_map in Hin as (c & Hc & Hin). rewrite Forall_forall in IH.
  apply elem_of_flat_map. exists c. split; [done|]. by apply (IH c Hc).
Qed.

Lemma subtree_node (t : TrieMap T) l s' fk' :
  shape t (Some l) → (s', fk') ∈ subtrees l (lkey l) →
  ∃ nd, nodes t !! lid s' = Some nd ∧ key nd = lkey s' ∧ value nd = lval s'
        ∧ pathKey t (lid s') = Some fk'.
Proof.
  intros Hs Hin. pose proof Hs as (_ & Hrep & _ & _).
  destruct (subtree_held _ _ _ _ _ _ Hrep Hin) as [p' Hrep'].
  eexists. split; [by apply (represents_root _ _ _ Hrep')|].
  split; [done|]. split; [done|].
  by apply (shape_pathKey t l), subtrees_fullKeys.
Qed.

(** X11: a value returned by [get], on any trie built by the constructor
    and [set] (wildcards and case folding included), is the value of a
    node whose full key has the length of the key asked for and matches
    it character by character. *)
Theorem get_returns_stored_value (t : TrieMap T) k v k' :
  reachable t → wellFormedKey k →
  get t k = Some (Some v, k') →
  ∃ i nd fk, nodes t !! i = Some nd ∧ value nd = Some v
    ∧ pathKey t i = Some fk
    ∧ matchesText (caseSensitive t) fk (keyAsString k).
Proof.
  intros Hr Hwf Hget. destruct (reachable_shape t Hr) as [entries Hs].
  destruct (get_spec t _ k Hs Hwf) as [k2 Hg]. rewrite Hg in Hget.
  injection Hget as Hv _.
  destruct (treeSetAll (caseSensitive t) None entries) as [l|] eqn:Hl; [|done].
  unfold treeGet in Hv. cbn [mbind option_bind] in Hv.
  destruct (closest (caseSensitive t) l (keyAsString k)) as [r|] eqn:E;
    cbn [mbind option_bind] in Hv; [|done].
  destruct (rmatch r) eqn:Hf; try done.
  pose proof (closest_subtree _ _ _ _ E) as Hin.
  destruct (subtree_node t l _ _ Hs Hin) as (nd & Hnd & _ & Hval & Hpk).
  exists (lid (rnode r)), nd, (rfullKey r).
  split; [done|]. split; [congruence|]. split; [done|].
  pose proof (closest_matched _ _ _ _ E) as (Hm & _ & _).
  pose proof (closest_full_length _ _ _ _ E Hf) as Hlen.
  assert (matchedLength r = length (rfullKey r)) as Hml.
  { unfold matchedLength. rewrite Hf.
    pose proof (subtrees_key_length _ _ _ _ Hin). lia. }
  by rewrite Hml, !take_ge in Hm by lia.
Qed.

End Contents.

Section PrefixIteration.

Context {T : Type}.
Variable truthy : T → bool.

(** ** Iteration below a prefix *)










End PrefixIteration.

Section StoredResults.

Context {T : Type}.
Variable truthy : T → bool.

(** ** What [findByLongestPrefix] returns is stored *)

Lemma keyPath_agree (h : list (TrieMapNode T)) i m m' x y :
  keyPath m h i = Some x → keyPath m' h i = Some y → x = y.
Proof.
  intros H1 H2.
  apply (keyPath_mono _ _ _ (m + m')) in H1; [|lia].
  apply (keyPath_mono _ _ _ (m + m')) in H2; [|lia]. congruence.
Qed.

Lemma scanChildren_found (t : TrieMap T) cs kp sc :
  scanChildren t cs kp = Some sc →
  match sc with
  | ScanFull c ck | ScanPrefix c ck _ =>
      c ∈ cs ∧ ∃ nd, nodes t !! c = Some nd ∧ key nd = ck
  | ScanNothing => True
  end.
Proof.
  induction cs as [|d cs IH]; [by intros [= <-]|]. simpl.
  destruct (nodes t !! d) as [dn|] eqn:Hd; [|done]. cbn [mbind option_bind].
  destruct (matchPrefix _ _ kp) as [[| |j]|]; cbn [mbind option_bind]; try done.
  - intros [= <-]. split; [left|eauto].
  - intros E. apply IH in E. destruct sc as [c ck|c ck j|]; [| |done].
    + destruct E as [Hc He]. split; [by right|done].
    + destruct E as [Hc He]. split; [by right|done].
  - intros [= <-]. split; [left|eauto].
Qed.

Section Linked.

Variable t : TrieMap T.

Hypothesis child_parent : ∀ q qn i,
  nodes t !! q = Some qn → i ∈ children qn →
  ∃ nd, nodes t !! i = Some nd ∧ parent nd = Some q.

Hypothesis below_root_key : ∀ i nd q,
  nodes t !! i = Some nd → parent nd = Some q → key nd ≠ [].

Hypothesis root_parent : ∀ r rn,
  root t = Some r → nodes t !! r = Some rn → parent rn = None.

Lemma keyPath_child m q qn c nd fk :
  nodes t !! q = Some qn → c ∈ children qn → nodes t !! c = Some nd →
  keyPath m (nodes t) q = Some fk →
  keyPath (S m) (nodes t) c = Some (fk ++ key nd).
Proof.
  intros Hq Hc Hnd Hk. destruct (child_parent q qn c Hq Hc) as (nd' & Hnd' & Hp).
  assert (nd' = nd) as -> by congruence.
  rewrite keyPath_S, Hnd. cbn [mbind option_bind]. rewrite Hp, Hk. done.
Qed.

Lemma closestLoop_path fuel orig : ∀ cand i sum fk kp res kp' m,
  keyPath m (nodes t) cand = Some fk →
  closestLoop fuel t orig cand i sum fk kp = Some (Some res, kp') →
  ∃ m', keyPath m' (nodes t) (node res) = Some (fullKey res).
Proof.
  induction fuel as [|fuel IH]; intros cand i sum fk kp res kp' m Hk; [done|]. simpl.
  destruct (nodes t !! cand) as [cn|] eqn:Hc; [|done]. cbn [mbind option_bind].
  destruct (i =? length (key cn)).
  - destruct (scanChildren t (children cn) kp) as [[c ck|c ck j|]|] eqn:Hs;
      cbn [mbind option_bind]; try done.
    + intros [= <- _]. cbn [node fullKey].
      apply scanChildren_found in Hs as (Hin & nd & Hnd & <-).
      exists (S m). by apply (keyPath_child m cand cn).
    + apply scanChildren_found in Hs as (Hin & nd & Hnd & <-).
      apply (IH _ _ _ _ _ _ _ (S m)). by apply (keyPath_child m cand cn).
    + intros [= <- _]. cbn [node fullKey]. eauto.
  - intros [= <- _]. cbn [node fullKey]. eauto.
Qed.

Lemma traversal_path kp res kp' :
  findClosestMatchingNode t kp = Some (Some res, kp') →
  ∃ m, keyPath m (nodes t) (node res) = Some (fullKey res).
Proof.
  unfold findClosestMatchingNode. destruct (root t) as [r|] eqn:Hroot; [|done].
  destruct (nodes t !! r) as [rn|] eqn:Hr; [|done]. cbn [mbind option_bind].
  assert (keyPath 1 (nodes t) r = Some (key rn)) as Hk.
  { rewrite keyPath_S, Hr. cbn [mbind option_bind].
    by rewrite (root_parent r rn eq_refl Hr). }
  destruct (matchPrefix _ _ kp) as [[| |i]|]; cbn [mbind option_bind]; try done.
  - intros [= <- _]. cbn [node fullKey]. eauto.
  - by apply closestLoop_path with (m := 1).
Qed.

Lemma walkUp_path : ∀ fuel m n fk p fk',
  keyPath m (nodes t) n = Some fk →
  walkUp truthy fuel t n fk = Some (Some p, fk') →
  ∃ m' r nd, keyPath m' (nodes t) p = Some fk' ∧ fk = fk' ++ r
             ∧ nodes t !! n = Some nd ∧ length (key nd) ≤ length r.
Proof.
  induction fuel as [|fuel IH]; intros m n fk p fk' Hk; [done|].
  destruct m as [|m]; [done|]. rewrite keyPath_S in Hk. cbn [walkUp].
  destruct (nodes t !! n) as [nd|] eqn:Hn; [|done]. cbn [mbind option_bind] in *.
  destruct (parent nd) as [q|] eqn:Hq; [|done].
  destruct (keyPath m (nodes t) q) as [pre|] eqn:Hpre; [|done].
  cbn [mbind option_bind] in Hk. injection Hk as <-.
  assert (sliceDropEnd (pre ++ key nd) (length (key nd)) = pre) as ->.
  { unfold sliceDropEnd. pose proof (below_root_key n nd q Hn Hq) as Hne.
    destruct (Nat.eqb_spec (length (key nd)) 0) as [E|_].
    - destruct (key nd); [done|simpl in E; lia].
    - rewrite length_app.
      replace (length pre + length (key nd) - length (key nd)) with (length pre) by lia.
      by rewrite take_app_length. }
  destruct (nodes t !! q) as [qn|] eqn:Hqn; [|done]. cbn [mbind option_bind].
  destruct (truthyValue truthy (value qn)).
  - intros [= <- <-]. exists m, (key nd), nd. done.
  - intros Hw. destruct (IH m q pre p fk' Hpre Hw) as (m' & r & qn' & Hp & -> & _ & _).
    exists m', (r ++ key nd), nd. split; [done|]. split; [by rewrite app_assoc|].
    split; [done|]. rewrite length_app. lia.
Qed.

Lemma candidate_path kp n fk kp' :
  longestPrefixCandidate truthy t kp = Some (Some (n, fk), kp') →
  ∃ m, keyPath m (nodes t) n = Some fk.
Proof.
  unfold longestPrefixCandidate.
  destruct (findClosestMatchingNode t kp) as [[[r|] kp1]|] eqn:E;
    cbn [mbind option_bind]; try done.
  apply traversal_path in E as [m Hm].
  destruct (nodes t !! node r) as [nd|] eqn:Hn; [|done]. cbn [mbind option_bind].
  destruct (match_ r) as [| |i], (value nd) as [x|]; try done.
  - intros [= <- <- _]. eauto.
  - destruct (i =? length (key nd)); [intros [= <- <- _]; eauto|].
    destruct (walkUp truthy _ t (node r) (fullKey r)) as [[[p|] fk']|] eqn:Hw;
      cbn [mbind option_bind]; try done.
    intros [= <- <- _].
    destruct (walkUp_path _ _ _ _ _ _ Hm Hw) as (m' & _ & _ & Hp & _). eauto.
Qed.

Lemma findByLongestPrefixLoop_stored fuel : ∀ kp wb fk v kp',
  findByLongestPrefixLoop truthy fuel t kp wb = Some (Some (fk, v), kp') →
  ∃ n nd m, nodes t !! n = Some nd ∧ value nd = Some v ∧ truthy v = true
            ∧ keyPath m (nodes t) n = Some fk.
Proof.
  induction fuel as [|fuel IH]; intros kp wb fk v kp'; [done|].
  rewrite findByLongestPrefixLoop_step.
  destruct (longestPrefixCandidate truthy t kp) as [[[[n fk0]|] kp1]|] eqn:E;
    cbn [mbind option_bind]; try done.
  destruct (wb && rejects kp1 (length fk0)); [apply IH|].
  destruct (nodes t !! n) as [nd|] eqn:Hn; [|done]. cbn [mbind option_bind].
  destruct (value nd) as [x|] eqn:Hx; [|done].
  destruct (truthy x) eqn:Ht; [|done]. intros [= <- <- _].
  apply candidate_path in E as [m Hm]. by exists n, nd, m.
Qed.

End Linked.

Lemma shape_linked (t : TrieMap T) l :
  shape t (Some l) → properKeys l →
  (∀ q qn i, nodes t !! q = Some qn → i ∈ children qn →
     ∃ nd, nodes t !! i = Some nd ∧ parent nd = Some q)
  ∧ (∀ i nd q, nodes t !! i = Some nd → parent nd = Some q → key nd ≠ [])
  ∧ (∀ r rn, root t = Some r → nodes t !! r = Some rn → parent rn = None).
Proof.
  intros Hs Hp. pose proof Hs as (Hroot & Hrep & Hnd & Hlen). split; [|split].
  - intros q qn i Hq Hi. apply (shape_cell t l) in Hq; [|done].
    destruct (tree_child None l q qn i Hq Hi) as (nd & Hin & Hpar).
    exists nd. split; [by apply Hrep|done].
  - intros i nd q Hi Hpar. eapply (cells_proper None l i); [done| |].
    + by eapply shape_cell.
    + intros ->. pose proof (proj2 (parent_root t l _ nd Hs Hi) Hroot). congruence.
  - intros r rn Hr Hn. by apply (parent_root t l r rn Hs Hn).
Qed.

Lemma pathKey_of (t : TrieMap T) l i m fk :
  shape t (Some l) → keyPath m (nodes t) i = Some fk → pathKey t i = Some fk.
Proof.
  intros Hs Hk. assert (i < length (nodes t)) as Hi.
  { destruct m; [done|]. rewrite keyPath_S in Hk.
    destruct (nodes t !! i) eqn:E; [|done]. by eapply lookup_lt_Some. }
  destruct (pathKey_total t l i Hs Hi) as [x Hx]. rewrite Hx. f_equal.
  by eapply keyPath_agree.
Qed.

Lemma matchesText_take cs p w n :
  matchesText cs p w → matchesText cs (take n p) (take n w).
Proof. apply Forall2_take. Qed.

Lemma candidate_matches (t : TrieMap T) l kp n fk kp' :
  shape t (Some l) → properKeys l → wellFormed kp →
  longestPrefixCandidate truthy t kp = Some (Some (n, fk), kp') →
  length fk ≤ length (content kp)
  ∧ matchesText (caseSensitive t) fk (take (length fk) (content kp)).
Proof.
  intros Hs Hp Hwf. destruct (shape_linked t l Hs Hp) as (_ & Hkey & _).
  pose proof Hs as (Hroot & Hrep & Hnd & Hlen).
  assert (∀ R, closest (caseSensitive t) l (content kp) = Some R →
            ∀ fk', length fk' ≤ matchedLength R →
              (∃ r, rfullKey R = fk' ++ r) →
              length fk' ≤ length (content kp)
              ∧ matchesText (caseSensitive t) fk' (take (length fk') (content kp)))
    as Hgen.
  { intros R E fk' Hl [r Hr].
    pose proof (closest_matched _ _ _ _ E) as (Hm & Hw & Hf).
    split; [lia|]. apply (matchesText_take _ _ _ (length fk')) in Hm.
    rewrite !take_take in Hm. rewrite !Nat.min_l in Hm by lia.
    by rewrite Hr, take_app_length in Hm. }
  unfold longestPrefixCandidate.
  destruct t as [rt cs h]. cbn [root nodes caseSensitive] in *. subst rt.
  rewrite findClosestMatchingNode_spec; [|done|lia|done]. cbn [mbind option_bind].
  destruct (closest cs l (content kp)) as [R|] eqn:E; [|done].
  pose proof (closest_subtree _ _ _ _ E) as Hin.
  pose proof (subtrees_key_length _ _ _ _ Hin (le_n _)) as Hkl.
  destruct (subtree_node (mkTrie (Some (lid l)) cs h) l _ _ Hs Hin)
    as (nd & Hn & Hkn & Hval & Hpk).
  cbn [nodes] in Hn. cbn [reachedResult node match_ fullKey nodes].
  rewrite Hn. cbn [mbind option_bind].
  specialize (Hgen R eq_refl). unfold matchedLength in Hgen.
  destruct (rmatch R) as [| |i] eqn:Hf, (value nd) as [x|]; try done.
  - intros [= <- <- _]. apply Hgen; [lia|]. exists []. by rewrite app_nil_r.
  - destruct (Nat.eqb_spec i (length (key nd))) as [Hi|Hi].
    + intros [= <- <- _]. apply Hgen; [rewrite <- Hkn; lia|].
      exists []. by rewrite app_nil_r.
    + destruct (walkUp truthy _ _ (lid (rnode R)) (rfullKey R)) as [[[p|] fk']|] eqn:Hw;
        cbn [mbind option_bind]; try done.
      intros [= <- <- _].
      destruct (walkUp_path (mkTrie (Some (lid l)) cs h) Hkey _ _ _ _ _ _ Hpk Hw) as (m' & r & nd' & _ & Hr & Hn' & Hlr).
      cbn [nodes] in Hn'. assert (nd' = nd) as -> by congruence.
      apply Hgen; [|eauto]. apply (f_equal length) in Hr.
      rewrite length_app in Hr. rewrite <- Hkn. lia.
Qed.

Lemma findByLongestPrefix_stored (t : TrieMap T) search wb fk v search' :
  reachable t → wellFormedKey search →
  findByLongestPrefix truthy t search wb = Some (Some (fk, v), search') →
  (∃ n nd, nodes t !! n = Some nd ∧ value nd = Some v ∧ truthy v = true
           ∧ pathKey t n = Some fk)
  ∧ (wb = false →
     length fk ≤ length (keyAsString search)
     ∧ matchesText (caseSensitive t) fk (take (length fk) (keyAsString search))).
Proof.
  intros Hr Hwf Hfind. destruct (reachable_shape t Hr) as [entries Hs].
  unfold findByLongestPrefix in Hfind.
  destruct (findByLongestPrefixAt truthy t (keyAsPointer search) wb)
    as [[res kp']|] eqn:E; [|done].
  cbn [mbind option_bind] in Hfind. injection Hfind as -> _.
  destruct (treeSetAll (caseSensitive t) None entries) as [l|] eqn:El.
  2: { destruct Hs as [Hroot _]. rewrite findByLongestPrefixAt_unfold in E.
       unfold longestPrefixCandidate, findClosestMatchingNode in E.
       by rewrite Hroot in E. }
  assert (properKeys l) as Hp
    by (by apply (treeSetAll_proper (caseSensitive t) entries None)).
  destruct (shape_linked t l Hs Hp) as (Hc & Hk & Hrt). split.
  - unfold findByLongestPrefixAt in E.
    destruct (findByLongestPrefixLoop_stored t Hc Hk Hrt _ _ _ _ _ _ E)
      as (n & nd & m & Hn & Hv & Ht & Hm).
    exists n, nd. split; [done|]. split; [done|]. split; [done|].
    by eapply pathKey_of.
  - intros ->. rewrite findByLongestPrefixAt_unfold in E.
    destruct (longestPrefixCandidate truthy t (keyAsPointer search))
      as [[[[n fk0]|] kp1]|] eqn:Ec; cbn [mbind option_bind] in E; try done.
    cbn [andb] in E.
    destruct (nodes t !! n) as [nd|]; [|done]. cbn [mbind option_bind] in E.
    destruct (value nd) as [x|]; [|done]. destruct (truthy x); [|done].
    injection E as -> _ _.
    rewrite <- (content_keyAsString search) by done.
    by eapply candidate_matches.
Qed.

(** ** Nodes and the pairs of the tree *)



(** X15: a key that [get] finds with a truthy value is found by
    [findByLongestPrefix] with the same value, with and without word
    boundaries, and the key returned has the length of the search text
    and matches it character by character. *)
Theorem findByLongestPrefix_finds_exact_key (t : TrieMap T) k v k' wb :
  reachable t → wellFormedKey k →
  get t k = Some (Some v, k') → truthy v = true →
  ∃ fk, findByLongestPrefix truthy t k wb = Some (Some (fk, v), k')
        ∧ length fk = length (keyAsString k)
        ∧ matchesText (caseSensitive t) fk (keyAsString k).
Proof.
  intros Hr Hwf Hget Hv. destruct (reachable_shape t Hr) as [entries Hs].
  destruct (treeSetAll (caseSensitive t) None entries) as [l|] eqn:El.
  2: { destruct Hs as [Hroot _]. unfold get, getAt, findClosestMatchingNode in Hget.
       by rewrite Hroot in Hget. }
  pose proof Hs as (Hroot & Hrep & Hnd & Hlen).
  unfold findByLongestPrefix. rewrite findByLongestPrefixAt_unfold.
  unfold get, getAt in Hget. unfold longestPrefixCandidate.
  destruct t as [rt cs h]. cbn [root nodes caseSensitive] in *. subst rt.
  rewrite findClosestMatchingNode_spec in Hget; [|done|lia|done].
  rewrite findClosestMatchingNode_spec; [|done|lia|done].
  cbn [mbind option_bind] in Hget |- *.
  destruct (closest cs l (content (keyAsPointer k))) as [R|] eqn:E;
    [|by simplify_eq].
  cbn [reachedResult node match_ fullKey nodes] in Hget |- *.
  destruct (rmatch R) eqn:Hf; [|by simplify_eq|by simplify_eq].
  destruct (h !! lid (rnode R)) as [nd|] eqn:Hn; [|done].
  cbn [mbind option_bind] in Hget |- *. injection Hget as Hval <-.
  rewrite Hval. cbn [mbind option_bind].
  pose proof (closest_full_length _ _ _ _ E Hf) as Hfl.
  assert (rejects (pointerAfter (keyAsPointer k) (pos (keyAsPointer k)) R)
            (length (rfullKey R)) = false) as ->.
  { unfold rejects, pointerAfter, restore. cbn [pos posMax data].
    rewrite Hfl, content_length by done. destruct Hwf as (? & ? & ?).
    apply andb_false_iff. left. apply Z.ltb_ge. lia. }
  rewrite andb_false_r, Hn. cbn [mbind option_bind]. rewrite Hval, Hv.
  exists (rfullKey R). split; [done|].
  rewrite content_keyAsString in Hfl, E by done. split; [done|].
  pose proof (closest_matched _ _ _ _ E) as (Hm & _ & _).
  pose proof (closest_subtree _ _ _ _ E) as Hin.
  assert (matchedLength R = length (rfullKey R)) as Hml.
  { unfold matchedLength. rewrite Hf.
    pose proof (subtrees_key_length _ _ _ _ Hin (le_n _)). lia. }
  by rewrite Hml, !take_ge in Hm by lia.
Qed.

End StoredResults.

Section RetriesText.

Context {T : Type}.
Variable truthy : T → bool.

(** ** The retries keep to the beginning of the text *)

Lemma scanChildren_inverted (t : TrieMap T) cs kp sc :
  (posMax kp < pos kp)%Z → scanChildren t cs kp = Some sc →
  match cs with
  | [] => sc = ScanNothing
  | c :: _ => ∃ nd, nodes t !! c = Some nd ∧ sc = ScanPrefix c (key nd) 0
  end.
Proof.
  intros Hinv. destruct cs as [|c cs]; simpl; [by intros [= <-]|].
  destruct (nodes t !! c) as [nd|]; [|done]. cbn [mbind option_bind].
  rewrite matchPrefix_inverted by done. cbn [mbind option_bind].
  intros [= <-]. eauto.
Qed.

Section Linked.

Variable t : TrieMap T.

Hypothesis child_parent : ∀ q qn i,
  nodes t !! q = Some qn → i ∈ children qn →
  ∃ nd, nodes t !! i = Some nd ∧ parent nd = Some q.

Hypothesis below_root_key : ∀ i nd q,
  nodes t !! i = Some nd → parent nd = Some q → key nd ≠ [].

Hypothesis root_parent : ∀ r rn,
  root t = Some r → nodes t !! r = Some rn → parent rn = None.

(** On a window with [posMax < pos] the traversal stops at the root or
    at its first child, having matched nothing. *)
Lemma traversal_inverted kp res kp' :
  (posMax kp < pos kp)%Z →
  findClosestMatchingNode t kp = Some (Some res, kp') →
  match_ res = TrieMapPrefixMatch 0
  ∧ ∃ nd, nodes t !! node res = Some nd ∧ fullKey res = key nd.
Proof.
  intros Hinv. unfold findClosestMatchingNode.
  destruct (root t) as [r|]; [|done].
  destruct (nodes t !! r) as [rn|] eqn:Hr; [|done]. cbn [mbind option_bind].
  rewrite matchPrefix_inverted by done. cbn [mbind option_bind].
  cbn [closestLoop]. rewrite Hr. cbn [mbind option_bind].
  destruct (Nat.eqb_spec 0 (length (key rn))) as [E0|E0].
  2: { intros [= <- _]. cbn [match_ node fullKey]. eauto. }
  destruct (scanChildren t (children rn) (advance kp 0)) as [sc|] eqn:Hsc; [|done].
  cbn [mbind option_bind].
  apply scanChildren_inverted in Hsc; [|simpl; lia].
  destruct (children rn) as [|c cs] eqn:Hch.
  - subst sc. intros [= <- _]. cbn [match_ node fullKey]. eauto.
  - destruct Hsc as (nd & Hnd & ->).
    destruct (child_parent r rn c Hr) as (nd' & Hnd' & Hpar); [rewrite Hch; left|].
    assert (nd' = nd) as -> by congruence.
    pose proof (below_root_key c nd r Hnd Hpar) as Hne.
    destruct (length (nodes t)) as [|n]; [done|]. cbn [closestLoop].
    rewrite Hnd. cbn [mbind option_bind].
    destruct (Nat.eqb_spec 0 (length (key nd))) as [E1|E1].
    { destruct (key nd); [done|simpl in E1; lia]. }
    intros [= <- _]. cbn [match_ node fullKey]. split; [done|].
    exists nd. split; [done|]. destruct (key rn); [done|simpl in E0; lia].
Qed.

Lemma candidate_inverted kp n fk kp' :
  (posMax kp < pos kp)%Z →
  longestPrefixCandidate truthy t kp = Some (Some (n, fk), kp') → fk = [].
Proof.
  intros Hinv. unfold longestPrefixCandidate.
  destruct (findClosestMatchingNode t kp) as [[[r|] kp1]|] eqn:E;
    cbn [mbind option_bind]; try done.
  destruct (traversal_inverted _ _ _ Hinv E) as (Hm & nd & Hn & Hfk).
  destruct (traversal_path t child_parent root_parent _ _ _ E) as [m Hpath].
  rewrite Hn. cbn [mbind option_bind]. rewrite Hm.
  destruct (value nd); [|done].
  destruct (Nat.eqb_spec 0 (length (key nd))) as [E0|E0].
  - intros [= <- <- _]. rewrite Hfk. by destruct (key nd).
  - destruct (walkUp truthy _ t (node r) (fullKey r)) as [[[p|] fk']|] eqn:Hw;
      cbn [mbind option_bind]; try done.
    intros [= <- <- _].
    destruct (walkUp_path truthy t below_root_key _ _ _ _ _ _ Hpath Hw)
      as (m' & r' & nd' & _ & Hr' & Hn' & Hl).
    assert (nd' = nd) as -> by congruence.
    rewrite Hfk in Hr'. apply (f_equal length) in Hr'. rewrite length_app in Hr'.
    destruct fk'; [done|simpl in Hr'; lia].
Qed.

End Linked.

Lemma content_narrow kp pm :
  wellFormed kp → (pos kp ≤ pm ≤ posMax kp)%Z →
  wellFormed (narrow kp pm)
  ∧ content (narrow kp pm) = take (Z.to_nat (pm - pos kp)) (content kp).
Proof.
  intros (H0 & H1 & H2) Hpm. split; [unfold wellFormed, narrow; simpl; lia|].
  unfold content, narrow. simpl. rewrite take_take. f_equal. lia.
Qed.

Lemma findByLongestPrefixLoop_matches (t : TrieMap T) l :
  reachable t → shape t (Some l) → properKeys l →
  ∀ fuel kp wb fk v kp' w0,
    (wellFormed kp ∧ content kp `prefix_of` w0) ∨ (posMax kp < pos kp)%Z →
    findByLongestPrefixLoop truthy fuel t kp wb = Some (Some (fk, v), kp') →
    length fk ≤ length w0
    ∧ matchesText (caseSensitive t) fk (take (length fk) w0).
Proof.
  intros Hr Hs Hp. destruct (shape_linked t l Hs Hp) as (Hc & Hk & Hrt).
  induction fuel as [|fuel IH]; intros kp wb fk v kp' w0 Hkp; [done|].
  rewrite findByLongestPrefixLoop_step.
  destruct (longestPrefixCandidate truthy t kp) as [[[[n fk0]|] kp1]|] eqn:E;
    cbn [mbind option_bind]; try done.
  pose proof (longestPrefixCandidate_pointer truthy _ _ _ _ E) as (Hd & Hpm & Hpos).
  destruct (wb && rejects kp1 (length fk0)) eqn:Hrej.
  - apply andb_true_iff in Hrej as [_ Hrej]. unfold rejects in Hrej.
    apply andb_true_iff in Hrej as [Hlt _]. apply Z.ltb_lt in Hlt.
    destruct Hkp as [[Hwf Hpre]|Hinv]; [|lia].
    destruct (candidate_pointer _ _ _ _ _ _ Hr Hwf E) as [->|Hfull]; [|lia].
    apply IH. destruct (length fk0) as [|len] eqn:Hlen.
    + right. simpl. lia.
    + left. pose proof Hwf as (H0 & H1 & H2).
      destruct (content_narrow kp (pos kp + Z.of_nat (S len) - 1) Hwf) as [Hwf' Hc'];
        [lia|].
      split; [done|]. rewrite Hc'. etransitivity; [apply prefix_take|done].
  - destruct (nodes t !! n) as [nd|]; [|done]. cbn [mbind option_bind].
    destruct (value nd) as [x|]; [|done]. destruct (truthy x); [|done].
    intros [= <- <- _]. destruct Hkp as [[Hwf Hpre]|Hinv].
    + destruct (candidate_matches truthy t l kp n fk0 kp1 Hs Hp Hwf E) as [Hl Hm].
      destruct Hpre as [rest ->]. rewrite length_app. split; [lia|].
      by rewrite take_app_le by done.
    + rewrite (candidate_inverted t Hc Hk Hrt kp n fk0 kp1 Hinv E).
      split; [simpl; lia|]. constructor.
Qed.

(** X13: a pair returned by [findByLongestPrefix], with or without word
    boundaries and on any trie built by the constructor and [set], is
    the full key and the value of a node of the trie, and the value is
    truthy; the key is no longer than the search text and matches its
    beginning character by character. *)
Theorem findByLongestPrefix_returns_stored (t : TrieMap T) search wb fk v search' :
  reachable t → wellFormedKey search →
  findByLongestPrefix truthy t search wb = Some (Some (fk, v), search') →
  (∃ n nd, nodes t !! n = Some nd ∧ value nd = Some v ∧ truthy v = true
           ∧ pathKey t n = Some fk)
  ∧ length fk ≤ length (keyAsString search)
  ∧ matchesText (caseSensitive t) fk (take (length fk) (keyAsString search)).
Proof.
  intros Hr Hwf Hfind.
  split; [by apply (findByLongestPrefix_stored truthy t search wb fk v search')|].
  destruct (reachable_shape t Hr) as [entries Hs].
  unfold findByLongestPrefix in Hfind.
  destruct (findByLongestPrefixAt truthy t (keyAsPointer search) wb)
    as [[res kp']|] eqn:E; [|done].
  cbn [mbind option_bind] in Hfind. injection Hfind as -> _.
  destruct (treeSetAll (caseSensitive t) None entries) as [l|] eqn:El.
  2: { destruct Hs as [Hroot _]. rewrite findByLongestPrefixAt_unfold in E.
       unfold longestPrefixCandidate, findClosestMatchingNode in E.
       by rewrite Hroot in E. }
  assert (properKeys l) as Hp
    by (by apply (treeSetAll_proper (caseSensitive t) entries None)).
  unfold findByLongestPrefixAt in E.
  apply (findByLongestPrefixLoop_matches t l Hr Hs Hp (retryFuel (keyAsPointer search))
           (keyAsPointer search) wb fk v kp'
           (keyAsString search)); [|done].
  left. split; [done|]. by rewrite content_keyAsString.
Qed.


End RetriesText.

Section InsertionOrder.

Context {T : Type}.
Variable truthy : T → bool.

(** ** The order of insertion *)

Lemma lastValue_perm cs (es es' : list (TrieMapKey * T)) w :
  NoDup ((fun e => storedKey cs e.1) <$> es) → es' ≡ₚ es →
  lastValue cs es' w = lastValue cs es w.
Proof.
  intros Hnd Hperm.
  assert (NoDup ((fun e => storedKey cs e.1) <$> es')) as Hnd' by (by rewrite Hperm).
  assert (∀ a b : list (TrieMapKey * T),
            NoDup ((fun e => storedKey cs e.1) <$> b) → a ≡ₚ b →
            ∀ v, lastValue cs a w = Some v → lastValue cs b w = Some v) as Himp.
  { intros a b Hb Hab v (k & Hin & <-)%lastValue_Some.
    apply lastValue_in; [done|]. by rewrite <- Hab. }
  destruct (lastValue cs es' w) as [v'|] eqn:E'.
  - symmetry. by apply (Himp es' es).
  - destruct (lastValue cs es w) as [v|] eqn:E; [|done].
    apply (Himp es es') in E; [congruence|done|done].
Qed.

(** X16: tries built from the same entries in different orders hold the
    same pairs, when the keys contain no wildcard character and are
    stored as pairwise distinct keys: [iterate()] yields the same pairs
    up to their order, and the objects returned by [toJSON] hold the
    same pairs of full key and value. *)
Theorem contents_independent_of_insertion_order
    (entries entries' : list (TrieMapKey * T)) cs order :
  Forall (fun e => wildcard ∉ keyAsString e.1) entries →
  entries' ≡ₚ entries →
  NoDup ((fun e => storedKey cs e.1) <$> entries) →
  ∃ t t' ys ys' j j',
    construct entries cs = Some t ∧ construct entries' cs = Some t'
    ∧ iterate truthy t None order = Some ys
    ∧ iterate truthy t' None order = Some ys'
    ∧ ys ≡ₚ ys'
    ∧ toJSON t = Some j ∧ toJSON t' = Some j'
    ∧ from_option (fun o => jsonEntries o []) [] j
      ≡ₚ from_option (fun o => jsonEntries o []) [] j'.
Proof.
  intros He Hperm Hnd.
  assert (Forall (fun e => wildcard ∉ keyAsString e.1) entries') as He'
    by (by rewrite Hperm).
  destruct (construct_shape entries cs) as (t & Ht & Hs & _).
  destruct (construct_shape entries' cs) as (t' & Ht' & Hs' & _).
  destruct (treeIterate_contents truthy cs entries order He) as [Hndy Hy].
  destruct (treeIterate_contents truthy cs entries' order He') as [Hndy' Hy'].
  destruct (treeJson_contents cs entries He) as [Hndj Hj].
  destruct (treeJson_contents cs entries' He') as [Hndj' Hj'].
  exists t, t',
    (from_option (fun l => treeIterate truthy l order) [] (treeSetAll cs None entries)),
    (from_option (fun l => treeIterate truthy l order) [] (treeSetAll cs None entries')),
    (treeJson <$> treeSetAll cs None entries),
    (treeJson <$> treeSetAll cs None entries').
  split; [done|]. split; [done|].
  split; [exact (iterate_shape truthy t _ order Hs)|].
  split; [exact (iterate_shape truthy t' _ order Hs')|]. split.
  - apply NoDup_Permutation.
    + by eapply NoDup_fmap_1.
    + by eapply NoDup_fmap_1.
    + intros [k v]. by rewrite Hy, Hy', (lastValue_perm cs entries entries').
  - split; [by apply toJSON_spec|]. split; [by apply toJSON_spec|].
    apply NoDup_Permutation.
    + by eapply NoDup_fmap_1.
    + by eapply NoDup_fmap_1.
    + intros [k v]. by rewrite Hj, Hj', (lastValue_perm cs entries entries').
Qed.

End InsertionOrder.

(** * The operations on concrete tries *)

(** ** The tests of the repository *)

Example test_get_distinct_keys :
  (t ← trieOf [("ABC"%string, JsNumber 1); ("DEF"%string, JsNumber 2);
               ("GHI"%string, JsNumber 3); ("CBA"%string, JsNumber 4)] false;
   a ← get t (KeyString (js "ABC"));
   b ← get t (KeyString (js "DEF"));
   c ← get t (KeyString (js "GHI"));
   d ← get t (KeyString (js "CBA"));
   Some [a.1; b.1; c.1; d.1])
  = Some [Some (JsNumber 1); Some (JsNumber 2); Some (JsNumber 3); Some (JsNumber 4)].
Proof. vm_compute. reflexivity. Qed.

Example test_get_shared_prefix :
  (t ← trieOf sharedPrefixes false;
   a ← get t (KeyString (js "ABCDEF"));
   b ← get t (KeyString (js "ABCGHIJKL"));
   c ← get t (KeyString (js "ABCGHI"));
   d ← get t (KeyString (js "ABC"));
   Some [a.1; b.1; c.1; d.1])
  = Some [Some (JsString (js "abcdef")); Some (JsString (js "abcghijkl"));
          Some (JsString (js "abcghi")); Some (JsString (js "abc"))].
Proof. vm_compute. reflexivity. Qed.

Example test_get_window :
  (t ← trieOf sharedPrefixes false;
   a ← get t (window "this is a long string but it has ABCGHI somewhere inside" 33 39);
   b ← get t (window "this is a long string but it has ABCGHI somewhere inside" 33 56);
   Some (a.1, b.1))
  = Some (Some (JsString (js "abcghi")), None).
Proof. vm_compute. reflexivity. Qed.

Example test_findByLongestPrefix_window :
  (t ← trieOf sharedPrefixes true;
   a ← findByLongestPrefix js_truthy t
         (window "this is a long string but it has ABCGHIJKL somewhere inside" 33 59) false;
   b ← findByLongestPrefix js_truthy t
         (window "this is a long string but it has ABCGHIJK somewhere inside" 33 58) false;
   c ← findByLongestPrefix js_truthy t
         (window "this is a long string but it has ABCGH somewhere inside" 33 55) false;
   d ← findByLongestPrefix js_truthy t
         (window "this is a long string but it has AB somewhere inside" 33 52) false;
   e ← findByLongestPrefix js_truthy t
         (window "this is a long string but it has ABCGHIJKL somewhere inside" 33 39) false;
   Some [a.1; b.1; c.1; d.1; e.1])
  = Some [Some (js "ABCGHIJKL", JsString (js "abcghijkl"));
          Some (js "ABCGHI", JsString (js "abcghi"));
          Some (js "ABC", JsString (js "abc"));
          None;
          Some (js "ABCGHI", JsString (js "abcghi"))].
Proof. vm_compute. reflexivity. Qed.

Example test_iterate_orders :
  (iterate js_truthy sharedPrefixTrie None bfs,
   iterate js_truthy sharedPrefixTrie None dfs)
  = (Some [(js "ABC", JsString (js "abc"));
           (js "ABCDEF", JsString (js "abcdef"));
           (js "ABCGHI", JsString (js "abcghi"));
           (js "ABCGHIJKL", JsString (js "abcghijkl"))],
     Some [(js "ABC", JsString (js "abc"));
           (js "ABCGHI", JsString (js "abcghi"));
           (js "ABCGHIJKL", JsString (js "abcghijkl"));
           (js "ABCDEF", JsString (js "abcdef"))]).
Proof. vm_compute. reflexivity. Qed.

(** ** Where the code departs from the specification *)

(** C1, at the failing input: in the case-sensitive trie holding ABC,
    ABCDEF and ABCDXY the key ABC is stored with a value and is a
    prefix of ABCDZZ, and [findByLongestPrefix] without word boundaries
    returns absent for ABCDZZ: the traversal ends at the node D, which
    the second insertion split off without a value, and the search
    returns at once. *)
Theorem findByLongestPrefix_misses_stored_prefix :
  (t ← trieOf [("ABC"%string, JsNumber 1); ("ABCDEF"%string, JsNumber 2);
               ("ABCDXY"%string, JsNumber 3)] true;
   stored ← get t (KeyString (js "ABC"));
   '(reached, _) ← findClosestMatchingNode t (keyAsPointer (KeyString (js "ABCDZZ")));
   r ← findByLongestPrefix js_truthy t (KeyString (js "ABCDZZ")) false;
   Some (stored.1, option_map fullKey reached, r.1))
  = Some (Some (JsNumber 1), Some (js "ABCD"), None).
Proof. vm_compute. reflexivity. Qed.

(** C2, at the failing input: in the case-sensitive trie holding ABC,
    ABCDEFG and ABCDEXY the traversal for ABCDZ ends inside the key DE
    of a node without a value, one character matched of two; the upward
    walk from that node stops at the node of ABC, which holds a value,
    with the full key ABC; and [findByLongestPrefix] returns absent
    without walking. *)
Theorem findByLongestPrefix_no_walk_from_valueless_node :
  (t ← trieOf [("ABC"%string, JsNumber 1); ("ABCDEFG"%string, JsNumber 2);
               ("ABCDEXY"%string, JsNumber 3)] true;
   '(reached, _) ← findClosestMatchingNode t (keyAsPointer (KeyString (js "ABCDZ")));
   r ← findByLongestPrefix js_truthy t (KeyString (js "ABCDZ")) false;
   match reached with
   | Some res =>
       nd ← nodes t !! node res;
       walk ← walkUp js_truthy (S (length (nodes t))) t (node res) (fullKey res);
       Some (match_ res, key nd, value nd, walk.2, r.1)
   | None => None
   end)
  = Some (TrieMapPrefixMatch 1, js "DE", None, js "ABC", None).
Proof. vm_compute. reflexivity. Qed.

(** C3, at the failing input: in the trie holding ABC and ABCDEF, [get]
    on the window of ABCDEF from 0 to 6 finds the value at the child
    node and leaves the window with [pos] at 3; the same window passed
    to [get] again finds nothing. *)
Theorem findClosestMatchingNode_leaves_pos_advanced :
  (t ← trieOf [("ABC"%string, JsNumber 1); ("ABCDEF"%string, JsNumber 2)] false;
   '(first, k1) ← get t (window "ABCDEF" 0 6);
   '(second, _) ← get t k1;
   Some (first, k1, second))
  = Some (Some (JsNumber 2), window "ABCDEF" 3 6, None).
Proof. vm_compute. reflexivity. Qed.

(** C7, at the failing input: in the case-sensitive trie holding AB and
    ABC, [findByLongestPrefix] with word boundaries on ABCD first finds
    ABC, which the letter D follows before the end of the window; it
    narrows [posMax] to 2 and searches again.  AB then fills the
    narrowed window, the test for a letter after it compares with the
    narrowed [posMax] and is not made, and AB is returned with its
    value, the window left with [posMax] at 2, although the letter C
    follows AB before the end of the window that was passed: on that
    window the test rejects AB as it rejects ABC. *)
Theorem findByLongestPrefix_returns_key_before_letter :
  (t ← trieOf [("AB"%string, JsNumber 1); ("ABC"%string, JsNumber 2)] true;
   '(first, _) ← longestPrefixCandidate js_truthy t (mkPointer (js "ABCD") 0 4);
   '(r, w) ← findByLongestPrefix js_truthy t (window "ABCD" 0 4) true;
   s ← findByLongestPrefix js_truthy t (KeyString (js "ABCD")) true;
   Some (option_map snd first, r, w, s.1,
         rejects (mkPointer (js "ABCD") 0 4) 3,
         rejects (mkPointer (js "ABCD") 0 4) 2))
  = Some (Some (js "ABC"), Some (js "AB", JsNumber 1), window "ABCD" 0 2,
          Some (js "AB", JsNumber 1), true, true).
Proof. vm_compute. reflexivity. Qed.

(** ** Counterexamples to the specification as stated *)


(** Counterexample to C5: a wildcard in the window does not match a
    stored character: [charsEqual] of the stored b and the wildcard is
    false, and [get] of a*c finds nothing in the trie holding abc.  And
    a stored wildcard is compared only in the segments the traversal
    comes to: in the trie holding abc and a*d the root a lists the
    children bc and *d, [get] of abd follows bc, which matches in part,
    and finds nothing, while a*d and axd find the value of a*d. *)
Lemma wildcard_in_window_not_matched :
  charsEqual true "b"%char (Some wildcard) = Some false
  ∧ charsEqual false "b"%char (Some wildcard) = Some false
  ∧ (t ← trieOf [("abc"%string, JsNumber 1)] false;
     r ← get t (KeyString (js "a*c"));
     Some r.1)
    = Some None
  ∧ (t ← trieOf [("abc"%string, JsNumber 1); ("a*d"%string, JsNumber 2)] true;
     r ← root t;
     rn ← nodes t !! r;
     missed ← get t (KeyString (js "abd"));
     same ← get t (KeyString (js "a*d"));
     other ← get t (KeyString (js "axd"));
     Some (key rn, map (fun c => key <$> nodes t !! c) (children rn),
           missed.1, same.1, other.1))
    = Some (js "a", [Some (js "bc"); Some (js "*d")],
            None, Some (JsNumber 2), Some (JsNumber 2)).
Proof. repeat split; vm_compute; reflexivity. Qed.

(** Counterexample to C6: in the trie built by [set] of a and then of
    b, the root lists the node of a before the node of b; breadth first
    yields a before b, and depth first yields b before a.  And the node
    of a key set to 0 holds a value and is yielded in neither order.
    Nor is the order of a children list the order of insertion: after
    [set] of abc, xyz and ab the node of ab stands in the root's list
    where the node of abc stood, before the node of xyz, and breadth
    first yields ab, set last, before xyz. *)
Lemma iterate_dfs_last_child_first :
  (t ← trieOf [("a"%string, JsNumber 1); ("b"%string, JsNumber 2)] false;
   r ← root t;
   rn ← nodes t !! r;
   breadth ← iterate js_truthy t None bfs;
   depth ← iterate js_truthy t None dfs;
   Some (map (fun c => key <$> nodes t !! c) (children rn), breadth, depth))
  = Some ([Some (js "a"); Some (js "b")],
          [(js "a", JsNumber 1); (js "b", JsNumber 2)],
          [(js "b", JsNumber 2); (js "a", JsNumber 1)])
  ∧ (t ← trieOf [("a"%string, JsNumber 0)] false;
     r ← get t (KeyString (js "a"));
     breadth ← iterate js_truthy t None bfs;
     depth ← iterate js_truthy t None dfs;
     Some (r.1, breadth, depth))
    = Some (Some (JsNumber 0), [], [])
  ∧ (t ← trieOf [("abc"%string, JsNumber 1); ("xyz"%string, JsNumber 2);
                 ("ab"%string, JsNumber 3)] false;
     r ← root t;
     rn ← nodes t !! r;
     breadth ← iterate js_truthy t None bfs;
     depth ← iterate js_truthy t None dfs;
     Some (map (fun c => key <$> nodes t !! c) (children rn), breadth, depth))
    = Some ([Some (js "ab"); Some (js "xyz")],
            [(js "ab", JsNumber 3); (js "xyz", JsNumber 2); (js "abc", JsNumber 1)],
            [(js "xyz", JsNumber 2); (js "ab", JsNumber 3); (js "abc", JsNumber 1)]).
Proof. repeat split; vm_compute; reflexivity. Qed.

(** ** The theorems at concrete tries *)

Lemma reachable_invariants_witness :
  reachable sharedPrefixTrie
  ∧ (∀ i nd, nodes sharedPrefixTrie !! i = Some nd →
       root sharedPrefixTrie ≠ Some i → key nd ≠ [])
  ∧ (∀ i, i < length (nodes sharedPrefixTrie) →
       ∃ fk, pathKey sharedPrefixTrie i = Some fk)
  ∧ (∀ kp res kp', wellFormed kp →
       findClosestMatchingNode sharedPrefixTrie kp = Some (Some res, kp') →
       pathKey sharedPrefixTrie (node res) = Some (fullKey res))
  ∧ (∀ order ys y, iterate js_truthy sharedPrefixTrie None order = Some ys → y ∈ ys →
       ∃ i nd, nodes sharedPrefixTrie !! i = Some nd ∧ value nd = Some y.2
               ∧ pathKey sharedPrefixTrie i = Some y.1)
  ∧ (∀ i nd, nodes sharedPrefixTrie !! i = Some nd →
       (parent nd = None ↔ root sharedPrefixTrie = Some i))
  ∧ (∀ i nd, nodes sharedPrefixTrie !! i = Some nd →
       root sharedPrefixTrie ≠ Some i →
       ∃ p pn, parent nd = Some p ∧ nodes sharedPrefixTrie !! p = Some pn
               ∧ i ∈ children pn ∧ NoDup (children pn))
  ∧ (∀ q qn i, nodes sharedPrefixTrie !! q = Some qn → i ∈ children qn →
       ∃ nd, nodes sharedPrefixTrie !! i = Some nd ∧ parent nd = Some q).
Proof.
  assert (reachable sharedPrefixTrie) as Hr
    by (exists (entriesOf sharedPrefixes); vm_compute; reflexivity).
  split; [exact Hr|]. exact (reachable_invariants js_truthy sharedPrefixTrie Hr).
Defined.

Lemma iterate_orders_witness :
  reachable sharedPrefixTrie
  ∧ ∃ breadth depth,
      iterate js_truthy sharedPrefixTrie None bfs = Some breadth
      ∧ iterate js_truthy sharedPrefixTrie None dfs = Some depth
      ∧ breadth ≡ₚ allYields js_truthy sharedPrefixTrie
      ∧ depth ≡ₚ allYields js_truthy sharedPrefixTrie
      ∧ ∃ lt, shape sharedPrefixTrie lt
              ∧ match lt with
                | Some l =>
                    breadth = levelOrder js_truthy (length (ids l)) [(l, lkey l)]
                    ∧ depth = lastChildFirst js_truthy l (lkey l)
                | None => breadth = [] ∧ depth = []
                end.
Proof.
  assert (reachable sharedPrefixTrie) as Hr
    by (exists (entriesOf sharedPrefixes); vm_compute; reflexivity).
  split; [exact Hr|]. exact (iterate_orders js_truthy sharedPrefixTrie Hr).
Defined.


Lemma get_ignores_case_witness :
  reachable (empty (T := JsValue) false)
  ∧ caseSensitive (empty (T := JsValue) false) = false
  ∧ (∃ t' k', set (empty false) (KeyString (js "ABC")) (JsNumber 7) = Some t'
              ∧ get t' (KeyString (js "abc")) = Some (Some (JsNumber 7), k'))
  ∧ (∃ t' k', set (empty false) (KeyString (js "abc")) (JsNumber 7) = Some t'
              ∧ get t' (KeyString (js "ABC")) = Some (Some (JsNumber 7), k'))
  ∧ (∀ k k', wellFormedKey k' →
       toLowerCase (keyAsString k') = toLowerCase (keyAsString k) →
       ∃ t' k'', set (empty false) k (JsNumber 7) = Some t'
                 ∧ get t' k' = Some (Some (JsNumber 7), k''))
  ∧ (∀ k, set (empty false) k (JsNumber 7)
          = set (empty false) (KeyString (toLowerCase (keyAsString k))) (JsNumber 7))
  ∧ (∀ a b, charsEqual false a (Some b)
            = Some (Ascii.eqb a wildcard || Ascii.eqb a (toLowerCaseChar b))).
Proof.
  assert (reachable (empty (T := JsValue) false)) as Hr by (exists []; reflexivity).
  split; [exact Hr|]. split; [reflexivity|].
  exact (get_ignores_case (empty false) (JsNumber 7) Hr eq_refl).
Defined.

Lemma findByLongestPrefix_boundary_witness :
  reachable sharedPrefixTrie
  ∧ wellFormed (mkPointer (js "ABCGHIJK") 0 8)
  ∧ ∃ cand kp1 r,
      longestPrefixCandidate js_truthy sharedPrefixTrie (mkPointer (js "ABCGHIJK") 0 8)
      = Some (cand, kp1)
      ∧ findByLongestPrefixAt js_truthy sharedPrefixTrie
          (mkPointer (js "ABCGHIJK") 0 8) true = Some r
      ∧ match cand with
        | None => r = (None, kp1)
        | Some (n, fk) =>
            if rejects (mkPointer (js "ABCGHIJK") 0 8) (length fk)
            then kp1 = mkPointer (js "ABCGHIJK") 0 8
                 ∧ findByLongestPrefixAt js_truthy sharedPrefixTrie
                     (narrow (mkPointer (js "ABCGHIJK") 0 8)
                        (pos (mkPointer (js "ABCGHIJK") 0 8)
                         + Z.of_nat (length fk) - 1)) true = Some r
            else ∃ nd, nodes sharedPrefixTrie !! n = Some nd
                       ∧ r = (match value nd with
                              | Some v => if js_truthy v then Some (fk, v) else None
                              | None => None
                              end, kp1)
        end
      ∧ (∀ len, rejects (mkPointer (js "ABCGHIJK") 0 8) len = true ↔
           (pos (mkPointer (js "ABCGHIJK") 0 8) + Z.of_nat len
            < posMax (mkPointer (js "ABCGHIJK") 0 8))%Z
           ∧ ∃ c, data (mkPointer (js "ABCGHIJK") 0 8)
                    !! Z.to_nat (pos (mkPointer (js "ABCGHIJK") 0 8) + Z.of_nat len)
                  = Some c
                  ∧ isLetter c = true)
      ∧ (∀ c, isLetter c = true
              ↔ 65 ≤ nat_of_ascii c ≤ 90 ∨ 97 ≤ nat_of_ascii c ≤ 122).
Proof.
  assert (reachable sharedPrefixTrie) as Hr
    by (exists (entriesOf sharedPrefixes); vm_compute; reflexivity).
  assert (wellFormed (mkPointer (js "ABCGHIJK") 0 8)) as Hwf
    by (unfold wellFormed; simpl; lia).
  split; [exact Hr|]. split; [exact Hwf|].
  exact (findByLongestPrefix_boundary js_truthy sharedPrefixTrie
           (mkPointer (js "ABCGHIJK") 0 8) Hr Hwf).
Defined.

(** The retries of the boundary-aware search on ABCGHIJK: ABCGHI is
    followed by J and ABC by G, nothing is left; on ABC GHI the key ABC
    ends at a blank, and on ABCDEF1 the key ABCDEF ends at a digit. *)
Example boundary_retries_example :
  (a ← findByLongestPrefix js_truthy sharedPrefixTrie (KeyString (js "ABCGHIJK")) true;
   b ← findByLongestPrefix js_truthy sharedPrefixTrie (KeyString (js "ABCGHIJK")) false;
   c ← findByLongestPrefix js_truthy sharedPrefixTrie (KeyString (js "ABC GHI")) true;
   d ← findByLongestPrefix js_truthy sharedPrefixTrie (KeyString (js "ABCDEF1")) true;
   Some [a.1; b.1; c.1; d.1])
  = Some [None;
          Some (js "ABCGHI", JsString (js "abcghi"));
          Some (js "ABC", JsString (js "abc"));
          Some (js "ABCDEF", JsString (js "abcdef"))].
Proof. vm_compute. reflexivity. Qed.

Lemma charsEqual_wildcard_witness :
  matchPrefix false (js "a*c") (mkPointer (js "xABCx") 1 4) = Some full
  ∧ ∃ t k', construct [(KeyString (js "A*C"), JsNumber 1)] false = Some t
            ∧ get t (KeyString (js "aBc")) = Some (Some (JsNumber 1), k').
Proof.
  destruct (charsEqual_wildcard (T := JsValue) false) as (_ & _ & _ & Hm & Hg).
  split.
  - apply Hm; [unfold wellFormed; simpl; lia|]. vm_compute.
    repeat (constructor; [first [by left | by right]|]). constructor.
  - apply Hg. vm_compute.
    repeat (constructor; [first [by left | by right]|]). constructor.
Defined.


(** ** The further properties at concrete tries *)

Lemma sharedPrefixTrie_reachable : reachable sharedPrefixTrie.
Proof. exists (entriesOf sharedPrefixes). vm_compute. reflexivity. Defined.

Lemma sharedPrefixes_plain :
  Forall (fun e : TrieMapKey * JsValue => wildcard ∉ keyAsString e.1)
    (entriesOf sharedPrefixes).
Proof.
  repeat (constructor; [by apply (bool_decide_unpack _); vm_compute|]).
  constructor.
Defined.

Lemma get_window_text_witness :
  reachable sharedPrefixTrie
  ∧ wellFormed (mkPointer (js "xxABCGHIxx") 2 8)
  ∧ ∃ v k1 k2,
      get sharedPrefixTrie (KeyPointer (mkPointer (js "xxABCGHIxx") 2 8)) = Some (v, k1)
      ∧ get sharedPrefixTrie (KeyString (slice (js "xxABCGHIxx") 2 8)) = Some (v, k2).
Proof.
  assert (wellFormed (mkPointer (js "xxABCGHIxx") 2 8)) as Hwf
    by (unfold wellFormed; simpl; lia).
  split; [exact sharedPrefixTrie_reachable|]. split; [exact Hwf|].
  exact (get_window_text sharedPrefixTrie (mkPointer (js "xxABCGHIxx") 2 8)
           sharedPrefixTrie_reachable Hwf).
Defined.

Lemma traversal_window_witness :
  reachable sharedPrefixTrie
  ∧ wellFormed (mkPointer (js "xxABCGHIxx") 2 8)
  ∧ ∃ res kp',
      findClosestMatchingNode sharedPrefixTrie (mkPointer (js "xxABCGHIxx") 2 8)
      = Some (res, kp')
      ∧ data kp' = js "xxABCGHIxx" ∧ posMax kp' = 8%Z
      ∧ (∀ r, res = Some r → match_ r = full → root sharedPrefixTrie ≠ Some (node r) →
           ∃ nd, nodes sharedPrefixTrie !! node r = Some nd
                 ∧ pos kp' = (8 - Z.of_nat (length (key nd)))%Z)
      ∧ ((∀ r, res = Some r → match_ r = full → root sharedPrefixTrie = Some (node r)) →
         kp' = mkPointer (js "xxABCGHIxx") 2 8).
Proof.
  assert (wellFormed (mkPointer (js "xxABCGHIxx") 2 8)) as Hwf
    by (unfold wellFormed; simpl; lia).
  split; [exact sharedPrefixTrie_reachable|]. split; [exact Hwf|].
  eexists _, _. split; [vm_compute; reflexivity|].
  refine (traversal_window sharedPrefixTrie (mkPointer (js "xxABCGHIxx") 2 8) _ _
            sharedPrefixTrie_reachable Hwf _).
  vm_compute. reflexivity.
Defined.

Lemma matchPrefix_past_end_witness :
  (0 ≤ 1 ≤ Z.of_nat (length (js "xab")))%Z
  ∧ (Z.of_nat (length (js "xab")) < 5)%Z
  ∧ Forall2 (fun x y => charEq false x y = true) (js "ab") (js "ab")
  ∧ js "abcd" !! 2 = Some "c"%char
  ∧ "c"%char ≠ wildcard
  ∧ matchPrefix false (js "abcd") (mkPointer (js "xab") 1 5) = None
  ∧ ∀ (t : TrieMap JsValue) r rn,
      root t = Some r → nodes t !! r = Some rn → key rn = js "abcd" →
      caseSensitive t = false →
      get t (KeyPointer (mkPointer (js "xab") 1 5)) = None.
Proof.
  assert ((0 ≤ 1 ≤ Z.of_nat (length (js "xab")))%Z) as H1 by (simpl; lia).
  assert ((Z.of_nat (length (js "xab")) < 5)%Z) as H2 by (simpl; lia).
  assert (Forall2 (fun x y => charEq false x y = true) (js "ab") (js "ab")) as H3
    by (repeat constructor).
  assert (js "abcd" !! 2 = Some "c"%char) as H4 by reflexivity.
  assert ("c"%char ≠ wildcard) as H5 by discriminate.
  split; [exact H1|]. split; [exact H2|]. split; [exact H3|].
  split; [exact H4|]. split; [exact H5|].
  exact (matchPrefix_past_end (T := JsValue) false (js "abcd")
           (mkPointer (js "xab") 1 5) "c"%char H1 H2 H3 H4 H5).
Defined.

Lemma set_again_overwrites_witness :
  reachable (empty (T := JsValue) false)
  ∧ storedKey false (KeyString (js "aBC")) = storedKey false (KeyString (js "Abc"))
  ∧ ∃ t1 t2 n nd,
      set (empty false) (KeyString (js "Abc")) (JsNumber 1) = Some t1
      ∧ set t1 (KeyString (js "aBC")) (JsNumber 2) = Some t2
      ∧ nodes t1 !! n = Some nd ∧ value nd = Some (JsNumber 1)
      ∧ root t2 = root t1
      ∧ length (nodes t2) = length (nodes t1)
      ∧ ∀ i, nodes t2 !! i
             = (if decide (i = n) then setValue (Some (JsNumber 2)) else id)
                 <$> nodes t1 !! i.
Proof.
  assert (reachable (empty (T := JsValue) false)) as Hr by (exists []; reflexivity).
  split; [exact Hr|]. split; [reflexivity|].
  exact (set_again_overwrites (empty false) (KeyString (js "Abc"))
           (KeyString (js "aBC")) (JsNumber 1) (JsNumber 2) Hr eq_refl).
Defined.

Lemma findByLongestPrefix_window_witness :
  ∃ r search',
    findByLongestPrefix js_truthy sharedPrefixTrie (window "ABCGHIJK" 0 8) true
    = Some (r, search')
    ∧ ∃ kp', search' = KeyPointer kp' ∧ data kp' = js "ABCGHIJK"
             ∧ (0 ≤ pos kp')%Z ∧ (posMax kp' ≤ 8)%Z
             ∧ (true = false → posMax kp' = 8%Z).
Proof.
  eexists _, _. split; [vm_compute; reflexivity|].
  refine (findByLongestPrefix_window js_truthy sharedPrefixTrie
            (window "ABCGHIJK" 0 8) true _ _ _).
  vm_compute. reflexivity.
Defined.

Lemma toJSON_determines_get_witness :
  reachable nestedTrie
  ∧ reachable nestedTrieReversed
  ∧ caseSensitive nestedTrie = caseSensitive nestedTrieReversed
  ∧ nodes nestedTrie ≠ nodes nestedTrieReversed
  ∧ ∃ j1 j2,
      toJSON nestedTrie = Some j1 ∧ toJSON nestedTrieReversed = Some j2
      ∧ (j1 = None ↔ root nestedTrie = None)
      ∧ j1 = j2
      ∧ ∀ k, wellFormedKey k →
          ∃ v k1 k2, get nestedTrie k = Some (v, k1)
                     ∧ get nestedTrieReversed k = Some (v, k2).
Proof.
  assert (reachable nestedTrie) as Hr1
    by (exists (entriesOf nestedPrefixes); vm_compute; reflexivity).
  assert (reachable nestedTrieReversed) as Hr2
    by (exists (entriesOf (reverse nestedPrefixes)); vm_compute; reflexivity).
  split; [exact Hr1|]. split; [exact Hr2|]. split; [reflexivity|].
  split; [vm_compute; discriminate|].
  destruct (toJSON_determines_get nestedTrie nestedTrieReversed Hr1 Hr2 eq_refl)
    as (j1 & j2 & H1 & H2 & Hnone & Hsame).
  assert (j1 = j2) as Hj.
  { assert (toJSON nestedTrie = toJSON nestedTrieReversed) as E
      by (vm_compute; reflexivity).
    rewrite H1, H2 in E. by injection E. }
  exists j1, j2. split; [exact H1|]. split; [exact H2|]. split; [exact Hnone|].
  split; [exact Hj|]. exact (Hsame Hj).
Defined.

Lemma iterate_lists_the_map_witness :
  Forall (fun e : TrieMapKey * JsValue => wildcard ∉ keyAsString e.1)
    (entriesOf sharedPrefixes)
  ∧ ∃ t ys zs,
      construct (entriesOf sharedPrefixes) false = Some t
      ∧ iterate js_truthy t None dfs = Some ys
      ∧ symbolIterator js_truthy t = Some zs
      ∧ zs ≡ₚ ys
      ∧ NoDup ys.*1
      ∧ ∀ k v, (k, v) ∈ ys
               ↔ lastValue false (entriesOf sharedPrefixes) k = Some v
                 ∧ js_truthy v = true.
Proof.
  split; [exact sharedPrefixes_plain|].
  exact (iterate_lists_the_map js_truthy (entriesOf sharedPrefixes) false dfs
           sharedPrefixes_plain).
Defined.

Lemma toJSON_holds_the_map_witness :
  Forall (fun e : TrieMapKey * JsValue => wildcard ∉ keyAsString e.1)
    (entriesOf sharedPrefixes)
  ∧ ∃ t j,
      construct (entriesOf sharedPrefixes) false = Some t
      ∧ toJSON t = Some j
      ∧ (j = None ↔ entriesOf sharedPrefixes = [])
      ∧ NoDup (from_option (fun o => jsonEntries o []) [] j).*1
      ∧ ∀ k v, (k, v) ∈ from_option (fun o => jsonEntries o []) [] j
               ↔ lastValue false (entriesOf sharedPrefixes) k = Some v.
Proof.
  split; [exact sharedPrefixes_plain|].
  exact (toJSON_holds_the_map (entriesOf sharedPrefixes) false sharedPrefixes_plain).
Defined.

Lemma get_returns_stored_value_witness :
  reachable sharedPrefixTrie
  ∧ wellFormedKey (KeyString (js "ABCGHI"))
  ∧ get sharedPrefixTrie (KeyString (js "ABCGHI"))
    = Some (Some (JsString (js "abcghi")), KeyString (js "ABCGHI"))
  ∧ ∃ i nd fk,
      nodes sharedPrefixTrie !! i = Some nd
      ∧ value nd = Some (JsString (js "abcghi"))
      ∧ pathKey sharedPrefixTrie i = Some fk
      ∧ matchesText (caseSensitive sharedPrefixTrie) fk
          (keyAsString (KeyString (js "ABCGHI"))).
Proof.
  assert (wellFormedKey (KeyString (js "ABCGHI"))) as Hk
    by (unfold wellFormedKey, wellFormed; simpl; lia).
  assert (get sharedPrefixTrie (KeyString (js "ABCGHI"))
          = Some (Some (JsString (js "abcghi")), KeyString (js "ABCGHI"))) as Hg
    by (vm_compute; reflexivity).
  split; [exact sharedPrefixTrie_reachable|]. split; [exact Hk|]. split; [exact Hg|].
  exact (get_returns_stored_value sharedPrefixTrie (KeyString (js "ABCGHI"))
           (JsString (js "abcghi")) (KeyString (js "ABCGHI"))
           sharedPrefixTrie_reachable Hk Hg).
Defined.


Lemma findByLongestPrefix_returns_stored_witness :
  reachable sharedPrefixTrie
  ∧ wellFormedKey (KeyString (js "ABCDEF1"))
  ∧ findByLongestPrefix js_truthy sharedPrefixTrie (KeyString (js "ABCDEF1")) true
    = Some (Some (js "ABCDEF", JsString (js "abcdef")), KeyString (js "ABCDEF1"))
  ∧ (∃ n nd, nodes sharedPrefixTrie !! n = Some nd
             ∧ value nd = Some (JsString (js "abcdef"))
             ∧ js_truthy (JsString (js "abcdef")) = true
             ∧ pathKey sharedPrefixTrie n = Some (js "ABCDEF"))
  ∧ length (js "ABCDEF") ≤ length (keyAsString (KeyString (js "ABCDEF1")))
  ∧ matchesText (caseSensitive sharedPrefixTrie) (js "ABCDEF")
      (take (length (js "ABCDEF")) (keyAsString (KeyString (js "ABCDEF1")))).
Proof.
  assert (wellFormedKey (KeyString (js "ABCDEF1"))) as Hk
    by (unfold wellFormedKey, wellFormed; simpl; lia).
  assert (findByLongestPrefix js_truthy sharedPrefixTrie (KeyString (js "ABCDEF1")) true
          = Some (Some (js "ABCDEF", JsString (js "abcdef")), KeyString (js "ABCDEF1")))
    as Hf by (vm_compute; reflexivity).
  split; [exact sharedPrefixTrie_reachable|]. split; [exact Hk|]. split; [exact Hf|].
  exact (findByLongestPrefix_returns_stored js_truthy sharedPrefixTrie
           (KeyString (js "ABCDEF1")) true (js "ABCDEF") (JsString (js "abcdef"))
           (KeyString (js "ABCDEF1")) sharedPrefixTrie_reachable Hk Hf).
Defined.


Lemma findByLongestPrefix_finds_exact_key_witness :
  reachable sharedPrefixTrie
  ∧ wellFormedKey (KeyString (js "ABCGHI"))
  ∧ get sharedPrefixTrie (KeyString (js "ABCGHI"))
    = Some (Some (JsString (js "abcghi")), KeyString (js "ABCGHI"))
  ∧ js_truthy (JsString (js "abcghi")) = true
  ∧ ∃ fk,
      findByLongestPrefix js_truthy sharedPrefixTrie (KeyString (js "ABCGHI")) true
      = Some (Some (fk, JsString (js "abcghi")), KeyString (js "ABCGHI"))
      ∧ length fk = length (keyAsString (KeyString (js "ABCGHI")))
      ∧ matchesText (caseSensitive sharedPrefixTrie) fk
          (keyAsString (KeyString (js "ABCGHI"))).
Proof.
  assert (wellFormedKey (KeyString (js "ABCGHI"))) as Hk
    by (unfold wellFormedKey, wellFormed; simpl; lia).
  assert (get sharedPrefixTrie (KeyString (js "ABCGHI"))
          = Some (Some (JsString (js "abcghi")), KeyString (js "ABCGHI"))) as Hg
    by (vm_compute; reflexivity).
  split; [exact sharedPrefixTrie_reachable|]. split; [exact Hk|]. split; [exact Hg|].
  split; [reflexivity|].
  exact (findByLongestPrefix_finds_exact_key js_truthy sharedPrefixTrie
           (KeyString (js "ABCGHI")) (JsString (js "abcghi")) (KeyString (js "ABCGHI"))
           true sharedPrefixTrie_reachable Hk Hg eq_refl).
Defined.

Lemma contents_independent_of_insertion_order_witness :
  Forall (fun e : TrieMapKey * JsValue => wildcard ∉ keyAsString e.1)
    (entriesOf sharedPrefixes)
  ∧ reverse (entriesOf sharedPrefixes) ≡ₚ entriesOf sharedPrefixes
  ∧ NoDup ((fun e => storedKey false e.1) <$> entriesOf sharedPrefixes)
  ∧ ∃ t t' ys ys' j j',
      construct (entriesOf sharedPrefixes) false = Some t
      ∧ construct (reverse (entriesOf sharedPrefixes)) false = Some t'
      ∧ iterate js_truthy t None bfs = Some ys
      ∧ iterate js_truthy t' None bfs = Some ys'
      ∧ ys ≡ₚ ys'
      ∧ toJSON t = Some j ∧ toJSON t' = Some j'
      ∧ from_option (fun o => jsonEntries o []) [] j
        ≡ₚ from_option (fun o => jsonEntries o []) [] j'.
Proof.
  assert (reverse (entriesOf sharedPrefixes) ≡ₚ entriesOf sharedPrefixes) as Hp
    by apply reverse_Permutation.
  assert (NoDup ((fun e : TrieMapKey * JsValue => storedKey false e.1)
                   <$> entriesOf sharedPrefixes)) as Hnd
    by (apply (bool_decide_unpack _); vm_compute; reflexivity).
  split; [exact sharedPrefixes_plain|]. split; [exact Hp|]. split; [exact Hnd|].
  exact (contents_independent_of_insertion_order js_truthy (entriesOf sharedPrefixes)
           (reverse (entriesOf sharedPrefixes)) false bfs sharedPrefixes_plain Hp Hnd).
Defined.
